(** * The reader stage of mksquashfs (squashfs-tools/reader.c)

    A shallow embedding of [is_fragment], [put_file_buffer],
    [reader_read_process], [reader_read_file], [reader_scan] and [reader],
    with explicit state passing, and the properties of the reader stage
    proved over it.

    Conventions of the embedding.
    - C integers are [Z].  The narrowing conversion of the block count to
      the [int] variable [blocks] is written out ([to_int]).  The counter
      [seq] is an [int] that is only moved up and down by one.  Moving it
      up from [INT_MAX] is undefined behaviour in C and has no result to
      model: the model keeps the mathematical value, which is the value of
      the [int] as long as every number assigned is below [INT_MAX].  The
      theorem on the numbering of a whole run shows that this is so in
      every run that takes no more than [INT_MAX] buffers from the pool,
      and the theorems that number the buffers of a generator assume the
      room in the counter that they need.
    - Flags that C only tests for truth ([read], [root_entry],
      [no_fragments], [always_use_fragments], [fragment]) are [bool];
      [error] keeps its three integer values 0, 1 (TRUE) and 2.
    - The payload bytes behind [file_buffer->data] are not tracked: the
      reader never inspects them, only the byte counts.
    - Everything the reader asks of its collaborators (buffer pool,
      open/read/fstat, process spawn and wait) is answered by the
      environment [world]: one stream of answers per call, consumed in call
      order.  Every behaviour of the collaborators, races included, is some
      [world].
    - Calls without an effect on the state modelled here ([close],
      [progress_bar_size], the [ERROR] message) are left out.
    - The state carries a [trace] of the sequence numbers assigned, the
      buffers put on a queue or released, and the reads issued, in program
      order; it is only ever appended to. *)

From Stdlib Require Import ZArith List Bool Lia.
Import ListNotations.
Local Open Scope Z_scope.
Set Warnings "-register-all".

(** ** Streams of environment answers *)

Definition stream (A : Type) : Type := nat -> A.
Definition shead {A} (s : stream A) : A := s O.
Definition stail {A} (s : stream A) : stream A := fun n => s (S n).
Definition sconst {A} (a : A) : stream A := fun _ => a.

(** ** Data model *)

(** The two fields of [struct stat] the reader uses. *)
Record stat := mk_stat { st_size : Z; st_mode : Z }.

(** [struct inode_info] (mksquashfs.h), the fields reader.c touches.  The
    per-file tags [noD] and [noF] are [i_noD] and [i_noF] here, the plain
    names being taken by the buffer field and the global. *)
Record inode_info := mk_inode {
  buf : stat;
  read : bool;
  root_entry : bool;
  pseudo_file : Z;
  pseudo_id : Z;
  no_fragments : bool;
  always_use_fragments : bool;
  i_noD : Z;
  i_noF : Z
}.

(** [struct file_buffer] (caches-queues-lists.h), without the payload. *)
Record file_buffer := mk_buffer {
  sequence : Z;
  size : Z;
  file_size : Z;
  error : Z;
  fragment : bool;
  noD : Z
}.

Definition TRUE : Z := 1.
Definition FALSE : Z := 0.

Definition set_sequence (n : Z) (b : file_buffer) : file_buffer :=
  mk_buffer n (size b) (file_size b) (error b) (fragment b) (noD b).
Definition set_size (n : Z) (b : file_buffer) : file_buffer :=
  mk_buffer (sequence b) n (file_size b) (error b) (fragment b) (noD b).
Definition set_file_size (n : Z) (b : file_buffer) : file_buffer :=
  mk_buffer (sequence b) (size b) n (error b) (fragment b) (noD b).
Definition set_error (n : Z) (b : file_buffer) : file_buffer :=
  mk_buffer (sequence b) (size b) (file_size b) n (fragment b) (noD b).
Definition set_fragment (f : bool) (b : file_buffer) : file_buffer :=
  mk_buffer (sequence b) (size b) (file_size b) (error b) f (noD b).
Definition set_noD (n : Z) (b : file_buffer) : file_buffer :=
  mk_buffer (sequence b) (size b) (file_size b) (error b) (fragment b) n.

Definition set_buf (s : stat) (i : inode_info) : inode_info :=
  mk_inode s (read i) (root_entry i) (pseudo_file i) (pseudo_id i)
           (no_fragments i) (always_use_fragments i) (i_noD i) (i_noF i).
Definition set_st_size (n : Z) (i : inode_info) : inode_info :=
  set_buf (mk_stat n (st_mode (buf i))) i.
Definition set_read (r : bool) (i : inode_info) : inode_info :=
  mk_inode (buf i) r (root_entry i) (pseudo_file i) (pseudo_id i)
           (no_fragments i) (always_use_fragments i) (i_noD i) (i_noF i).

(** [struct dir_ent]: the inode it points to (an index into the inode
    store, so that hard links share one [inode_info]) and, for a directory,
    the entry list of its [struct dir_info]. *)
Inductive dir_ent := DirEnt (inode : nat) (dir : list dir_ent).

Definition inode (d : dir_ent) : nat := match d with DirEnt i _ => i end.
Definition dir (d : dir_ent) : list dir_ent := match d with DirEnt _ l => l end.

(** Induction over a directory tree: the property of an entry follows
    from the property of all the entries below it. *)
Fixpoint dir_ent_ind' (P : dir_ent -> Prop)
    (step : forall i children, Forall P children -> P (DirEnt i children))
    (d : dir_ent) : P d :=
  match d with
  | DirEnt i children =>
      step i children
        ((fix all (l : list dir_ent) : Forall P l :=
            match l with
            | [] => Forall_nil P
            | e :: l' => Forall_cons e (dir_ent_ind' P step e) (all l')
            end) children)
  end.

(** The three downstream queues. *)
Inductive queue_id := To_main | To_process_frag | To_deflate.

Inductive event :=
| Assign (n : Z)
| Put (q : queue_id) (b : file_buffer)
| Release (b : file_buffer)
| Read (count res : Z).

(** What [waitpid] reports: its result and the two status macros. *)
Record wait_status := mk_wait { w_res : Z; WIFEXITED : bool; WEXITSTATUS : Z }.

Record world := mk_world {
  cache_bufs : stream file_buffer;
  opens : stream Z;
  reads : stream Z;
  fstats : stream (Z * stat);
  execs : stream Z;
  waits : stream wait_status
}.

Record state := mk_state {
  seq : Z;
  inodes : nat -> inode_info;
  to_main : list file_buffer;
  to_process_frag : list file_buffer;
  to_deflate : list file_buffer;
  trace : list event;
  env : world
}.

Definition set_seq (n : Z) (st : state) : state :=
  mk_state n (inodes st) (to_main st) (to_process_frag st) (to_deflate st)
           (trace st) (env st).
Definition set_env (w : world) (st : state) : state :=
  mk_state (seq st) (inodes st) (to_main st) (to_process_frag st)
           (to_deflate st) (trace st) w.
Definition log (e : event) (st : state) : state :=
  mk_state (seq st) (inodes st) (to_main st) (to_process_frag st)
           (to_deflate st) (trace st ++ [e]) (env st).
Definition update_inode (i : nat) (f : inode_info -> inode_info) (st : state)
    : state :=
  mk_state (seq st)
           (fun j => if Nat.eqb j i then f (inodes st j) else inodes st j)
           (to_main st) (to_process_frag st) (to_deflate st) (trace st)
           (env st).

(** The run starts with [seq = 0] (its static initialiser) and empty
    queues. *)
Definition initial_state (ino : nat -> inode_info) (w : world) : state :=
  mk_state 0 ino [] [] [] [] w.

(** The buffers handed downstream, in the order of the handoff. *)
Fixpoint puts (tr : list event) : list file_buffer :=
  match tr with
  | [] => []
  | Put _ b :: tr' => b :: puts tr'
  | _ :: tr' => puts tr'
  end.

Definition forwarded (st : state) : list file_buffer := puts (trace st).

(** ** Collaborators *)

(** Modelled from the spec: [queue_put] and [seq_queue_put]
    (caches-queues-lists.c, not under src/), "FIFO handoff channels between
    pipeline stages": the buffer joins the tail of the queue. *)
Definition queue_put (q : queue_id) (b : file_buffer) (st : state) : state :=
  match q with
  | To_main =>
      mk_state (seq st) (inodes st) (to_main st ++ [b]) (to_process_frag st)
               (to_deflate st) (trace st ++ [Put q b]) (env st)
  | To_process_frag =>
      mk_state (seq st) (inodes st) (to_main st) (to_process_frag st ++ [b])
               (to_deflate st) (trace st ++ [Put q b]) (env st)
  | To_deflate =>
      mk_state (seq st) (inodes st) (to_main st) (to_process_frag st)
               (to_deflate st ++ [b]) (trace st ++ [Put q b]) (env st)
  end.

Definition seq_queue_put := queue_put.

(** Modelled from the spec: [cache_get_nohash] (buffer pool, "acquire"):
    the pool hands out a buffer whose fields hold whatever its last user
    left there. *)
Definition cache_get_nohash (st : state) : file_buffer * state :=
  let w := env st in
  (shead (cache_bufs w),
   set_env (mk_world (stail (cache_bufs w)) (opens w) (reads w) (fstats w)
                     (execs w) (waits w)) st).

(** Modelled from the spec: [cache_block_put] (buffer pool, "release"). *)
Definition cache_block_put (b : file_buffer) (st : state) : state :=
  log (Release b) st.

(** Modelled from the spec: [read_bytes] (mksquashfs.c): tries to read
    [count] bytes; answers the number of bytes read, less than [count] only
    at end of stream, or -1 on a read error. *)
Definition read_bytes (count : Z) (st : state) : Z * state :=
  let w := env st in
  let r := shead (reads w) in
  (r, log (Read count r)
        (set_env (mk_world (cache_bufs w) (opens w) (stail (reads w))
                           (fstats w) (execs w) (waits w)) st)).

(** [open(pathname_reader(dir_ent), O_RDONLY)]: a descriptor, or -1. *)
Definition open (st : state) : Z * state :=
  let w := env st in
  (shead (opens w),
   set_env (mk_world (cache_bufs w) (stail (opens w)) (reads w) (fstats w)
                     (execs w) (waits w)) st).

(** [fstat(file, &buf2)]: the result and the fresh [struct stat]. *)
Definition fstat (st : state) : (Z * stat) * state :=
  let w := env st in
  (shead (fstats w),
   set_env (mk_world (cache_bufs w) (opens w) (reads w) (stail (fstats w))
                     (execs w) (waits w)) st).

(** Modelled from the spec: [pseudo_exec_file] (pseudo.c), "request
    process creation, obtaining a readable stream handle": the descriptor
    of the stream, 0 when the process could not be created. *)
Definition pseudo_exec_file (st : state) : Z * state :=
  let w := env st in
  (shead (execs w),
   set_env (mk_world (cache_bufs w) (opens w) (reads w) (fstats w)
                     (stail (execs w)) (waits w)) st).

Definition waitpid (st : state) : wait_status * state :=
  let w := env st in
  (shead (waits w),
   set_env (mk_world (cache_bufs w) (opens w) (reads w) (fstats w)
                     (execs w) (stail (waits w))) st).

(** [file_buffer->sequence = seq ++], on the [int] counter [seq].  C
    defines the increment when [seq < INT_MAX], and there its result is the
    one below; at [INT_MAX] it is undefined.  The numbers assigned are
    recorded in the trace, so that a theorem can say of a run that every
    increment in it was defined. *)
Definition assign_sequence (b : file_buffer) (st : state)
    : file_buffer * state :=
  (set_sequence (seq st) b, log (Assign (seq st)) (set_seq (seq st + 1) st)).

(** [seq --]; the code only moves the counter down from a number it has
    just assigned. *)
Definition seq_decr (st : state) : state := set_seq (seq st - 1) st.

(** How a reader call ends: it returned, or the model's bound on the
    iterations of an unbounded loop ran out with the state reached so
    far. *)
Inductive outcome :=
| Done (st : state)
| OutOfFuel (st : state).

Definition outcome_state (o : outcome) : state :=
  match o with Done st => st | OutOfFuel st => st end.

Definition and_then (o : outcome) (k : state -> outcome) : outcome :=
  match o with Done st => k st | OutOfFuel st => OutOfFuel st end.

(** One attempt of the block reader: finished with the file, or
    [goto again]; [Fuel] is the block loop asked to go round more often
    than its bound allows. *)
Inductive attempt_result :=
| Finished (st : state)
| Again (st : state)
| Fuel (st : state).

Definition S_IFMT : Z := 61440.
Definition S_IFREG : Z := 32768.
Definition S_IFDIR : Z := 16384.

(** Conversion of a [long long] to [int] (modulo 2^32, as gcc defines
    it). *)
Definition INT_MAX : Z := 2147483647.
Definition to_int (z : Z) : Z := (z + 2 ^ 31) mod 2 ^ 32 - 2 ^ 31.

(** ** Sample inputs

    Concrete inodes and environments on which the properties below are
    exercised. *)

(** What the pool's buffers hold before the reader writes to them. *)
Definition stale_buffer : file_buffer := mk_buffer 77 78 79 80 true 81.

Definition S_IFLNK : Z := 40960.

Definition regular_file (S : Z) : inode_info :=
  mk_inode (mk_stat S S_IFREG) false false 0 0 false false 0 0.

Definition symlink : inode_info :=
  mk_inode (mk_stat 7 S_IFLNK) false false 0 0 false false 0 0.

Definition pseudo_process_file : inode_info :=
  mk_inode (mk_stat 0 S_IFREG) false false 2 0 false false 0 0.

(** The inode of a 500 byte file whose [no_fragments] flag is set. *)
Definition unfragmented_file : inode_info :=
  mk_inode (mk_stat 500 S_IFREG) false false 0 0 true false 0 0.

Definition is_pseudo_process (i : inode_info) : bool :=
  Z.testbit (pseudo_file i) 1.

(** A file of [S] bytes that opens, never changes and never fails, read
    in blocks of [B] bytes. *)
Definition static_file_world (S B : Z) : world :=
  mk_world (sconst stale_buffer) (sconst 3)
           (fun j => Z.min B (Z.max 0 (S - Z.of_nat j * B)))
           (sconst (0, mk_stat S S_IFREG)) (sconst 0)
           (sconst (mk_wait 0 true 0)).

Definition static_file_state (S B : Z) : state :=
  initial_state (fun _ => regular_file S) (static_file_world S B).

(** A file stated at [S] bytes whose reads answer [answers] in turn (0
    afterwards) and whose fresh stat reports [fresh] bytes. *)
Definition scripted_file_state (S : Z) (answers : list Z) (fresh : Z) : state :=
  initial_state (fun _ => regular_file S)
    (mk_world (sconst stale_buffer) (sconst 3) (fun j => nth j answers 0)
              (sconst (0, mk_stat fresh S_IFREG)) (sconst 0)
              (sconst (mk_wait 0 true 0))).

(** A generator that starts, delivers [chunks] and then end of stream, and
    whose wait reports [exit]. *)
Definition generator_world (chunks : list Z) (exit : wait_status) : world :=
  mk_world (sconst stale_buffer) (sconst 3) (fun j => nth j chunks 0)
           (sconst (0, mk_stat 0 S_IFREG)) (sconst 4) (sconst exit).

Definition generator_state (chunks : list Z) (exit : wait_status) : state :=
  initial_state (fun _ => pseudo_process_file) (generator_world chunks exit).

(** A small tree: a directory that holds a file of 2500 bytes, a symbolic
    link, a pseudo process file whose generator delivers 300 bytes, and a
    second name of the file. *)
Definition directory : inode_info :=
  mk_inode (mk_stat 4096 S_IFDIR) false false 0 0 false false 0 0.

Definition sample_inodes (j : nat) : inode_info :=
  nth j [directory; regular_file 2500; symlink; pseudo_process_file] symlink.

Definition sample_tree : list dir_ent :=
  [DirEnt 0 [DirEnt 1 []; DirEnt 2 []; DirEnt 3 []; DirEnt 1 []]].

Definition sample_world : world :=
  mk_world (sconst stale_buffer) (sconst 3)
           (fun j => nth j [1024; 1024; 452; 300] 0)
           (sconst (0, mk_stat 2500 S_IFREG)) (sconst 4)
           (sconst (mk_wait 0 true 0)).

(** A file of 2500 bytes that cannot be opened. *)
Definition unopenable_file_state : state :=
  initial_state (fun _ => regular_file 2500)
    (mk_world (sconst stale_buffer) (sconst (-1)) (sconst 0)
              (sconst (0, mk_stat 2500 S_IFREG)) (sconst 0)
              (sconst (mk_wait 0 true 0))).

(** A generator that cannot be started. *)
Definition failed_spawn_state : state :=
  initial_state (fun _ => pseudo_process_file)
    (mk_world (sconst stale_buffer) (sconst 3) (sconst 0)
              (sconst (0, mk_stat 0 S_IFREG)) (sconst 0)
              (sconst (mk_wait 0 true 0))).

(** A file stated at 1024 bytes of which every read delivers one byte and
    every fresh stat reports another size than the one before: 5, 6, 5,
    6, ... *)
Definition flickering_file_state : state :=
  initial_state (fun _ => regular_file 1024)
    (mk_world (sconst stale_buffer) (sconst 3) (sconst 1)
              (fun j => (0, mk_stat (if Nat.even j then 5 else 6) S_IFREG))
              (sconst 0) (sconst (mk_wait 0 true 0))).

(** A generator that starts and delivers 512 bytes at every read, for
    ever. *)
Definition endless_generator_state : state :=
  initial_state (fun _ => pseudo_process_file)
    (mk_world (sconst stale_buffer) (sconst 3) (sconst 512)
              (sconst (0, mk_stat 0 S_IFREG)) (sconst 4)
              (sconst (mk_wait 0 true 0))).

Section Reader.

(** The globals of mksquashfs.c the reader reads: [block_log], with
    [block_size = 1 << block_log], and the default fragment compression tag
    [noF].  [IS_PSEUDO_PROCESS] is the macro of that name. *)
Variable block_log : Z.
Variable noF : Z.
Variable IS_PSEUDO_PROCESS : inode_info -> bool.

Definition block_size : Z := Z.shiftl 1 block_log.

(** ** is_fragment *)

Definition is_fragment (inode : inode_info) : bool :=
  let file_size := st_size (buf inode) in
  if negb (i_noF inode =? noF) then false
  else
    negb (no_fragments inode) && negb (file_size =? 0) &&
    ((file_size <? block_size) ||
     (always_use_fragments inode &&
      negb (Z.land file_size (block_size - 1) =? 0))).

(** ** put_file_buffer *)

Definition put_file_buffer (file_buffer : file_buffer) (st : state) : state :=
  if negb (error file_buffer =? 0) then
    seq_queue_put To_main (set_fragment false file_buffer) st
  else if file_size file_buffer =? 0 then
    seq_queue_put To_main file_buffer st
  else if fragment file_buffer then
    queue_put To_process_frag file_buffer st
  else
    queue_put To_deflate file_buffer st.

(** ** reader_read_process *)

(** The code from the label [read_err] on ([read_err2] only closes the
    stream first). *)
Definition read_err_process (prev_buffer : option file_buffer)
    (file_buffer : file_buffer) (st : state) : state :=
  match prev_buffer with
  | Some prev =>
      let st := cache_block_put file_buffer st in
      let st := seq_decr st in
      put_file_buffer (set_error TRUE prev) st
  | None => put_file_buffer (set_error TRUE file_buffer) st
  end.

(** The code after the [while] loop, reached by its [break]. *)
Definition process_finish (i : nat) (prev_buffer : option file_buffer)
    (file_buffer : file_buffer) (bytes : Z) (st : state) : state :=
  let st := update_inode i (set_st_size bytes) st in
  let '(w, st) := waitpid st in
  if (w_res w =? -1) || negb (WIFEXITED w) || negb (WEXITSTATUS w =? 0) then
    read_err_process prev_buffer file_buffer st
  else
    let '(prev, st) :=
      match prev_buffer with
      | None => (file_buffer, st)
      | Some prev => (prev, seq_decr (cache_block_put file_buffer st))
      end in
    let prev := set_file_size bytes prev in
    let prev := set_fragment (is_fragment (inodes st i)) prev in
    put_file_buffer prev st.

(** The [while(1)] loop; [fuel] bounds its iterations. *)
Fixpoint process_loop (fuel : nat) (i : nat) (prev_buffer : option file_buffer)
    (bytes : Z) (st : state) : outcome :=
  match fuel with
  | O => OutOfFuel st
  | S fuel' =>
      let '(file_buffer, st) := cache_get_nohash st in
      let '(file_buffer, st) := assign_sequence file_buffer st in
      let file_buffer := set_noD (i_noD (inodes st i)) file_buffer in
      let '(byte, st) := read_bytes block_size st in
      if byte =? -1 then Done (read_err_process prev_buffer file_buffer st)
      else
        let file_buffer := set_size byte file_buffer in
        let file_buffer := set_file_size (-1) file_buffer in
        let file_buffer := set_error FALSE file_buffer in
        let file_buffer := set_fragment false file_buffer in
        let bytes := bytes + byte in
        if byte =? 0 then
          Done (process_finish i prev_buffer file_buffer bytes st)
        else
          let st := match prev_buffer with
                    | Some prev => put_file_buffer prev st
                    | None => st
                    end in
          process_loop fuel' i (Some file_buffer) bytes st
  end.

Definition reader_read_process (fuel : nat) (dir_ent : dir_ent) (st : state)
    : outcome :=
  let i := inode dir_ent in
  let '(file, st) := pseudo_exec_file st in
  if file =? 0 then
    let '(file_buffer, st) := cache_get_nohash st in
    let '(file_buffer, st) := assign_sequence file_buffer st in
    Done (read_err_process None file_buffer st)
  else process_loop fuel i None 0 st.

(** ** reader_read_file *)

(** The labels [read_err2] and [read_err] ([read_err] only closes the file
    first). *)
Definition read_err2 (file_buffer : file_buffer) (st : state) : state :=
  put_file_buffer (set_error TRUE file_buffer) st.

Definition read_err (file_buffer : file_buffer) (st : state) : state :=
  read_err2 file_buffer st.

(** The label [restat]. *)
Definition restat (i : nat) (read_size : Z) (file_buffer : file_buffer)
    (st : state) : attempt_result :=
  let '((res, buf2), st) := fstat st in
  if res =? -1 then Finished (read_err file_buffer st)
  else if negb (read_size =? st_size buf2) then
    let st := update_inode i (set_buf buf2) st in
    let st := put_file_buffer (set_error 2 file_buffer) st in
    Again st
  else Finished (read_err file_buffer st).

(** The code between the [do ... while] loop and the label [restat]. *)
Definition after_loop (i : nat) (read_size bytes : Z)
    (file_buffer : file_buffer) (st : state) : attempt_result :=
  let finish st :=
    Finished (put_file_buffer
                (set_fragment (is_fragment (inodes st i)) file_buffer) st) in
  if negb (read_size =? bytes) then restat i read_size file_buffer st
  else if negb (read_size =? 0) && (Z.rem read_size block_size =? 0) then
    let '(res, st) := read_bytes 1 st in
    if res =? -1 then Finished (read_err file_buffer st)
    else if negb (res =? 0) then restat i read_size file_buffer st
    else finish st
  else finish st.

(** The [do ... while(-- blocks > 0)] loop.  [n] bounds the number of
    times it goes round again; [blocks - 1] is enough. *)
Fixpoint read_blocks (n : nat) (i : nat) (read_size blocks bytes : Z)
    (st : state) : attempt_result :=
  let '(file_buffer, st) := cache_get_nohash st in
  let file_buffer := set_file_size read_size file_buffer in
  let '(file_buffer, st) := assign_sequence file_buffer st in
  let file_buffer := set_noD (i_noD (inodes st i)) file_buffer in
  let file_buffer := set_error FALSE file_buffer in
  let '(res, st) := read_bytes block_size st in
  let file_buffer := set_size res file_buffer in
  if size file_buffer =? -1 then Finished (read_err file_buffer st)
  else
    let bytes := bytes + size file_buffer in
    let continue file_buffer st :=
      if blocks - 1 >? 0 then
        match n with
        | S n' => read_blocks n' i read_size (blocks - 1) bytes st
        | O => Fuel st
        end
      else after_loop i read_size bytes file_buffer st in
    if blocks >? 1 then
      if size file_buffer <? block_size then restat i read_size file_buffer st
      else
        let file_buffer := set_fragment false file_buffer in
        continue file_buffer (put_file_buffer file_buffer st)
    else continue file_buffer st.

(** From the label [again] to the end of the function, once. *)
Definition attempt (i : nat) (st : state) : attempt_result :=
  let bytes := 0 in
  let read_size := st_size (buf (inodes st i)) in
  let blocks := to_int (Z.shiftr (read_size + block_size - 1) block_log) in
  let '(file, st) := open st in
  if file =? -1 then
    let '(file_buffer, st) := cache_get_nohash st in
    let '(file_buffer, st) := assign_sequence file_buffer st in
    Finished (read_err2 file_buffer st)
  else read_blocks (Z.to_nat (blocks - 1)) i read_size blocks bytes st.

(** [goto again], at most [fuel] attempts. *)
Fixpoint again (fuel : nat) (i : nat) (st : state) : outcome :=
  match fuel with
  | O => OutOfFuel st
  | S fuel' =>
      match attempt i st with
      | Finished st' => Done st'
      | Again st' => again fuel' i st'
      | Fuel st' => OutOfFuel st'
      end
  end.

Definition reader_read_file (fuel : nat) (dir_ent : dir_ent) (st : state)
    : outcome :=
  let i := inode dir_ent in
  if read (inodes st i) then Done st
  else again fuel i (update_inode i (set_read true) st).

(** ** reader_scan and reader *)

Fixpoint scan_entry (fuel : nat) (entry : dir_ent) (st : state) : outcome :=
  match entry with
  | DirEnt i children =>
      let ino := inodes st i in
      if root_entry ino then Done st
      else if IS_PSEUDO_PROCESS ino then reader_read_process fuel entry st
      else
        let m := Z.land (st_mode (buf ino)) S_IFMT in
        if m =? S_IFREG then reader_read_file fuel entry st
        else if m =? S_IFDIR then
          (fix scan (l : list dir_ent) (st : state) : outcome :=
             match l with
             | [] => Done st
             | e :: l' => and_then (scan_entry fuel e st) (scan l')
             end) children st
        else Done st
  end.

Fixpoint reader_scan (fuel : nat) (dir : list dir_ent) (st : state)
    : outcome :=
  match dir with
  | [] => Done st
  | dir_ent :: next =>
      and_then (scan_entry fuel dir_ent st) (reader_scan fuel next)
  end.

(** The inner loop of the sorted mode, over one bucket of
    [priority_list]. *)
Fixpoint read_entries (fuel : nat) (entries : list dir_ent) (st : state)
    : outcome :=
  match entries with
  | [] => Done st
  | entry :: next =>
      and_then (reader_read_file fuel entry st) (read_entries fuel next)
  end.

(** [for(i = n - 1; i >= 0; i--)] over the buckets. *)
Fixpoint read_priorities (fuel : nat) (priority_list : nat -> list dir_ent)
    (n : nat) (st : state) : outcome :=
  match n with
  | O => Done st
  | S i =>
      and_then (read_entries fuel (priority_list i) st)
               (read_priorities fuel priority_list i)
  end.

(** [reader]: [root] is what [queue_get(to_reader)] delivers. *)
Definition reader (fuel : nat) (sorted : bool) (root : list dir_ent)
    (priority_list : nat -> list dir_ent) (st : state) : outcome :=
  if negb sorted then reader_scan fuel root st
  else read_priorities fuel priority_list (Z.to_nat 65536) st.

(** * Vocabulary of the properties *)

Definition queue (q : queue_id) (st : state) : list file_buffer :=
  match q with
  | To_main => to_main st
  | To_process_frag => to_process_frag st
  | To_deflate => to_deflate st
  end.

(** The queue the four rules of [put_file_buffer] pick, in the spec's
    words. *)
Definition route (b : file_buffer) : queue_id :=
  if negb (error b =? 0) then To_main
  else if file_size b =? 0 then To_main
  else if fragment b then To_process_frag
  else To_deflate.

(** The buffer as it is enqueued: an error turns the fragment flag off. *)
Definition routed (b : file_buffer) : file_buffer :=
  if negb (error b =? 0) then set_fragment false b else b.

Definition result_state (r : attempt_result) : state :=
  match r with Finished st => st | Again st => st | Fuel st => st end.

Definition wait_ok (w : wait_status) : Prop :=
  w_res w <> -1 /\ WIFEXITED w = true /\ WEXITSTATUS w = 0.



Definition queue_id_eqb (a b : queue_id) : bool :=
  match a, b with
  | To_main, To_main | To_process_frag, To_process_frag
  | To_deflate, To_deflate => true
  | _, _ => false
  end.

(** The buffers the trace says were put on queue [q], in order. *)
Fixpoint puts_to (q : queue_id) (tr : list event) : list file_buffer :=
  match tr with
  | [] => []
  | Put q' b :: tr' =>
      if queue_id_eqb q' q then b :: puts_to q tr' else puts_to q tr'
  | _ :: tr' => puts_to q tr'
  end.






(** The [k]-th buffer of a file of stated size [S] read in [total]
    buffers, the first of them numbered [first]. *)
Definition block_buffer (tagD S first : Z) (frag : bool) (total : nat)
    (k : nat) : file_buffer :=
  mk_buffer (first + Z.of_nat k)
            (Z.min block_size (S - Z.of_nat k * block_size))
            S FALSE
            (if Nat.eqb (Datatypes.S k) total then frag else false)
            tagD.

(** The answers of [read_bytes] on a file of [S] bytes that nobody
    touches, from the block [k0] on: full blocks, then the tail, then end
    of stream. *)
Definition static_reads (S : Z) (k0 : nat) (st : state) : Prop :=
  forall j : nat,
    Z.of_nat (k0 + j) * block_size <= S ->
    reads (env st) j =
    Z.min block_size (S - Z.of_nat (k0 + j) * block_size).

(** The number of buffers of a file of stated size [S]:
    [max(1, ceil(S / block_size))]. *)
Definition block_count (S : Z) : Z :=
  Z.max 1 ((S + block_size - 1) / block_size).

(** The buffers of an unchanging file with inode [ino], the first of them
    numbered [first]. *)
Definition file_buffers (ino : inode_info) (first : Z) : list file_buffer :=
  let S := st_size (buf ino) in
  let N := Z.to_nat (block_count S) in
  map (block_buffer (i_noD ino) S first (is_fragment ino) N) (List.seq 0 N).

(** The sum of the first [k] answers of a stream. *)
Fixpoint stream_sum (s : stream Z) (k : nat) : Z :=
  match k with
  | O => 0
  | Datatypes.S k' => shead s + stream_sum (stail s) k'
  end.

(** The generator delivers [k] chunks of data and then end of stream,
    without a read error. *)
Definition stream_ends_after (k : nat) (st : state) : Prop :=
  (forall j : nat, (j < k)%nat ->
     reads (env st) j <> 0 /\ reads (env st) j <> -1) /\
  reads (env st) k = 0.

(** A buffer as the process reader forwards it before the end of the
    stream. *)
Definition nonterminal (b : file_buffer) : Prop :=
  error b = 0 /\ file_size b = -1 /\ fragment b = false.

Definition olist {A} (o : option A) : list A :=
  match o with Some a => [a] | None => [] end.

(** ** Vocabulary of the further properties *)

(** A buffer put is the buffer [put_file_buffer] makes of some buffer, on
    the queue it picks for it. *)
Definition routed_event (e : event) : Prop :=
  match e with
  | Put q b => exists b0, q = route b0 /\ b = routed b0
  | _ => True
  end.

(** The numbers of sequence numbers assigned and of buffers released in a
    stretch of the trace. *)
Fixpoint acquired (tr : list event) : nat :=
  match tr with
  | [] => O
  | Assign _ :: tr' => Datatypes.S (acquired tr')
  | _ :: tr' => acquired tr'
  end.

Fixpoint released (tr : list event) : nat :=
  match tr with
  | [] => O
  | Release _ :: tr' => Datatypes.S (released tr')
  | _ :: tr' => released tr'
  end.

(** What the reader leaves of an inode: a [read] flag that is set stays
    set, and only [buf] and [read] are ever written. *)
Definition inode_kept (a b : inode_info) : Prop :=
  (read a = true -> read b = true) /\
  root_entry b = root_entry a /\
  pseudo_file b = pseudo_file a /\
  pseudo_id b = pseudo_id a /\
  no_fragments b = no_fragments a /\
  always_use_fragments b = always_use_fragments a /\
  i_noD b = i_noD a /\
  i_noF b = i_noF a.

(** The counter replayed over a stretch of the trace, from the value [c]:
    a number assigned must be the value the counter has, and moves it up by
    one; a buffer released moves it down by one. *)
Fixpoint tally (c : Z) (tr : list event) : option Z :=
  match tr with
  | [] => Some c
  | Assign n :: tr' => if n =? c then tally (c + 1) tr' else None
  | Release _ :: tr' => tally (c - 1) tr'
  | _ :: tr' => tally c tr'
  end.

(** How a state [st'] reached from [st] relates to it: the trace has grown
    by a stretch [seg] of well-routed events, every queue has grown by what
    [seg] puts on it, the counter has moved by the numbers assigned less the
    buffers released, the pool has handed out one buffer per number
    assigned, the inodes are kept, and every number assigned in [seg] is
    the value the counter had. *)
Definition advances (st st' : state) : Prop :=
  exists seg,
    trace st' = trace st ++ seg /\
    Forall routed_event seg /\
    (forall q, queue q st' = queue q st ++ puts_to q seg) /\
    seq st' = seq st + Z.of_nat (acquired seg) - Z.of_nat (released seg) /\
    (forall n, cache_bufs (env st') n
               = cache_bufs (env st) (acquired seg + n)%nat) /\
    (forall j, inode_kept (inodes st j) (inodes st' j)) /\
    tally (seq st) seg = Some (seq st').

(** What the dispatcher guarantees of a buffer found on queue [q]. *)
Definition fits_queue (q : queue_id) (b : file_buffer) : Prop :=
  match q with
  | To_main =>
      (error b <> 0 /\ fragment b = false) \/ (error b = 0 /\ file_size b = 0)
  | To_process_frag =>
      error b = 0 /\ file_size b <> 0 /\ fragment b = true
  | To_deflate =>
      error b = 0 /\ file_size b <> 0 /\ fragment b = false
  end.

(** The environment has run no generator: the streams of spawn and wait
    answers are where they were. *)
Definition no_process (st st' : state) : Prop :=
  execs (env st') = execs (env st) /\ waits (env st') = waits (env st).

(** A buffer of the process reader: chunk [j] of the stream [s], numbered
    from [first]. *)
Definition chunk_buffer (tagD first : Z) (s : stream Z) (j : nat)
    : file_buffer :=
  mk_buffer (first + Z.of_nat j) (s j) (-1) FALSE false tagD.

(** The first [k] answers of the stream of reads are chunks of data. *)
Definition data_chunks (k : nat) (st : state) : Prop :=
  forall j : nat, (j < k)%nat ->
    reads (env st) j <> 0 /\ reads (env st) j <> -1.

(** The first [k] answers of the stream of reads are full blocks. *)
Definition full_blocks (k : nat) (st : state) : Prop :=
  forall j : nat, (j < k)%nat -> reads (env st) j = block_size.

Definition sum_list (l : list Z) : Z := fold_right Z.add 0 l.

(** The reads a stretch of the trace records, each with the number of
    bytes asked for and the answer. *)
Fixpoint reads_of (tr : list event) : list (Z * Z) :=
  match tr with
  | [] => []
  | Read count res :: tr' => (count, res) :: reads_of tr'
  | _ :: tr' => reads_of tr'
  end.

(** Between [st] and [st'] no inode but number [i] was written. *)
Definition others_kept (i : nat) (st st' : state) : Prop :=
  forall j, j <> i -> inodes st' j = inodes st j.

(** The last buffer forwarded is the mark of a retry: a buffer with
    [error = 2], fragment flag off, at the tail of the main queue. *)
Definition retry_marked (st : state) : Prop :=
  exists l m e,
    forwarded st = l ++ [e] /\ to_main st = m ++ [e] /\
    error e = 2 /\ fragment e = false.

(** * Properties *)

(** ** The trace *)

Lemma puts_app (t1 t2 : list event) : puts (t1 ++ t2) = puts t1 ++ puts t2.
Proof.
  induction t1 as [| e t1 IH]; simpl; [reflexivity |].
  destruct e; simpl; rewrite IH; reflexivity.
Qed.

(** ** Arithmetic of the block size *)

Lemma block_size_pow2 : 0 <= block_log -> block_size = 2 ^ block_log.
Proof.
  intros H. unfold block_size. rewrite Z.shiftl_mul_pow2 by assumption. lia.
Qed.

Lemma block_size_pos : 0 <= block_log -> 0 < block_size.
Proof.
  intros H. rewrite block_size_pow2 by assumption.
  apply Z.pow_pos_nonneg; lia.
Qed.

Lemma land_block_mask (z : Z) :
  0 <= block_log -> Z.land z (block_size - 1) = z mod block_size.
Proof.
  intros H. rewrite block_size_pow2 by assumption.
  replace (2 ^ block_log - 1) with (Z.ones block_log)
    by (rewrite Z.ones_equiv; lia).
  apply Z.land_ones; assumption.
Qed.

(** ** The fragment classifier *)

(** What [is_fragment] decides, condition by condition. *)
Lemma is_fragment_iff (inode : inode_info) :
  0 <= block_log ->
  (is_fragment inode = true <->
   i_noF inode = noF /\
   no_fragments inode = false /\
   st_size (buf inode) <> 0 /\
   (st_size (buf inode) < block_size \/
    (always_use_fragments inode = true /\
     st_size (buf inode) mod block_size <> 0))).
Proof.
  intros Hlog. unfold is_fragment.
  rewrite land_block_mask by assumption.
  destruct (Z.eqb_spec (i_noF inode) noF) as [Htag | Htag]; simpl.
  - rewrite !andb_true_iff, orb_true_iff, andb_true_iff, !negb_true_iff.
    rewrite Z.ltb_lt, !Z.eqb_neq. split.
    + intros [[H1 H2] H3]. auto.
    + intros (_ & H1 & H2 & H3). auto.
  - split; [discriminate | intros [H _]; contradiction].
Qed.

(** ** The dispatcher *)

Lemma put_file_buffer_queue_put (b : file_buffer) (st : state) :
  put_file_buffer b st = queue_put (route b) (routed b) st.
Proof.
  unfold put_file_buffer, route, routed, seq_queue_put.
  destruct (error b =? 0); simpl; [| reflexivity].
  destruct (file_size b =? 0); [reflexivity |].
  destruct (fragment b); reflexivity.
Qed.

(** C2: [put_file_buffer] applies the four rules in priority order, the
    buffer joins the tail of exactly the queue picked and the other two
    queues are untouched, so exactly one more buffer is queued. *)
Theorem put_file_buffer_routes (b : file_buffer) (st : state) :
  let st' := put_file_buffer b st in
  (error b <> 0 ->
   to_main st' = to_main st ++ [set_fragment false b] /\
   to_process_frag st' = to_process_frag st /\
   to_deflate st' = to_deflate st) /\
  (error b = 0 -> file_size b = 0 ->
   to_main st' = to_main st ++ [b] /\
   to_process_frag st' = to_process_frag st /\
   to_deflate st' = to_deflate st) /\
  (error b = 0 -> file_size b <> 0 -> fragment b = true ->
   to_main st' = to_main st /\
   to_process_frag st' = to_process_frag st ++ [b] /\
   to_deflate st' = to_deflate st) /\
  (error b = 0 -> file_size b <> 0 -> fragment b = false ->
   to_main st' = to_main st /\
   to_process_frag st' = to_process_frag st /\
   to_deflate st' = to_deflate st ++ [b]) /\
  (length (to_main st') + length (to_process_frag st') +
   length (to_deflate st') =
   S (length (to_main st) + length (to_process_frag st) +
      length (to_deflate st)))%nat /\
  (exists q, forwarded st' = forwarded st ++ [routed b] /\
             trace st' = trace st ++ [Put q (routed b)] /\
             queue q st' = queue q st ++ [routed b] /\
             forall q', q' <> q -> queue q' st' = queue q' st) /\
  seq st' = seq st /\ inodes st' = inodes st /\ env st' = env st.
Proof.
  rewrite put_file_buffer_queue_put. unfold route, routed, forwarded.
  destruct (Z.eqb_spec (error b) 0) as [He | He]; simpl;
    [destruct (Z.eqb_spec (file_size b) 0) as [Hz | Hz]; simpl;
       [| destruct (fragment b) eqn:Hf; simpl] |];
    rewrite ?puts_app, ?length_app; simpl.
  - repeat split; try tauto; try congruence; try lia.
    exists To_main; repeat split. intros [] Hq; simpl; congruence.
  - repeat split; try tauto; try congruence; try lia.
    exists To_process_frag; repeat split. intros [] Hq; simpl; congruence.
  - repeat split; try tauto; try congruence; try lia.
    exists To_deflate; repeat split. intros [] Hq; simpl; congruence.
  - repeat split; try tauto; try congruence; try lia.
    exists To_main; repeat split. intros [] Hq; simpl; congruence.
Qed.

(** ** The tree walker *)

(** C9: an entry that is not a pseudo process file and whose mode is
    neither a regular file nor a directory is passed over: the state after
    it is the state before it, and the walk goes on with the next entry. *)
Theorem reader_scan_skips_other_modes (fuel : nat) (entry : dir_ent)
    (next : list dir_ent) (st : state) :
  IS_PSEUDO_PROCESS (inodes st (inode entry)) = false ->
  Z.land (st_mode (buf (inodes st (inode entry)))) S_IFMT <> S_IFREG ->
  Z.land (st_mode (buf (inodes st (inode entry)))) S_IFMT <> S_IFDIR ->
  scan_entry fuel entry st = Done st /\
  reader_scan fuel (entry :: next) st = reader_scan fuel next st.
Proof.
  intros Hp Hreg Hdir.
  assert (H : scan_entry fuel entry st = Done st).
  { destruct entry as [i children]; simpl in *.
    destruct (root_entry (inodes st i)); [reflexivity |].
    rewrite Hp.
    destruct (Z.eqb_spec (Z.land (st_mode (buf (inodes st i))) S_IFMT) S_IFREG);
      [contradiction |].
    destruct (Z.eqb_spec (Z.land (st_mode (buf (inodes st i))) S_IFMT) S_IFDIR);
      [contradiction | reflexivity]. }
  split; [exact H |]. simpl. rewrite H. reflexivity.
Qed.

(** ** The block reader: verification after the loop, and restat *)

Lemma put_file_buffer_forwarded (b : file_buffer) (st : state) :
  forwarded (put_file_buffer b st) = forwarded st ++ [routed b].
Proof.
  rewrite put_file_buffer_queue_put. unfold forwarded.
  destruct (route b); simpl; rewrite puts_app; reflexivity.
Qed.

Lemma routed_error (b : file_buffer) : error (routed b) = error b.
Proof. unfold routed. destruct (negb (error b =? 0)); reflexivity. Qed.

Lemma last_snoc {A} (l : list A) (a d : A) : last (l ++ [a]) d = a.
Proof. apply last_last. Qed.

(** The buffer a [restat] forwards is marked with an error. *)
Lemma restat_forwards_error (i : nat) (read_size : Z) (b d : file_buffer)
    (st : state) :
  error (last (forwarded (result_state (restat i read_size b st))) d) <> 0.
Proof.
  unfold restat, read_err, read_err2. simpl.
  destruct (shead (fstats (env st))) as [res buf2]; simpl.
  destruct (res =? -1); simpl;
    [| destruct (read_size =? st_size buf2); simpl];
    rewrite put_file_buffer_forwarded, last_snoc, routed_error; simpl;
    unfold TRUE; lia.
Qed.

(** The code between the loop and [restat], case by case, for any byte
    count handed to it. *)
Lemma after_loop_probe (i : nat) (read_size bytes : Z) (b : file_buffer)
    (st : state) :
  (read_size <> bytes ->
   after_loop i read_size bytes b st = restat i read_size b st) /\
  (read_size = bytes -> read_size <> 0 -> Z.rem read_size block_size = 0 ->
   let res := fst (read_bytes 1 st) in
   let st1 := snd (read_bytes 1 st) in
   trace st1 = trace st ++ [Read 1 res] /\
   (res = 0 ->
    after_loop i read_size bytes b st =
    Finished (put_file_buffer
                (set_fragment (is_fragment (inodes st i)) b) st1)) /\
   (res = -1 ->
    after_loop i read_size bytes b st = Finished (read_err b st1)) /\
   (res <> 0 -> res <> -1 ->
    after_loop i read_size bytes b st = restat i read_size b st1) /\
   (res <> 0 ->
    forall d, error (last (forwarded (result_state
                (after_loop i read_size bytes b st))) d) <> 0)) /\
  (read_size = bytes -> read_size = 0 \/ Z.rem read_size block_size <> 0 ->
   after_loop i read_size bytes b st =
   Finished (put_file_buffer (set_fragment (is_fragment (inodes st i)) b) st)).
Proof.
  unfold after_loop. split; [| split].
  - intros H. destruct (Z.eqb_spec read_size bytes); [contradiction |].
    reflexivity.
  - intros H Hnz Hrem.
    destruct (Z.eqb_spec read_size bytes); [| contradiction].
    destruct (Z.eqb_spec read_size 0); [contradiction |].
    rewrite Hrem. simpl.
    split; [reflexivity |].
    split; [intros ->; reflexivity |].
    split; [intros ->; reflexivity |].
    split.
    + intros H0 H1.
      destruct (Z.eqb_spec (shead (reads (env st))) (-1)); [contradiction |].
      destruct (Z.eqb_spec (shead (reads (env st))) 0); [contradiction |].
      reflexivity.
    + intros H0 d.
      destruct (Z.eqb_spec (shead (reads (env st))) (-1)).
      * unfold read_err, read_err2. simpl.
        rewrite put_file_buffer_forwarded, last_snoc, routed_error.
        simpl. unfold TRUE. lia.
      * destruct (Z.eqb_spec (shead (reads (env st))) 0); [contradiction |].
        apply restat_forwards_error.
  - intros H Hcase.
    destruct (Z.eqb_spec read_size bytes); [| contradiction].
    destruct Hcase as [-> | Hrem]; [reflexivity |].
    destruct (Z.eqb_spec (Z.rem read_size block_size) 0); [contradiction |].
    rewrite andb_false_r. reflexivity.
Qed.

Lemma restat_again (i : nat) (read_size : Z) (b : file_buffer)
    (st st' : state) :
  restat i read_size b st = Again st' ->
  st_size (buf (inodes st' i)) <> read_size.
Proof.
  unfold restat. simpl.
  destruct (shead (fstats (env st))) as [res buf2]; simpl.
  destruct (res =? -1); [discriminate |].
  destruct (Z.eqb_spec read_size (st_size buf2)) as [He | He]; simpl;
    [discriminate |].
  intros H. injection H as <-.
  rewrite put_file_buffer_queue_put.
  destruct (route (set_error 2 b)); simpl; rewrite Nat.eqb_refl; simpl;
    congruence.
Qed.

Lemma after_loop_again (i : nat) (read_size bytes : Z) (b : file_buffer)
    (st st' : state) :
  after_loop i read_size bytes b st = Again st' ->
  st_size (buf (inodes st' i)) <> read_size.
Proof.
  unfold after_loop.
  destruct (negb (read_size =? bytes)); [apply restat_again |].
  destruct (negb (read_size =? 0) && (Z.rem read_size block_size =? 0));
    [| discriminate].
  simpl. destruct (shead (reads (env st)) =? -1); [discriminate |].
  destruct (negb (shead (reads (env st)) =? 0)); [| discriminate].
  apply restat_again.
Qed.

Lemma read_blocks_again (n : nat) (i : nat) (read_size : Z) :
  forall (blocks bytes : Z) (st st' : state),
  read_blocks n i read_size blocks bytes st = Again st' ->
  st_size (buf (inodes st' i)) <> read_size.
Proof.
  induction n as [| n IH]; intros blocks bytes st st'; simpl.
  - destruct (shead (reads (env st)) =? -1); [discriminate |].
    destruct (blocks >? 1).
    + destruct (shead (reads (env st)) <? block_size); [apply restat_again |].
      destruct (blocks - 1 >? 0); [discriminate | apply after_loop_again].
    + destruct (blocks - 1 >? 0); [discriminate | apply after_loop_again].
  - destruct (shead (reads (env st)) =? -1); [discriminate |].
    destruct (blocks >? 1).
    + destruct (shead (reads (env st)) <? block_size); [apply restat_again |].
      destruct (blocks - 1 >? 0); [apply IH | apply after_loop_again].
    + destruct (blocks - 1 >? 0); [apply IH | apply after_loop_again].
Qed.

Lemma attempt_again (i : nat) (st st' : state) :
  attempt i st = Again st' ->
  st_size (buf (inodes st' i)) <> st_size (buf (inodes st i)).
Proof.
  unfold attempt. simpl.
  destruct (shead (opens (env st)) =? -1); [discriminate |].
  apply read_blocks_again.
Qed.

(** C7: at [restat], a fresh stat that reports the size just tried ends the
    file with a hard failure: the buffer goes to the main queue with
    [error = TRUE] and there is no retry.  A fresh size that differs stores
    the fresh stat in the inode, forwards the current buffer with
    [error = 2] and asks for the retry; nothing else does, so every retry
    starts a new attempt (open, byte count 0) on a stated size different
    from the one just tried. *)
Theorem restat_retries_only_on_new_size (i : nat) (read_size : Z)
    (b : file_buffer) (st : state) :
  let res := fst (fst (fstat st)) in
  let buf2 := snd (fst (fstat st)) in
  let st1 := snd (fstat st) in
  (res <> -1 -> st_size buf2 = read_size ->
   restat i read_size b st = Finished (read_err b st1) /\
   to_main (read_err b st1) =
     to_main st ++ [set_fragment false (set_error TRUE b)] /\
   forwarded (read_err b st1) =
     forwarded st ++ [set_fragment false (set_error TRUE b)] /\
   inodes (read_err b st1) = inodes st) /\
  (res <> -1 -> st_size buf2 <> read_size ->
   let st2 := put_file_buffer (set_error 2 b)
                (update_inode i (set_buf buf2) st1) in
   restat i read_size b st = Again st2 /\
   buf (inodes st2 i) = buf2 /\
   to_main st2 = to_main st ++ [set_fragment false (set_error 2 b)] /\
   forwarded st2 = forwarded st ++ [set_fragment false (set_error 2 b)]) /\
  (forall st', restat i read_size b st = Again st' ->
   res <> -1 /\ st_size buf2 <> read_size) /\
  (forall fuel st0 st', attempt i st0 = Again st' ->
   st_size (buf (inodes st' i)) <> st_size (buf (inodes st0 i)) /\
   again (S fuel) i st0 = again fuel i st').
Proof.
  unfold restat, read_err, read_err2, forwarded. simpl.
  destruct (shead (fstats (env st))) as [res buf2]; simpl.
  split; [| split; [| split]].
  - intros Hres Hsize.
    destruct (Z.eqb_spec res (-1)); [contradiction |].
    destruct (Z.eqb_spec read_size (st_size buf2)); [| congruence].
    simpl. rewrite puts_app. repeat split.
  - intros Hres Hsize.
    destruct (Z.eqb_spec res (-1)); [contradiction |].
    destruct (Z.eqb_spec read_size (st_size buf2)); [congruence |].
    simpl. rewrite puts_app, Nat.eqb_refl. repeat split.
  - intros st'.
    destruct (Z.eqb_spec res (-1)); [discriminate |].
    destruct (Z.eqb_spec read_size (st_size buf2)); [discriminate |].
    intros _. split; congruence.
  - intros fuel st0 st' H. split; [apply attempt_again; exact H |].
    simpl. rewrite H. reflexivity.
Qed.

(** ** The process reader on an empty stream *)

Lemma wait_ok_test (w : wait_status) :
  wait_ok w ->
  (w_res w =? -1) || negb (WIFEXITED w) || negb (WEXITSTATUS w =? 0) = false.
Proof.
  intros (H1 & H2 & H3). rewrite H2, H3.
  destruct (Z.eqb_spec (w_res w) (-1)); [contradiction | reflexivity].
Qed.

Lemma wait_bad_test (w : wait_status) :
  ~ wait_ok w ->
  (w_res w =? -1) || negb (WIFEXITED w) || negb (WEXITSTATUS w =? 0) = true.
Proof.
  unfold wait_ok. intros H.
  destruct (Z.eqb_spec (w_res w) (-1)); [reflexivity |].
  destruct (WIFEXITED w); [| reflexivity].
  destruct (Z.eqb_spec (WEXITSTATUS w) 0); [| reflexivity].
  exfalso. apply H. repeat split; assumption.
Qed.

Lemma is_fragment_empty (inode : inode_info) :
  st_size (buf inode) = 0 -> is_fragment inode = false.
Proof.
  intros H. unfold is_fragment. rewrite H. simpl.
  destruct (negb (i_noF inode =? noF)); [reflexivity |].
  rewrite andb_false_r. reflexivity.
Qed.

(** C10: a generator that starts, delivers end of stream at once and exits
    with status 0 makes the process reader return after forwarding exactly
    one buffer, with [size = 0], [file_size = 0], no error and the fragment
    flag off, on the main queue; the inode's size becomes 0. *)
Theorem reader_read_process_empty (fuel : nat) (d : dir_ent) (st : state) :
  shead (execs (env st)) <> 0 ->
  shead (reads (env st)) = 0 ->
  wait_ok (shead (waits (env st))) ->
  exists b st',
    reader_read_process (S fuel) d st = Done st' /\
    forwarded st' = forwarded st ++ [b] /\
    to_main st' = to_main st ++ [b] /\
    to_process_frag st' = to_process_frag st /\
    to_deflate st' = to_deflate st /\
    sequence b = seq st /\ size b = 0 /\ file_size b = 0 /\
    error b = 0 /\ fragment b = false /\
    st_size (buf (inodes st' (inode d))) = 0 /\
    seq st' = seq st + 1.
Proof.
  intros Hexec Hread Hwait.
  unfold reader_read_process. simpl.
  destruct (Z.eqb_spec (shead (execs (env st))) 0); [contradiction |].
  rewrite Hread. simpl.
  unfold process_finish. simpl.
  rewrite (wait_ok_test _ Hwait). simpl.
  rewrite Nat.eqb_refl.
  rewrite is_fragment_empty by reflexivity.
  unfold put_file_buffer, forwarded. simpl.
  eexists. eexists. split; [reflexivity |]. simpl.
  rewrite !puts_app, Nat.eqb_refl. simpl. rewrite !app_nil_r.
  repeat split.
Qed.

(** ** The walker on a directory, and the bound of the block loop *)

(** The directory case of the walker is [reader_scan] on the entries of
    the directory. *)
Lemma scan_entry_directory (fuel : nat) (i : nat) (children : list dir_ent)
    (st : state) :
  root_entry (inodes st i) = false ->
  IS_PSEUDO_PROCESS (inodes st i) = false ->
  Z.land (st_mode (buf (inodes st i))) S_IFMT = S_IFDIR ->
  scan_entry fuel (DirEnt i children) st = reader_scan fuel children st.
Proof.
  intros Hroot Hp Hdir. simpl. rewrite Hroot, Hp, Hdir. simpl.
  revert st Hroot Hp Hdir. induction children as [| e l IH]; intros st _ _ _.
  - reflexivity.
  - simpl. destruct (scan_entry fuel e st); simpl; [| reflexivity].
    clear IH. revert st0. induction l as [| e' l' IH']; intros st0.
    + reflexivity.
    + simpl. destruct (scan_entry fuel e' st0); simpl;
        [apply IH' | reflexivity].
Qed.

(** The bound handed to the block loop is never exhausted. *)
Lemma restat_not_fuel (i : nat) (read_size : Z) (b : file_buffer)
    (st st' : state) :
  restat i read_size b st <> Fuel st'.
Proof.
  unfold restat. simpl. destruct (shead (fstats (env st))) as [res buf2].
  destruct (res =? -1); [discriminate |].
  destruct (negb _); discriminate.
Qed.

Lemma after_loop_not_fuel (i : nat) (read_size bytes : Z) (b : file_buffer)
    (st st' : state) :
  after_loop i read_size bytes b st <> Fuel st'.
Proof.
  unfold after_loop.
  destruct (negb (read_size =? bytes)); [apply restat_not_fuel |].
  destruct (_ && _); [| discriminate]. simpl.
  destruct (_ =? -1); [discriminate |].
  destruct (negb _); [apply restat_not_fuel | discriminate].
Qed.

Lemma read_blocks_not_fuel (n : nat) (i : nat) (read_size : Z) :
  forall (blocks bytes : Z) (st st' : state),
  (Z.to_nat (blocks - 1) <= n)%nat ->
  read_blocks n i read_size blocks bytes st <> Fuel st'.
Proof.
  induction n as [| n IH]; intros blocks bytes st st' Hn; simpl;
    (destruct (_ =? -1); [discriminate |]);
    (destruct (Z.gtb_spec blocks 1);
     [destruct (_ <? _); [apply restat_not_fuel |] |]);
    (destruct (Z.gtb_spec (blocks - 1) 0);
     [| apply after_loop_not_fuel]);
    try lia; apply IH; lia.
Qed.

Lemma attempt_not_fuel (i : nat) (st st' : state) : attempt i st <> Fuel st'.
Proof.
  unfold attempt. simpl. destruct (_ =? -1); [discriminate |].
  apply read_blocks_not_fuel. lia.
Qed.

(** ** The sequence discipline *)



Lemma seq_put_file_buffer (b : file_buffer) (st : state) :
  seq (put_file_buffer b st) = seq st.
Proof. rewrite put_file_buffer_queue_put. destruct (route b); reflexivity. Qed.

Lemma trace_put_file_buffer (b : file_buffer) (st : state) :
  trace (put_file_buffer b st) = trace st ++ [Put (route b) (routed b)].
Proof. rewrite put_file_buffer_queue_put. destruct (route b); reflexivity. Qed.

Lemma inodes_put_file_buffer (b : file_buffer) (st : state) :
  inodes (put_file_buffer b st) = inodes st.
Proof. rewrite put_file_buffer_queue_put. destruct (route b); reflexivity. Qed.

Lemma env_put_file_buffer (b : file_buffer) (st : state) :
  env (put_file_buffer b st) = env st.
Proof. rewrite put_file_buffer_queue_put. destruct (route b); reflexivity. Qed.


Arguments put_file_buffer : simpl never.

Lemma puts_to_app (q : queue_id) (t1 t2 : list event) :
  puts_to q (t1 ++ t2) = puts_to q t1 ++ puts_to q t2.
Proof.
  induction t1 as [| e t1 IH]; simpl; [reflexivity |].
  destruct e; simpl; rewrite ?IH; try reflexivity.
  destruct (queue_id_eqb _ _); simpl; rewrite ?IH; reflexivity.
Qed.

Lemma queue_put_file_buffer (q : queue_id) (b : file_buffer) (st : state) :
  queue q (put_file_buffer b st) =
  queue q st ++ (if queue_id_eqb (route b) q then [routed b] else []).
Proof.
  rewrite put_file_buffer_queue_put.
  destruct (route b), q; simpl; rewrite ?app_nil_r; reflexivity.
Qed.

Lemma queue_log (q : queue_id) (e : event) (st : state) :
  queue q (log e st) = queue q st.
Proof. destruct q; reflexivity. Qed.

Lemma queue_set_env (q : queue_id) (w : world) (st : state) :
  queue q (set_env w st) = queue q st.
Proof. destruct q; reflexivity. Qed.

Lemma queue_set_seq (q : queue_id) (n : Z) (st : state) :
  queue q (set_seq n st) = queue q st.
Proof. destruct q; reflexivity. Qed.

Lemma queue_update_inode (q : queue_id) (i : nat)
    (f : inode_info -> inode_info) (st : state) :
  queue q (update_inode i f st) = queue q st.
Proof. destruct q; reflexivity. Qed.

Arguments queue : simpl never.




Arguments read_err_process : simpl never.
Arguments process_finish : simpl never.






Arguments restat : simpl never.
Arguments after_loop : simpl never.
Arguments read_err : simpl never.
Arguments read_err2 : simpl never.












(** What a trace in order says about the buffers put. *)






(** ** The block reader on a file that does not change *)

Lemma forwarded_put_file_buffer_ok (b : file_buffer) (st : state) :
  error b = 0 -> forwarded (put_file_buffer b st) = forwarded st ++ [b].
Proof.
  intros H. rewrite put_file_buffer_forwarded. unfold routed. rewrite H.
  reflexivity.
Qed.

Lemma read_blocks_static (i : nat) (S : Z) (N : nat) (m : nat) :
  forall (blocks bytes : Z) (k0 : nat) (st : state),
  0 <= block_log ->
  (S = 0 /\ N = 1%nat) \/
    (0 < S /\ (Z.of_nat N - 1) * block_size < S <= Z.of_nat N * block_size) ->
  m = Z.to_nat (blocks - 1) ->
  Z.of_nat N = Z.of_nat k0 + Z.max 1 blocks ->
  bytes = Z.of_nat k0 * block_size ->
  static_reads S k0 st ->
  exists st',
    read_blocks m i S blocks bytes st = Finished st' /\
    forwarded st' =
      forwarded st ++
      map (block_buffer (i_noD (inodes st i)) S (seq st - Z.of_nat k0)
             (is_fragment (inodes st i)) N)
          (List.seq k0 (Datatypes.S m)) /\
    seq st' = seq st + Z.of_nat (Datatypes.S m) /\
    inodes st' = inodes st.
Proof.
  induction m as [| m IH]; intros blocks bytes k0 st Hlog HN Hm Hk0 Hbytes Hr.
  - pose proof (block_size_pos Hlog) as HB.
    assert (Hb : blocks <= 1) by lia.
    assert (HN1 : Z.of_nat N = Z.of_nat k0 + 1) by lia.
    assert (Hr0 : shead (reads (env st)) = S - Z.of_nat k0 * block_size /\
                  0 <= S - Z.of_nat k0 * block_size <= block_size).
    { unfold shead. rewrite (Hr 0%nat); rewrite Nat.add_0_r; nia. }
    destruct Hr0 as [Hr0 Hrange].
    simpl. rewrite Hr0.
    destruct (Z.eqb_spec (S - Z.of_nat k0 * block_size) (-1)); [lia |].
    destruct (Z.gtb_spec blocks 1); [lia |].
    destruct (Z.gtb_spec (blocks - 1) 0); [lia |].
    unfold after_loop.
    destruct (Z.eqb_spec S (bytes + (S - Z.of_nat k0 * block_size))); [| lia].
    simpl.
    assert (HNk : N = Datatypes.S k0) by lia.
    assert (Hprobe : negb (S =? 0) && (Z.rem S block_size =? 0) = true ->
                     shead (stail (reads (env st))) = 0).
    { intros Hc. apply andb_true_iff in Hc as [Hnz Hrem].
      apply negb_true_iff, Z.eqb_neq in Hnz. apply Z.eqb_eq in Hrem.
      pose proof (Z.quot_rem' S block_size) as Hq. rewrite Hrem in Hq.
      assert (Hq1 : Z.quot S block_size = Z.of_nat k0 + 1) by nia.
      assert (HS : S = Z.of_nat (k0 + 1) * block_size)
        by (rewrite Nat2Z.inj_add; simpl Z.of_nat; nia).
      unfold shead, stail. rewrite (Hr 1%nat); rewrite <- HS; lia. }
    assert (Hbuf :
      set_fragment (is_fragment (inodes st i))
        (set_size (S - Z.of_nat k0 * block_size)
           (set_error FALSE
              (set_noD (i_noD (inodes st i))
                 (set_sequence (seq st)
                    (set_file_size S (shead (cache_bufs (env st))))))))
      = block_buffer (i_noD (inodes st i)) S (seq st - Z.of_nat k0)
          (is_fragment (inodes st i)) N k0).
    { unfold block_buffer. rewrite HNk, Nat.eqb_refl.
      rewrite Z.min_r by lia.
      unfold set_fragment, set_size, set_error, set_noD, set_sequence,
        set_file_size; simpl. f_equal. lia. }
    destruct (negb (S =? 0) && (Z.rem S block_size =? 0)) eqn:Hc;
      [rewrite (Hprobe eq_refl); simpl |];
      (eexists; split; [reflexivity |]);
      rewrite forwarded_put_file_buffer_ok by reflexivity;
      rewrite seq_put_file_buffer, inodes_put_file_buffer, Hbuf;
      unfold forwarded; simpl; rewrite ?puts_app; simpl;
      rewrite ?app_nil_r; repeat split; lia.
  - pose proof (block_size_pos Hlog) as HB.
    assert (Hb : 2 <= blocks) by lia.
    assert (HNk : Z.of_nat N = Z.of_nat k0 + blocks) by lia.
    assert (HS : (Z.of_nat k0 + 1) * block_size < S) by nia.
    assert (Hr0 : shead (reads (env st)) = block_size).
    { unfold shead. rewrite (Hr 0%nat); rewrite Nat.add_0_r; nia. }
    cbn [read_blocks]. simpl. rewrite Hr0.
    destruct (Z.eqb_spec block_size (-1)); [lia |].
    destruct (Z.gtb_spec blocks 1); [| lia].
    rewrite Z.ltb_irrefl.
    destruct (Z.gtb_spec (blocks - 1) 0); [| lia].
    match goal with
    | |- exists st', read_blocks _ _ _ _ _ ?st1 = _ /\ _ =>
        destruct (IH (blocks - 1) (bytes + block_size) (Datatypes.S k0) st1)
          as (st' & Hrun & Hfwd & Hseq & Hino)
    end.
    + exact Hlog.
    + exact HN.
    + lia.
    + lia.
    + lia.
    + intros j Hj. rewrite env_put_file_buffer. simpl.
      unfold stail. rewrite (Hr (Datatypes.S j));
        rewrite <- plus_n_Sm; [reflexivity | exact Hj].
    + exists st'. split; [exact Hrun |].
      rewrite Hfwd, Hseq, Hino.
      rewrite forwarded_put_file_buffer_ok by reflexivity.
      rewrite seq_put_file_buffer, inodes_put_file_buffer.
      unfold forwarded; simpl; rewrite ?puts_app; simpl; rewrite ?app_nil_r.
      replace (seq st + 1 - Z.pos (Pos.of_succ_nat k0))
        with (seq st - Z.of_nat k0) by lia.
      rewrite <- app_assoc. simpl.
      repeat split; try lia.
      f_equal. f_equal.
      unfold block_buffer.
      destruct (Nat.eqb_spec (Datatypes.S k0) N); [lia |].
      rewrite Z.min_l by lia.
      unfold set_fragment, set_size, set_error, set_noD, set_sequence,
        set_file_size; simpl. f_equal. lia.
Qed.

Lemma to_int_small (z : Z) : - 2 ^ 31 <= z <= INT_MAX -> to_int z = z.
Proof.
  unfold to_int, INT_MAX. intros H. rewrite Z.mod_small; lia.
Qed.

Lemma ceil_bounds (S : Z) :
  0 <= block_log -> 0 <= S ->
  let n := (S + block_size - 1) / block_size in
  0 <= n /\ (S = 0 -> n = 0) /\
  (0 < S -> (n - 1) * block_size < S <= n * block_size).
Proof.
  intros Hlog HS n. pose proof (block_size_pos Hlog) as HB.
  pose proof (Z.div_mod (S + block_size - 1) block_size ltac:(lia)) as Hd.
  pose proof (Z.mod_pos_bound (S + block_size - 1) block_size HB) as Hm.
  fold n in Hd. repeat split; intros; nia.
Qed.

Lemma reader_read_file_static (fuel : nat) (d : dir_ent) (st : state) :
  let ino := inodes st (inode d) in
  let S := st_size (buf ino) in
  0 <= block_log ->
  read ino = false ->
  0 <= S ->
  (S + block_size - 1) / block_size <= INT_MAX ->
  shead (opens (env st)) <> -1 ->
  static_reads S 0 st ->
  exists st',
    reader_read_file (Datatypes.S fuel) d st = Done st' /\
    forwarded st' = forwarded st ++ file_buffers ino (seq st) /\
    seq st' = seq st + block_count S /\
    read (inodes st' (inode d)) = true /\
    buf (inodes st' (inode d)) = buf ino.
Proof.
  intros ino S Hlog Hread HS Hmax Hopen Hr.
  destruct (ceil_bounds S Hlog HS) as (Hn0 & Hz & Hpos).
  pose proof (block_size_pos Hlog) as HB.
  unfold reader_read_file. fold ino. rewrite Hread.
  cbn [again]. unfold attempt. simpl.
  rewrite Nat.eqb_refl. cbn [buf set_read]. fold S.
  destruct (Z.eqb_spec (shead (opens (env st))) (-1)); [contradiction |].
  rewrite Z.shiftr_div_pow2 by assumption.
  rewrite <- block_size_pow2 by assumption.
  change (inodes st (inode d)) with ino.
  change (st_size (buf ino)) with S.
  rewrite to_int_small by (unfold INT_MAX in *; lia).
  set (nb := (S + block_size - 1) / block_size) in *.
  match goal with
  | |- exists st', match read_blocks ?m _ _ _ _ ?st1 with _ => _ end = _ /\ _ =>
      destruct (read_blocks_static (inode d) S (Z.to_nat (Z.max 1 nb)) m
                  nb 0 0%nat st1) as (st' & Hrun & Hfwd & Hseq & Hino)
  end.
  - exact Hlog.
  - destruct (Z.eq_dec S 0) as [H0 | H0].
    + left. split; [exact H0 |]. rewrite (Hz H0). reflexivity.
    + right. split; [lia |]. rewrite Z2Nat.id by lia.
      specialize (Hpos ltac:(lia)).
      assert (1 <= nb) by nia. rewrite Z.max_r by lia. exact Hpos.
  - reflexivity.
  - rewrite Z2Nat.id by lia. reflexivity.
  - reflexivity.
  - exact Hr.
  - assert (Hlen : Datatypes.S (Z.to_nat (nb - 1)) = Z.to_nat (Z.max 1 nb)).
    { destruct (Z.eq_dec S 0) as [H0 | H0].
      - rewrite (Hz H0). reflexivity.
      - specialize (Hpos ltac:(lia)). assert (1 <= nb) by nia.
        rewrite Z.max_r by lia. lia. }
    rewrite Hlen in Hfwd, Hseq.
    exists st'. rewrite Hrun. split; [reflexivity |].
    rewrite Hfwd, Hseq, Hino.
    unfold file_buffers, block_count, forwarded.
    cbn [trace seq inodes set_env update_inode].
    rewrite Nat.eqb_refl, Z.sub_0_r. fold ino S nb.
    rewrite Z2Nat.id by lia.
    repeat split.
Qed.

(** ** The process reader on a stream of [k] chunks *)

Lemma put_file_buffer_nonterminal (b : file_buffer) (st : state) :
  nonterminal b -> put_file_buffer b st = queue_put To_deflate b st.
Proof.
  intros (He & Hs & Hf). rewrite put_file_buffer_queue_put.
  unfold route, routed. rewrite He, Hs, Hf. reflexivity.
Qed.

Lemma process_loop_chunks (i : nat) (k : nat) :
  forall (fuel : nat) (prev : option file_buffer) (bytes : Z) (st : state),
  stream_ends_after k st ->
  Forall nonterminal (olist prev) ->
  (k < fuel)%nat ->
  exists pre prev' b st1,
    process_loop fuel i prev bytes st =
      Done (process_finish i prev' b
              (bytes + stream_sum (reads (env st)) k) st1) /\
    forwarded st1 = forwarded st ++ pre /\
    Forall nonterminal (pre ++ olist prev') /\
    length (pre ++ olist prev') = (length (olist prev) + k)%nat /\
    (prev' = None -> prev = None /\ k = 0%nat) /\
    size b = 0 /\ error b = 0 /\ fragment b = false /\
    to_main st1 = to_main st /\
    inodes st1 = inodes st /\
    waits (env st1) = waits (env st) /\
    seq st1 = seq st + Z.of_nat k + 1.
Proof.
  induction k as [| k IH]; intros fuel prev bytes st [Hdata Hend] Hprev Hfuel.
  - destruct fuel as [| fuel]; [lia |].
    simpl. unfold shead. rewrite Hend. simpl.
    exists [], prev. eexists. eexists. split; [reflexivity |].
    unfold forwarded. simpl. rewrite !puts_app. simpl.
    rewrite ?app_nil_r, ?Nat.add_0_r, ?Z.add_0_r.
    repeat split; try assumption; try reflexivity; try lia.
  - destruct fuel as [| fuel]; [lia |].
    destruct (Hdata 0%nat ltac:(lia)) as [Hnz Hne].
    simpl. unfold shead.
    destruct (Z.eqb_spec (reads (env st) 0%nat) (-1)); [contradiction |].
    destruct (Z.eqb_spec (reads (env st) 0%nat) 0); [contradiction |].
    match goal with
    | |- exists pre prev' b st1,
           process_loop _ _ (Some ?fb) ?by1 ?st2 = _ /\ _ =>
        destruct (IH fuel (Some fb) by1 st2)
          as (pre & prev' & b & st1 & Hrun & Hfwd & Hall & Hlen & Hnone &
              Hsz & Herr & Hfrag & Hmain & Hino & Hwaits & Hseq)
    end.
    + unfold stream_ends_after.
      destruct prev as [p |]; rewrite ?env_put_file_buffer; simpl;
        unfold stail;
        (split; [intros j Hj; apply (Hdata (Datatypes.S j)); lia | exact Hend]).
    + constructor; [| constructor]. repeat split.
    + lia.
    + exists (olist prev ++ pre), prev', b, st1.
      split; [rewrite Hrun; do 2 f_equal |].
      * destruct prev; rewrite ?env_put_file_buffer; simpl; unfold shead; lia.
      * assert (Hst2 :
          forall st0 : state,
            let st2 := match prev with
                       | Some p => put_file_buffer p st0
                       | None => st0
                       end in
            forwarded st2 = forwarded st0 ++ olist prev /\
            to_main st2 = to_main st0 /\ inodes st2 = inodes st0 /\
            env st2 = env st0 /\ seq st2 = seq st0).
        { intros st0. destruct prev as [p |]; simpl.
          - inversion Hprev as [| ? ? Hp _]; subst.
            rewrite (put_file_buffer_nonterminal _ _ Hp).
            unfold forwarded. simpl. rewrite puts_app. repeat split.
          - rewrite app_nil_r. repeat split. }
        match type of Hfwd with
        | context [match prev with Some _ => _ | None => ?st0 end] =>
            destruct (Hst2 st0) as (H1 & H2 & H3 & H4 & H5)
        end.
        rewrite Hfwd, Hmain, Hino, Hwaits, Hseq, H1, H2, H3, H4, H5.
        unfold forwarded. simpl. rewrite !puts_app. simpl.
        rewrite !app_nil_r, <- !app_assoc.
        repeat split; try assumption; try lia;
          try match goal with
              | Hn : prev' = None |- _ =>
                  destruct (Hnone Hn) as [Hx _]; discriminate
              end.
        -- apply Forall_app. split; assumption.
        -- rewrite length_app, Hlen. simpl. lia.
Qed.

Lemma reader_read_process_chunks (fuel k : nat) (d : dir_ent) (st : state) :
  let i := inode d in
  let w := shead (waits (env st)) in
  let total := stream_sum (reads (env st)) k in
  shead (execs (env st)) <> 0 ->
  stream_ends_after k st ->
  (k < fuel)%nat ->
  exists st' pre last,
    reader_read_process fuel d st = Done st' /\
    forwarded st' = forwarded st ++ pre ++ [last] /\
    Forall nonterminal pre /\
    length pre = Nat.pred k /\
    st_size (buf (inodes st' i)) = total /\
    read (inodes st' i) = read (inodes st i) /\
    (wait_ok w ->
     error last = 0 /\ file_size last = total /\
     fragment last = is_fragment (inodes st' i)) /\
    (~ wait_ok w ->
     error last = TRUE /\ fragment last = false /\
     to_main st' = to_main st ++ [last]).
Proof.
  intros i w total Hexec Hends Hfuel.
  unfold reader_read_process. simpl. fold i.
  destruct (Z.eqb_spec (shead (execs (env st))) 0); [contradiction |].
  match goal with
  | |- exists st' pre last, process_loop _ _ _ _ ?st0 = _ /\ _ =>
      destruct (process_loop_chunks i k fuel None 0 st0 Hends
                  (Forall_nil _) Hfuel)
        as (pre & prev' & b & st1 & Hrun & Hfwd & Hall & Hlen & Hnone &
            Hsz & Herr & Hfrag & Hmain & Hino & Hwaits & Hseq)
  end.
  rewrite Hrun. simpl in Hrun, Hfwd, Hlen, Hmain, Hino, Hwaits, Hseq |- *.
  fold total.
  unfold process_finish. simpl. rewrite Hwaits. fold w.
  assert (Hcontra_ok : wait_ok w ->
            (w_res w =? -1) || negb (WIFEXITED w) || negb (WEXITSTATUS w =? 0)
            = true -> False).
  { intros Hok Ht. rewrite (wait_ok_test _ Hok) in Ht. discriminate. }
  assert (Hcontra_bad : ~ wait_ok w ->
            (w_res w =? -1) || negb (WIFEXITED w) || negb (WEXITSTATUS w =? 0)
            = false -> False).
  { intros Hbad Ht. rewrite (wait_bad_test _ Hbad) in Ht. discriminate. }
  destruct prev' as [p |].
  - apply Forall_app in Hall as [Hpre Hp].
    apply Forall_inv in Hp. destruct Hp as (Hpe & Hps & Hpf).
    rewrite length_app in Hlen. simpl in Hlen.
    destruct (_ || _) eqn:Htest.
    + eexists. exists pre. eexists. split; [reflexivity |].
      unfold read_err_process.
      rewrite put_file_buffer_forwarded.
      rewrite put_file_buffer_queue_put. simpl.
      unfold forwarded in *. simpl. rewrite puts_app, Hfwd, Hino. simpl.
      rewrite Nat.eqb_refl, app_nil_r, <- app_assoc, Hmain. simpl.
      repeat split; try assumption; try lia;
        exfalso; eauto.
    + eexists. exists pre. eexists. split; [reflexivity |].
      rewrite put_file_buffer_forwarded, inodes_put_file_buffer.
      unfold forwarded in *. simpl. rewrite puts_app, Hfwd, Hino. simpl.
      rewrite Nat.eqb_refl, app_nil_r, <- app_assoc. simpl.
      repeat split; try assumption; try lia;
        try (exfalso; eauto; fail).
      * rewrite routed_error. exact Hpe.
      * unfold routed. simpl. rewrite Hpe. reflexivity.
      * unfold routed. simpl. rewrite Hpe. reflexivity.
  - destruct (Hnone eq_refl) as [_ Hk].
    rewrite app_nil_r in Hlen, Hall. rewrite Hk in Hlen |- *.
    destruct pre; [| discriminate].
    destruct (_ || _) eqn:Htest.
    + eexists. exists []. eexists. split; [reflexivity |].
      unfold read_err_process.
      rewrite put_file_buffer_forwarded.
      rewrite put_file_buffer_queue_put. simpl.
      unfold forwarded in *. simpl. rewrite Hfwd, Hino. simpl.
      rewrite Nat.eqb_refl, app_nil_r, Hmain. simpl.
      repeat split; try assumption; try lia;
        exfalso; eauto.
    + eexists. exists []. eexists. split; [reflexivity |].
      rewrite put_file_buffer_forwarded, inodes_put_file_buffer.
      unfold forwarded in *. simpl. rewrite Hfwd, Hino. simpl.
      rewrite Nat.eqb_refl, app_nil_r. simpl.
      repeat split; try assumption; try lia;
        try (exfalso; eauto; fail).
      * rewrite routed_error. exact Herr.
      * unfold routed. simpl. rewrite Herr. reflexivity.
      * unfold routed. simpl. rewrite Herr. reflexivity.
Qed.

(** ** Buffers per file *)

Lemma length_file_buffers (ino : inode_info) (first : Z) :
  length (file_buffers ino first) = Z.to_nat (block_count (st_size (buf ino))).
Proof. unfold file_buffers. rewrite length_map, length_seq. reflexivity. Qed.

Lemma file_buffers_fields (ino : inode_info) (first : Z) :
  Forall (fun b => file_size b = st_size (buf ino) /\ error b = 0)
         (file_buffers ino first).
Proof.
  unfold file_buffers. apply Forall_forall. intros b Hb.
  apply in_map_iff in Hb as (k & <- & _). split; reflexivity.
Qed.

Lemma file_buffers_last (ino : inode_info) (first : Z) :
  exists pre last,
    file_buffers ino first = pre ++ [last] /\
    fragment last = is_fragment ino /\
    Forall (fun b => fragment b = false) pre.
Proof.
  unfold file_buffers.
  assert (HN : exists m, Z.to_nat (block_count (st_size (buf ino)))
                         = Datatypes.S m).
  { exists (Nat.pred (Z.to_nat (block_count (st_size (buf ino))))).
    unfold block_count. lia. }
  destruct HN as [m ->].
  rewrite seq_S, map_app. simpl.
  eexists. eexists. split; [reflexivity |]. split.
  - unfold block_buffer. simpl. rewrite Nat.eqb_refl. reflexivity.
  - apply Forall_forall. intros b Hb.
    apply in_map_iff in Hb as (k & <- & Hk). apply in_seq in Hk.
    unfold block_buffer. simpl.
    destruct (Nat.eqb_spec k m); [lia | reflexivity].
Qed.

(** X19: a regular file of stated size [S] whose block count
    [ceil(S / block_size)] fits the [int] block counter, opened and read
    without errors while nobody changes it, makes the block reader return
    after forwarding exactly [max(1, ceil(S / block_size))] buffers, none
    of them marked with an error; a file of size 0 gives exactly one. *)
Theorem reader_read_file_buffer_count (fuel : nat) (d : dir_ent) (st : state) :
  let ino := inodes st (inode d) in
  let S := st_size (buf ino) in
  let n := (S + block_size - 1) / block_size in
  0 <= block_log ->
  read ino = false ->
  0 <= S ->
  n <= INT_MAX ->
  shead (opens (env st)) <> -1 ->
  static_reads S 0 st ->
  exists st' bufs,
    reader_read_file (Datatypes.S fuel) d st = Done st' /\
    forwarded st' = forwarded st ++ bufs /\
    Z.of_nat (length bufs) = Z.max 1 n /\
    (0 < S -> (n - 1) * block_size < S <= n * block_size) /\
    (S = 0 -> length bufs = 1%nat) /\
    Forall (fun b => error b = 0) bufs.
Proof.
  intros ino S n Hlog Hread HS Hmax Hopen Hr.
  destruct (reader_read_file_static fuel d st Hlog Hread HS Hmax Hopen Hr)
    as (st' & Hrun & Hfwd & _).
  destruct (ceil_bounds S Hlog HS) as (Hn0 & Hz & Hpos).
  exists st', (file_buffers ino (seq st)).
  split; [exact Hrun |]. split; [exact Hfwd |].
  rewrite length_file_buffers. unfold block_count. fold S n.
  split; [lia |]. split; [exact Hpos |]. split.
  - intros H0. fold n in Hz. rewrite (Hz H0). reflexivity.
  - eapply Forall_impl; [| apply file_buffers_fields].
    intros b [_ H]. exact H.
Qed.

Lemma routed_file_size (b : file_buffer) : file_size (routed b) = file_size b.
Proof. unfold routed. destruct (negb (error b =? 0)); reflexivity. Qed.

(** Whatever the environment does, every buffer an attempt on an opened
    file forwards carries the size stated for that attempt. *)
Lemma restat_file_size (i : nat) (read_size : Z) (b : file_buffer)
    (st : state) :
  file_size b = read_size ->
  exists bufs,
    forwarded (result_state (restat i read_size b st)) = forwarded st ++ bufs /\
    Forall (fun b' => file_size b' = read_size) bufs.
Proof.
  intros Hb. unfold restat, read_err, read_err2. simpl.
  destruct (shead (fstats (env st))) as [res buf2].
  destruct (res =? -1); [| destruct (negb _)]; simpl;
    rewrite put_file_buffer_forwarded; eexists;
    (split; [reflexivity |]); repeat constructor; exact Hb.
Qed.

Lemma after_loop_file_size (i : nat) (read_size bytes : Z) (b : file_buffer)
    (st : state) :
  file_size b = read_size ->
  exists bufs,
    forwarded (result_state (after_loop i read_size bytes b st)) =
      forwarded st ++ bufs /\
    Forall (fun b' => file_size b' = read_size) bufs.
Proof.
  intros Hb. unfold after_loop.
  destruct (negb (read_size =? bytes)); [apply restat_file_size; exact Hb |].
  destruct (_ && _); simpl.
  - destruct (_ =? -1); [| destruct (negb _)].
    + unfold read_err, read_err2. simpl. rewrite put_file_buffer_forwarded.
      unfold forwarded. simpl. rewrite puts_app, app_nil_r.
      eexists. split; [reflexivity |]. repeat constructor.
      rewrite routed_file_size. exact Hb.
    + destruct (restat_file_size i read_size b
                  (snd (read_bytes 1 st)) Hb) as (bufs & Hf & Hall).
      exists bufs. split; [| exact Hall].
      simpl in Hf. rewrite Hf. unfold forwarded. simpl.
      rewrite puts_app, app_nil_r. reflexivity.
    + simpl. rewrite put_file_buffer_forwarded.
      unfold forwarded. simpl. rewrite puts_app, app_nil_r.
      eexists. split; [reflexivity |]. repeat constructor.
      rewrite routed_file_size. exact Hb.
  - rewrite put_file_buffer_forwarded.
    eexists. split; [reflexivity |]. repeat constructor.
    rewrite routed_file_size. exact Hb.
Qed.

Lemma read_blocks_file_size (n : nat) (i : nat) (read_size : Z) :
  forall (blocks bytes : Z) (st : state),
  exists bufs,
    forwarded (result_state (read_blocks n i read_size blocks bytes st)) =
      forwarded st ++ bufs /\
    Forall (fun b => file_size b = read_size) bufs.
Proof.
  induction n as [| n IH]; intros blocks bytes st; simpl;
    match goal with
    | |- context [read_err ?fb ?st1] =>
        set (b := fb); set (s1 := st1);
        assert (Hb : file_size b = read_size) by reflexivity;
        assert (Hb' : file_size (set_fragment false b) = read_size)
          by reflexivity;
        assert (Hs : forwarded s1 = forwarded st)
          by (subst s1; unfold forwarded; simpl; rewrite !puts_app; simpl;
              rewrite !app_nil_r; reflexivity)
    end;
    clearbody b s1;
    (destruct (_ =? -1);
     [ unfold read_err, read_err2; simpl;
       rewrite put_file_buffer_forwarded, Hs; eexists;
       split; [reflexivity |]; repeat constructor;
       rewrite routed_file_size; exact Hb |]);
    (destruct (blocks >? 1);
     [ destruct (_ <? _);
       [ destruct (restat_file_size i read_size b s1 Hb)
           as (bufs & Hf & Hall);
         exists bufs; rewrite Hf, Hs; auto |] |]);
    destruct (blocks - 1 >? 0).
  - simpl. rewrite put_file_buffer_forwarded, Hs. eexists.
    split; [reflexivity |]. repeat constructor.
    rewrite routed_file_size. exact Hb'.
  - destruct (after_loop_file_size i read_size
                (bytes + shead (reads (env st))) (set_fragment false b)
                (put_file_buffer (set_fragment false b) s1) Hb')
      as (bufs & Hf & Hall).
    exists (routed (set_fragment false b) :: bufs).
    rewrite Hf, put_file_buffer_forwarded, Hs, <- app_assoc.
    split; [reflexivity |]. constructor; [| exact Hall].
    rewrite routed_file_size. exact Hb'.
  - exists []. rewrite app_nil_r. split; [exact Hs | constructor].
  - destruct (after_loop_file_size i read_size
                (bytes + shead (reads (env st))) b s1 Hb)
      as (bufs & Hf & Hall).
    exists bufs. rewrite Hf, Hs. auto.
  - destruct (IH (blocks - 1) (bytes + shead (reads (env st)))
                (put_file_buffer (set_fragment false b) s1))
      as (bufs & Hf & Hall).
    exists (routed (set_fragment false b) :: bufs).
    rewrite Hf, put_file_buffer_forwarded, Hs, <- app_assoc.
    split; [reflexivity |]. constructor; [| exact Hall].
    rewrite routed_file_size. exact Hb'.
  - destruct (after_loop_file_size i read_size
                (bytes + shead (reads (env st))) (set_fragment false b)
                (put_file_buffer (set_fragment false b) s1) Hb')
      as (bufs & Hf & Hall).
    exists (routed (set_fragment false b) :: bufs).
    rewrite Hf, put_file_buffer_forwarded, Hs, <- app_assoc.
    split; [reflexivity |]. constructor; [| exact Hall].
    rewrite routed_file_size. exact Hb'.
  - destruct (IH (blocks - 1) (bytes + shead (reads (env st))) s1)
      as (bufs & Hf & Hall).
    exists bufs. rewrite Hf, Hs. auto.
  - destruct (after_loop_file_size i read_size
                (bytes + shead (reads (env st))) b s1 Hb)
      as (bufs & Hf & Hall).
    exists bufs. rewrite Hf, Hs. auto.
Qed.

Lemma attempt_file_size (i : nat) (st : state) :
  shead (opens (env st)) <> -1 ->
  exists bufs,
    forwarded (result_state (attempt i st)) = forwarded st ++ bufs /\
    Forall (fun b => file_size b = st_size (buf (inodes st i))) bufs.
Proof.
  intros Hopen. unfold attempt. simpl.
  destruct (Z.eqb_spec (shead (opens (env st))) (-1)); [contradiction |].
  match goal with
  | |- context [read_blocks ?n _ ?rs ?bl ?by0 ?st1] =>
      destruct (read_blocks_file_size n i rs bl by0 st1) as (bufs & Hf & Hall)
  end.
  exists bufs. split; [exact Hf | exact Hall].
Qed.

(** C3, as amended: when a file is read to its end without an error, the
    last buffer forwarded for it carries the file's total size.  The
    process reader forwards every earlier buffer with [file_size = -1]
    (unknown); the block reader forwards every buffer of the attempt,
    early or last, with the stated size [S], and does so in every attempt
    on an opened file, whatever the environment does. *)
Theorem file_size_of_forwarded_buffers :
  (forall (fuel : nat) (d : dir_ent) (st : state),
     let ino := inodes st (inode d) in
     let S := st_size (buf ino) in
     0 <= block_log ->
     read ino = false ->
     0 <= S ->
     (S + block_size - 1) / block_size <= INT_MAX ->
     shead (opens (env st)) <> -1 ->
     static_reads S 0 st ->
     exists st' bufs,
       reader_read_file (Datatypes.S fuel) d st = Done st' /\
       forwarded st' = forwarded st ++ bufs /\
       bufs <> [] /\
       Forall (fun b => file_size b = S) bufs) /\
  (forall (fuel k : nat) (d : dir_ent) (st : state),
     let total := stream_sum (reads (env st)) k in
     shead (execs (env st)) <> 0 ->
     stream_ends_after k st ->
     wait_ok (shead (waits (env st))) ->
     (k < fuel)%nat ->
     exists st' pre last,
       reader_read_process fuel d st = Done st' /\
       forwarded st' = forwarded st ++ pre ++ [last] /\
       Forall (fun b => file_size b = -1) pre /\
       length pre = Nat.pred k /\
       file_size last = total /\
       st_size (buf (inodes st' (inode d))) = total) /\
  (forall (i : nat) (st : state),
     shead (opens (env st)) <> -1 ->
     exists bufs,
       forwarded (result_state (attempt i st)) = forwarded st ++ bufs /\
       Forall (fun b => file_size b = st_size (buf (inodes st i))) bufs).
Proof.
  split; [| split].
  - intros fuel d st ino S Hlog Hread HS Hmax Hopen Hr.
    destruct (reader_read_file_static fuel d st Hlog Hread HS Hmax Hopen Hr)
      as (st' & Hrun & Hfwd & _).
    exists st', (file_buffers ino (seq st)).
    split; [exact Hrun |]. split; [exact Hfwd |]. split.
    + intros Hnil. apply (f_equal (@length _)) in Hnil.
      rewrite length_file_buffers in Hnil. unfold block_count in Hnil.
      simpl in Hnil. lia.
    + eapply Forall_impl; [| apply file_buffers_fields].
      intros b [H _]. exact H.
  - intros fuel k d st total Hexec Hends Hwait Hfuel.
    destruct (reader_read_process_chunks fuel k d st Hexec Hends Hfuel)
      as (st' & pre & last & Hrun & Hfwd & Hpre & Hlen & Hsize & _ & Hok & _).
    exists st', pre, last.
    destruct (Hok Hwait) as (_ & Hfs & _).
    repeat split; try assumption.
    eapply Forall_impl; [| exact Hpre]. intros b (_ & H & _). exact H.
  - apply attempt_file_size.
Qed.

(** C4, as amended: a file is fragment-eligible exactly when its tag equals
    the default fragment compression tag, its own [no_fragments] flag is
    off, its size is nonzero, and the size is below the block size or, with
    [always_use_fragments] on, not a multiple of the block size; and the
    fragment flag of the terminal buffer of a file read to its end without
    an error, by either reader, is that decision on the file's inode. *)
Theorem fragment_eligibility :
  0 <= block_log ->
  (forall inode : inode_info,
     is_fragment inode = true <->
     i_noF inode = noF /\
     no_fragments inode = false /\
     st_size (buf inode) <> 0 /\
     (st_size (buf inode) < block_size \/
      (always_use_fragments inode = true /\
       st_size (buf inode) mod block_size <> 0))) /\
  (forall (fuel : nat) (d : dir_ent) (st : state),
     let ino := inodes st (inode d) in
     let S := st_size (buf ino) in
     read ino = false ->
     0 <= S ->
     (S + block_size - 1) / block_size <= INT_MAX ->
     shead (opens (env st)) <> -1 ->
     static_reads S 0 st ->
     exists st' pre last,
       reader_read_file (Datatypes.S fuel) d st = Done st' /\
       forwarded st' = forwarded st ++ pre ++ [last] /\
       fragment last = is_fragment ino /\
       Forall (fun b => fragment b = false) pre) /\
  (forall (fuel k : nat) (d : dir_ent) (st : state),
     shead (execs (env st)) <> 0 ->
     stream_ends_after k st ->
     wait_ok (shead (waits (env st))) ->
     (k < fuel)%nat ->
     exists st' pre last,
       reader_read_process fuel d st = Done st' /\
       forwarded st' = forwarded st ++ pre ++ [last] /\
       fragment last = is_fragment (inodes st' (inode d)) /\
       st_size (buf (inodes st' (inode d))) = stream_sum (reads (env st)) k /\
       Forall (fun b => fragment b = false) pre).
Proof.
  intros Hlog. split; [| split].
  - intros inode. apply is_fragment_iff. exact Hlog.
  - intros fuel d st ino S Hread HS Hmax Hopen Hr.
    destruct (reader_read_file_static fuel d st Hlog Hread HS Hmax Hopen Hr)
      as (st' & Hrun & Hfwd & _).
    destruct (file_buffers_last ino (seq st)) as (pre & last & Hb & Hf & Hpre).
    exists st', pre, last. split; [exact Hrun |].
    split; [rewrite Hfwd; f_equal; exact Hb |]. split; assumption.
  - intros fuel k d st Hexec Hends Hwait Hfuel.
    destruct (reader_read_process_chunks fuel k d st Hexec Hends Hfuel)
      as (st' & pre & last & Hrun & Hfwd & Hpre & _ & Hsize & _ & Hok & _).
    destruct (Hok Hwait) as (_ & _ & Hf).
    exists st', pre, last. repeat split; try assumption.
    eapply Forall_impl; [| exact Hpre]. intros b (_ & _ & H). exact H.
Qed.

(** C8, as amended: when the generator starts, its stream ends without a
    read error and the wait fails or reports anything but a normal exit
    with status 0, the process reader returns after forwarding the buffers
    read before the end unmarked and then exactly one buffer marked with
    [error = TRUE], the last one, on the main queue.  It neither tests nor
    sets the inode's [read] flag, which keeps its value. *)
Theorem reader_read_process_failed_exit (fuel k : nat) (d : dir_ent)
    (st : state) :
  shead (execs (env st)) <> 0 ->
  stream_ends_after k st ->
  ~ wait_ok (shead (waits (env st))) ->
  (k < fuel)%nat ->
  exists st' pre last,
    reader_read_process fuel d st = Done st' /\
    forwarded st' = forwarded st ++ pre ++ [last] /\
    Forall (fun b => error b = 0) pre /\
    error last = TRUE /\
    to_main st' = to_main st ++ [last] /\
    read (inodes st' (inode d)) = read (inodes st (inode d)).
Proof.
  intros Hexec Hends Hwait Hfuel.
  destruct (reader_read_process_chunks fuel k d st Hexec Hends Hfuel)
    as (st' & pre & last & Hrun & Hfwd & Hpre & _ & _ & Hread & _ & Hbad).
  destruct (Hbad Hwait) as (Herr & _ & Hmain).
  exists st', pre, last. repeat split; try assumption.
  eapply Forall_impl; [| exact Hpre]. intros b (H & _). exact H.
Qed.

(** * Further properties *)

(** ** What every reader call leaves behind *)

Lemma inode_kept_refl (a : inode_info) : inode_kept a a.
Proof. repeat split; auto. Qed.

Lemma inode_kept_trans (a b c : inode_info) :
  inode_kept a b -> inode_kept b c -> inode_kept a c.
Proof.
  intros (H1 & H2 & H3 & H4 & H5 & H6 & H7 & H8)
         (K1 & K2 & K3 & K4 & K5 & K6 & K7 & K8).
  repeat split; try congruence. auto.
Qed.

Lemma acquired_app (t1 t2 : list event) :
  acquired (t1 ++ t2) = (acquired t1 + acquired t2)%nat.
Proof.
  induction t1 as [| e t1 IH]; simpl; [reflexivity |].
  destruct e; simpl; rewrite IH; reflexivity.
Qed.

Lemma released_app (t1 t2 : list event) :
  released (t1 ++ t2) = (released t1 + released t2)%nat.
Proof.
  induction t1 as [| e t1 IH]; simpl; [reflexivity |].
  destruct e; simpl; rewrite IH; reflexivity.
Qed.

Lemma tally_app (t1 t2 : list event) :
  forall c,
  tally c (t1 ++ t2) =
  match tally c t1 with Some c' => tally c' t2 | None => None end.
Proof.
  induction t1 as [| e t1 IH]; intros c; simpl; [reflexivity |].
  destruct e; try apply IH.
  destruct (_ =? c); [apply IH | reflexivity].
Qed.

Lemma advances_refl (st : state) : advances st st.
Proof.
  exists []. rewrite app_nil_r. repeat split; auto.
  - intros q. simpl. rewrite app_nil_r. reflexivity.
  - simpl. lia.
Qed.

Lemma advances_trans (a b c : state) :
  advances a b -> advances b c -> advances a c.
Proof.
  intros (s1 & T1 & F1 & Q1 & S1 & C1 & I1 & Y1)
         (s2 & T2 & F2 & Q2 & S2 & C2 & I2 & Y2).
  exists (s1 ++ s2). split; [rewrite T2, T1, app_assoc; reflexivity |].
  split; [apply Forall_app; split; assumption |].
  split; [intros q; rewrite Q2, Q1, puts_to_app, app_assoc; reflexivity |].
  split; [rewrite S2, S1, acquired_app, released_app; lia |].
  split; [intros n; rewrite C2, C1, acquired_app; f_equal; lia |].
  split; [intros j; eapply inode_kept_trans; [apply I1 | apply I2] |].
  rewrite tally_app, Y1. exact Y2.
Qed.

(** One event, one queue at most, a counter and a pool that move as the
    event says, inodes kept: the step advances. *)
Lemma advances_step (x y : state) (seg : list event) :
  trace y = trace x ++ seg ->
  Forall routed_event seg ->
  (forall q, queue q y = queue q x ++ puts_to q seg) ->
  seq y = seq x + Z.of_nat (acquired seg) - Z.of_nat (released seg) ->
  (forall n, cache_bufs (env y) n = cache_bufs (env x) (acquired seg + n)%nat) ->
  (forall j, inode_kept (inodes x j) (inodes y j)) ->
  tally (seq x) seg = Some (seq y) ->
  forall s, advances s x -> advances s y.
Proof.
  intros H1 H2 H3 H4 H5 H6 H7 s Hs. apply (advances_trans s x y Hs).
  exists seg. repeat split; auto; apply H6.
Qed.

Lemma adv_put (s x : state) (b : file_buffer) :
  advances s x -> advances s (put_file_buffer b x).
Proof.
  apply (advances_step x _ [Put (route b) (routed b)]).
  - apply trace_put_file_buffer.
  - constructor; [exists b; split; reflexivity | constructor].
  - intros q. rewrite queue_put_file_buffer. simpl.
    destruct (queue_id_eqb (route b) q); reflexivity.
  - rewrite seq_put_file_buffer. simpl. lia.
  - intros n. rewrite env_put_file_buffer. reflexivity.
  - intros j. rewrite inodes_put_file_buffer. apply inode_kept_refl.
  - rewrite seq_put_file_buffer. reflexivity.
Qed.

Lemma adv_read (s x : state) (c r : Z) :
  advances s x -> advances s (log (Read c r) x).
Proof.
  apply (advances_step x _ [Read c r]).
  - reflexivity.
  - repeat constructor.
  - intros q. rewrite queue_log. simpl. rewrite app_nil_r. reflexivity.
  - simpl. lia.
  - intros n. reflexivity.
  - intros j. apply inode_kept_refl.
  - reflexivity.
Qed.

Lemma adv_env (s x : state) (w : world) :
  advances s x -> cache_bufs w = cache_bufs (env x) ->
  advances s (set_env w x).
Proof.
  intros Hs Hw. revert s Hs. apply (advances_step x _ []).
  - simpl. rewrite app_nil_r. reflexivity.
  - constructor.
  - intros q. rewrite queue_set_env. simpl. rewrite app_nil_r. reflexivity.
  - simpl. lia.
  - intros n. simpl. rewrite Hw. reflexivity.
  - intros j. apply inode_kept_refl.
  - reflexivity.
Qed.

Lemma adv_acquire (s x : state) (w : world) (n m : Z) :
  advances s x ->
  cache_bufs w = stail (cache_bufs (env x)) ->
  n = seq x -> m = seq x + 1 ->
  advances s (log (Assign n) (set_seq m (set_env w x))).
Proof.
  intros Hs Hw -> ->. revert s Hs.
  apply (advances_step x _ [Assign (seq x)]).
  - reflexivity.
  - repeat constructor.
  - intros q. rewrite queue_log, queue_set_seq, queue_set_env. simpl.
    rewrite app_nil_r. reflexivity.
  - simpl. lia.
  - intros k. simpl. rewrite Hw. reflexivity.
  - intros j. apply inode_kept_refl.
  - simpl. rewrite Z.eqb_refl. reflexivity.
Qed.

Lemma adv_release (s x : state) (b : file_buffer) (m : Z) :
  advances s x -> m = seq x - 1 ->
  advances s (set_seq m (log (Release b) x)).
Proof.
  intros Hs ->. revert s Hs.
  apply (advances_step x _ [Release b]).
  - reflexivity.
  - repeat constructor.
  - intros q. rewrite queue_set_seq, queue_log. simpl.
    rewrite app_nil_r. reflexivity.
  - simpl. lia.
  - intros n. reflexivity.
  - intros j. apply inode_kept_refl.
  - reflexivity.
Qed.

Lemma adv_inode (s x : state) (i : nat) (f : inode_info -> inode_info) :
  advances s x -> (forall a, inode_kept a (f a)) ->
  advances s (update_inode i f x).
Proof.
  intros Hs Hf. revert s Hs. apply (advances_step x _ []).
  - simpl. rewrite app_nil_r. reflexivity.
  - constructor.
  - intros q. rewrite queue_update_inode. simpl. rewrite app_nil_r.
    reflexivity.
  - simpl. lia.
  - intros n. reflexivity.
  - intros j. simpl.
    destruct (Nat.eqb j i); [apply Hf | apply inode_kept_refl].
  - reflexivity.
Qed.

Lemma set_buf_kept (b : stat) (a : inode_info) : inode_kept a (set_buf b a).
Proof. repeat split; auto. Qed.

Lemma set_st_size_kept (n : Z) (a : inode_info) :
  inode_kept a (set_st_size n a).
Proof. repeat split; auto. Qed.

Lemma set_read_kept (a : inode_info) : inode_kept a (set_read true a).
Proof. repeat split; auto. Qed.

(** Decides [advances] of a state built by the reader's primitives. *)
Ltac adv :=
  first
    [ assumption
    | apply advances_refl
    | apply adv_put; adv
    | apply adv_read; adv
    | apply adv_acquire; [adv | reflexivity | reflexivity | reflexivity]
    | apply adv_release; [adv | reflexivity]
    | apply adv_env; [adv | reflexivity]
    | apply adv_inode;
      [adv | first [apply set_buf_kept | apply set_st_size_kept
                   | apply set_read_kept]] ].

Lemma read_err_process_adv (s : state) (prev : option file_buffer)
    (b : file_buffer) (st : state) :
  advances s st -> advances s (read_err_process prev b st).
Proof.
  intros H. unfold read_err_process, seq_decr, cache_block_put.
  destruct prev; adv.
Qed.

Lemma process_finish_adv (s : state) (i : nat) (prev : option file_buffer)
    (b : file_buffer) (bytes : Z) (st : state) :
  advances s st -> advances s (process_finish i prev b bytes st).
Proof.
  intros H. unfold process_finish. simpl.
  destruct (_ || _).
  - apply read_err_process_adv. adv.
  - destruct prev; unfold seq_decr, cache_block_put; adv.
Qed.

Lemma process_loop_adv (s : state) (fuel : nat) (i : nat) :
  forall (prev : option file_buffer) (bytes : Z) (st : state),
  advances s st ->
  advances s (outcome_state (process_loop fuel i prev bytes st)).
Proof.
  induction fuel as [| fuel IH]; intros prev bytes st H; simpl; [exact H |].
  destruct (_ =? -1); [| destruct (_ =? 0)]; simpl.
  - apply read_err_process_adv. adv.
  - apply process_finish_adv. adv.
  - apply IH. destruct prev; adv.
Qed.

Lemma reader_read_process_adv (s : state) (fuel : nat) (d : dir_ent)
    (st : state) :
  advances s st ->
  advances s (outcome_state (reader_read_process fuel d st)).
Proof.
  intros H. unfold reader_read_process. simpl.
  destruct (_ =? 0); simpl.
  - apply read_err_process_adv. adv.
  - apply process_loop_adv. adv.
Qed.

Lemma restat_adv (s : state) (i : nat) (read_size : Z) (b : file_buffer)
    (st : state) :
  advances s st -> advances s (result_state (restat i read_size b st)).
Proof.
  intros H. unfold restat, read_err, read_err2. simpl.
  destruct (shead (fstats (env st))) as [res buf2].
  destruct (res =? -1); [| destruct (negb _)]; simpl; adv.
Qed.

Lemma after_loop_adv (s : state) (i : nat) (read_size bytes : Z)
    (b : file_buffer) (st : state) :
  advances s st ->
  advances s (result_state (after_loop i read_size bytes b st)).
Proof.
  intros H. unfold after_loop.
  destruct (negb (read_size =? bytes)); [apply restat_adv; exact H |].
  destruct (_ && _); simpl; [| adv].
  destruct (_ =? -1); [unfold read_err, read_err2; simpl; adv |].
  destruct (negb _); simpl; [apply restat_adv |]; adv.
Qed.

Lemma read_blocks_adv (s : state) (n : nat) (i : nat) (read_size : Z) :
  forall (blocks bytes : Z) (st : state),
  advances s st ->
  advances s (result_state (read_blocks n i read_size blocks bytes st)).
Proof.
  induction n as [| n IH]; intros blocks bytes st H; simpl;
    (destruct (_ =? -1); [unfold read_err, read_err2; simpl; adv |]);
    (destruct (blocks >? 1);
     [destruct (_ <? _); [apply restat_adv; adv |] |]);
    (destruct (blocks - 1 >? 0);
     [| apply after_loop_adv; adv]);
    simpl; try (apply IH); adv.
Qed.

Lemma attempt_adv (s : state) (i : nat) (st : state) :
  advances s st -> advances s (result_state (attempt i st)).
Proof.
  intros H. unfold attempt. simpl.
  destruct (_ =? -1); simpl.
  - unfold read_err2. adv.
  - apply read_blocks_adv. adv.
Qed.

Lemma again_adv (s : state) (fuel : nat) (i : nat) :
  forall st : state,
  advances s st -> advances s (outcome_state (again fuel i st)).
Proof.
  induction fuel as [| fuel IH]; intros st H; simpl; [exact H |].
  pose proof (attempt_adv s i st H) as Ha.
  destruct (attempt i st); simpl in *; auto.
Qed.

Lemma reader_read_file_adv (s : state) (fuel : nat) (d : dir_ent)
    (st : state) :
  advances s st -> advances s (outcome_state (reader_read_file fuel d st)).
Proof.
  intros H. unfold reader_read_file.
  destruct (read _); [exact H |].
  apply again_adv. adv.
Qed.

Lemma and_then_adv (s : state) (o : outcome) (k : state -> outcome) :
  advances s (outcome_state o) ->
  (forall st, advances s st -> advances s (outcome_state (k st))) ->
  advances s (outcome_state (and_then o k)).
Proof. destruct o; simpl; auto. Qed.

Lemma scan_entry_adv (s : state) (fuel : nat) (entry : dir_ent) :
  forall st : state,
  advances s st -> advances s (outcome_state (scan_entry fuel entry st)).
Proof.
  induction entry as [i children IH] using dir_ent_ind'.
  intros st H. simpl.
  destruct (root_entry _); [exact H |].
  destruct (IS_PSEUDO_PROCESS _); [apply reader_read_process_adv; exact H |].
  destruct (_ =? S_IFREG); [apply reader_read_file_adv; exact H |].
  destruct (_ =? S_IFDIR); [| exact H].
  revert st H. induction IH as [| e l He Hl IHl]; intros st H.
  - exact H.
  - apply and_then_adv; [apply He; exact H | exact IHl].
Qed.

Lemma reader_scan_adv (s : state) (fuel : nat) (l : list dir_ent) :
  forall st : state,
  advances s st -> advances s (outcome_state (reader_scan fuel l st)).
Proof.
  induction l as [| e l IH]; intros st H; simpl; [exact H |].
  apply and_then_adv; [apply scan_entry_adv; exact H | exact IH].
Qed.

Lemma read_entries_adv (s : state) (fuel : nat) (l : list dir_ent) :
  forall st : state,
  advances s st -> advances s (outcome_state (read_entries fuel l st)).
Proof.
  induction l as [| e l IH]; intros st H; simpl; [exact H |].
  apply and_then_adv; [apply reader_read_file_adv; exact H | exact IH].
Qed.

Lemma read_priorities_adv (s : state) (fuel : nat)
    (priority_list : nat -> list dir_ent) (n : nat) :
  forall st : state,
  advances s st ->
  advances s (outcome_state (read_priorities fuel priority_list n st)).
Proof.
  induction n as [| n IH]; intros st H; simpl; [exact H |].
  apply and_then_adv; [apply read_entries_adv; exact H | exact IH].
Qed.

Lemma reader_adv (fuel : nat) (sorted : bool) (root : list dir_ent)
    (priority_list : nat -> list dir_ent) (st : state) :
  advances st (outcome_state (reader fuel sorted root priority_list st)).
Proof.
  unfold reader. destruct sorted; cbv [negb].
  - apply read_priorities_adv, advances_refl.
  - apply reader_scan_adv, advances_refl.
Qed.

(** ** The sequence numbers of a run *)





Lemma routed_fits (b0 : file_buffer) : fits_queue (route b0) (routed b0).
Proof.
  unfold route, routed.
  destruct (Z.eqb_spec (error b0) 0) as [He | He]; simpl.
  - destruct (Z.eqb_spec (file_size b0) 0) as [Hs | Hs]; simpl;
      [right; auto |].
    destruct (fragment b0) eqn:Hf; simpl; auto.
  - left. auto.
Qed.

Lemma puts_to_fit (q : queue_id) (seg : list event) :
  Forall routed_event seg -> Forall (fits_queue q) (puts_to q seg).
Proof.
  induction 1 as [| e seg He _ IH]; simpl; [constructor |].
  destruct e as [n | q' b | b | c r]; try exact IH.
  destruct q, q'; simpl; try exact IH;
    destruct He as (b0 & Hq & ->); constructor; try exact IH;
    rewrite Hq; apply routed_fits.
Qed.

(** X1: from any state, whatever the tree, the priority lists and the
    environment do and however long the run is followed, every queue keeps
    the buffers it held, in place, and every buffer added to it is one the
    dispatcher sends there: an error buffer (fragment flag off) or an
    empty file's buffer on the main queue, error-free fragment buffers of
    non-empty files on the fragment queue, error-free unflagged ones on
    the block queue. *)
Theorem reader_queues_grow (fuel : nat) (sorted : bool)
    (root : list dir_ent) (priority_list : nat -> list dir_ent) (st : state)
    (q : queue_id) :
  let st' := outcome_state (reader fuel sorted root priority_list st) in
  exists added,
    queue q st' = queue q st ++ added /\ Forall (fits_queue q) added.
Proof.
  intros st'.
  destruct (reader_adv fuel sorted root priority_list st)
    as (seg & _ & Hseg & Hq & _).
  exists (puts_to q seg). split; [apply Hq | apply puts_to_fit; exact Hseg].
Qed.

(** X2: a run of the reader writes nothing of an inode but its [buf] and
    its [read] flag, and never clears a [read] flag that is set. *)
Theorem reader_keeps_inodes (fuel : nat) (sorted : bool)
    (root : list dir_ent) (priority_list : nat -> list dir_ent) (st : state)
    (j : nat) :
  let a := inodes st j in
  let b := inodes (outcome_state
                     (reader fuel sorted root priority_list st)) j in
  (read a = true -> read b = true) /\
  root_entry b = root_entry a /\
  pseudo_file b = pseudo_file a /\
  pseudo_id b = pseudo_id a /\
  no_fragments b = no_fragments a /\
  always_use_fragments b = always_use_fragments a /\
  i_noD b = i_noD a /\
  i_noF b = i_noF a.
Proof.
  intros a b.
  destruct (reader_adv fuel sorted root priority_list st)
    as (seg & _ & _ & _ & _ & _ & Hi & _).
  exact (Hi j).
Qed.


(** X4: a file is read at most once.  When [reader_read_file] has returned
    for an entry, whatever the environment did meanwhile, the inode's
    [read] flag is set, and a later call for any entry that refers to the
    same inode returns at once and changes nothing. *)
Theorem reader_read_file_once (fuel fuel' : nat) (d d' : dir_ent)
    (st st' : state) :
  reader_read_file fuel d st = Done st' ->
  inode d' = inode d ->
  read (inodes st' (inode d)) = true /\
  reader_read_file fuel' d' st' = Done st'.
Proof.
  intros Hrun Hd.
  assert (Hread : read (inodes st' (inode d)) = true).
  { unfold reader_read_file in Hrun.
    destruct (read (inodes st (inode d))) eqn:Hr.
    - injection Hrun as <-. exact Hr.
    - pose proof (again_adv _ fuel (inode d) _
                    (advances_refl
                       (update_inode (inode d) (set_read true) st))) as Ha.
      rewrite Hrun in Ha. simpl in Ha.
      destruct Ha as (seg & _ & _ & _ & _ & _ & Hi & _).
      apply (Hi (inode d)). simpl. rewrite Nat.eqb_refl. reflexivity. }
  split; [exact Hread |].
  unfold reader_read_file. rewrite Hd, Hread. reflexivity.
Qed.

(** ** Failure to open and failure to start the generator *)

(** X5: when the file cannot be opened, [reader_read_file] still returns:
    it forwards exactly one buffer, marked with an error and with the
    fragment flag off, on the main queue, under the next sequence number;
    the buffer's size, file size and compression tag are whatever the pool
    left in it.  Nothing is read and no stat is taken, and the inode is
    marked as read with its stated size unchanged. *)
Theorem reader_read_file_open_failure (fuel : nat) (d : dir_ent)
    (st : state) :
  read (inodes st (inode d)) = false ->
  shead (opens (env st)) = -1 ->
  exists b st',
    reader_read_file (Datatypes.S fuel) d st = Done st' /\
    forwarded st' = forwarded st ++ [b] /\
    to_main st' = to_main st ++ [b] /\
    to_process_frag st' = to_process_frag st /\
    to_deflate st' = to_deflate st /\
    b = set_fragment false
          (set_error TRUE
             (set_sequence (seq st) (shead (cache_bufs (env st))))) /\
    seq st' = seq st + 1 /\
    read (inodes st' (inode d)) = true /\
    buf (inodes st' (inode d)) = buf (inodes st (inode d)) /\
    reads (env st') = reads (env st) /\
    fstats (env st') = fstats (env st).
Proof.
  intros Hread Hopen.
  unfold reader_read_file. rewrite Hread. cbn [again]. unfold attempt.
  cbn [open env update_inode set_env fst snd]. rewrite Hopen.
  change (-1 =? -1) with true. cbv iota.
  unfold cache_get_nohash, assign_sequence, read_err2, put_file_buffer.
  simpl.
  eexists. eexists. split; [reflexivity |].
  unfold forwarded. simpl. rewrite !puts_app, ?Nat.eqb_refl. simpl.
  rewrite app_nil_r. repeat split; reflexivity.
Qed.

(** X6: when the generator cannot be started, [reader_read_process]
    returns at once, whatever the bound on its loop: it forwards exactly
    one buffer, marked with an error and with the fragment flag off, on the
    main queue, under the next sequence number.  It reads nothing, waits
    for no child, and leaves every inode as it was: no size is recorded. *)
Theorem reader_read_process_spawn_failure (fuel : nat) (d : dir_ent)
    (st : state) :
  shead (execs (env st)) = 0 ->
  exists b st',
    reader_read_process fuel d st = Done st' /\
    forwarded st' = forwarded st ++ [b] /\
    to_main st' = to_main st ++ [b] /\
    to_process_frag st' = to_process_frag st /\
    to_deflate st' = to_deflate st /\
    b = set_fragment false
          (set_error TRUE
             (set_sequence (seq st) (shead (cache_bufs (env st))))) /\
    seq st' = seq st + 1 /\
    inodes st' = inodes st /\
    reads (env st') = reads (env st) /\
    waits (env st') = waits (env st).
Proof.
  intros Hexec.
  unfold reader_read_process.
  cbn [pseudo_exec_file env set_env fst snd]. rewrite Hexec.
  change (0 =? 0) with true. cbv iota.
  unfold cache_get_nohash, assign_sequence, read_err_process, put_file_buffer.
  simpl.
  eexists. eexists. split; [reflexivity |].
  unfold forwarded. simpl. rewrite !puts_app. simpl.
  rewrite app_nil_r. repeat split; reflexivity.
Qed.

(** ** The order of the walk *)

Lemma reader_scan_app (fuel : nat) (l1 l2 : list dir_ent) :
  forall st : state,
  reader_scan fuel (l1 ++ l2) st =
  and_then (reader_scan fuel l1 st) (reader_scan fuel l2).
Proof.
  induction l1 as [| e l1 IH]; intros st; simpl; [reflexivity |].
  destruct (scan_entry fuel e st); simpl; [apply IH | reflexivity].
Qed.

Lemma read_entries_app (fuel : nat) (l1 l2 : list dir_ent) :
  forall st : state,
  read_entries fuel (l1 ++ l2) st =
  and_then (read_entries fuel l1 st) (read_entries fuel l2).
Proof.
  induction l1 as [| e l1 IH]; intros st; simpl; [reflexivity |].
  destruct (reader_read_file fuel e st); simpl; [apply IH | reflexivity].
Qed.

Lemma read_priorities_concat (fuel : nat)
    (priority_list : nat -> list dir_ent) (n : nat) :
  forall st : state,
  read_priorities fuel priority_list n st =
  read_entries fuel (concat (map priority_list (rev (List.seq 0 n)))) st.
Proof.
  induction n as [| n IH]; intros st; [reflexivity |].
  rewrite seq_S, rev_app_distr. simpl rev. simpl map. simpl concat.
  rewrite read_entries_app. simpl read_priorities.
  destruct (read_entries fuel (priority_list n) st); simpl;
    [apply IH | reflexivity].
Qed.

(** X7: the walk is depth first.  Walking a list whose first entry is a
    directory (not a root entry, not a pseudo process file) is walking the
    directory's entries and then the rest of the list. *)
Theorem reader_scan_descends (fuel : nat) (i : nat)
    (children next : list dir_ent) (st : state) :
  root_entry (inodes st i) = false ->
  IS_PSEUDO_PROCESS (inodes st i) = false ->
  Z.land (st_mode (buf (inodes st i))) S_IFMT = S_IFDIR ->
  reader_scan fuel (DirEnt i children :: next) st =
  reader_scan fuel (children ++ next) st.
Proof.
  intros Hroot Hp Hdir.
  rewrite reader_scan_app. cbn [reader_scan].
  rewrite (scan_entry_directory fuel i children st Hroot Hp Hdir).
  reflexivity.
Qed.

(** X8: in sorted mode the reader reads the files of the 65536 priority
    buckets as one list, bucket 65535 first and bucket 0 last, each bucket
    in its own order; the tree it was handed plays no part. *)
Theorem reader_sorted_order (fuel : nat) (root : list dir_ent)
    (priority_list : nat -> list dir_ent) (st : state) :
  reader fuel true root priority_list st =
  read_entries fuel
    (concat (map priority_list (rev (List.seq 0 (Z.to_nat 65536))))) st.
Proof.
  unfold reader. cbv [negb]. apply read_priorities_concat.
Qed.

(** ** What a generator that never ends does to the reader *)

Lemma process_loop_endless (i : nat) (fuel : nat) :
  forall (prev : option file_buffer) (bytes : Z) (st : state),
  (forall j, reads (env st) j <> 0 /\ reads (env st) j <> -1) ->
  exists st',
    process_loop fuel i prev bytes st = OutOfFuel st' /\
    seq st' = seq st + Z.of_nat fuel /\
    length (forwarded st') =
      (length (forwarded st) + (fuel + length (olist prev) - 1))%nat /\
    waits (env st') = waits (env st).
Proof.
  induction fuel as [| fuel IH]; intros prev bytes st Hr.
  - exists st. destruct prev; simpl; repeat split; lia.
  - destruct (Hr 0%nat) as [Hnz Hne].
    simpl. unfold shead.
    destruct (Z.eqb_spec (reads (env st) 0%nat) (-1)); [contradiction |].
    destruct (Z.eqb_spec (reads (env st) 0%nat) 0); [contradiction |].
    match goal with
    | |- exists st', process_loop _ _ ?p ?b ?st1 = _ /\ _ =>
        destruct (IH p b st1) as (st' & Hrun & Hseq & Hlen & Hw)
    end.
    + intros j. destruct prev; rewrite ?env_put_file_buffer; simpl;
        unfold stail; apply Hr.
    + exists st'. split; [exact Hrun |].
      rewrite Hseq, Hlen, Hw.
      destruct prev as [p |];
        rewrite ?seq_put_file_buffer, ?put_file_buffer_forwarded,
          ?env_put_file_buffer;
        unfold forwarded; simpl; rewrite ?puts_app, ?length_app; simpl;
        rewrite ?app_nil_r; repeat split; lia.
Qed.

(** X9: [reader_read_process] has no bound of its own on the generator's
    output.  With a generator that starts and whose stream neither ends nor
    fails, the call is still running after any number of turns of its
    loop that the [int] counter has room for: it has taken one buffer and
    one number a turn, forwarded all but the last of them, and has not
    waited for the child. *)
Theorem reader_read_process_endless (fuel : nat) (d : dir_ent) (st : state) :
  shead (execs (env st)) <> 0 ->
  (forall j, reads (env st) j <> 0 /\ reads (env st) j <> -1) ->
  0 <= seq st ->
  seq st + Z.of_nat fuel <= INT_MAX ->
  exists st',
    reader_read_process fuel d st = OutOfFuel st' /\
    seq st' = seq st + Z.of_nat fuel /\
    0 <= seq st' <= INT_MAX /\
    length (forwarded st') = (length (forwarded st) + (fuel - 1))%nat /\
    waits (env st') = waits (env st).
Proof.
  intros Hexec Hr Hseq0 Hmax. unfold reader_read_process.
  cbn [pseudo_exec_file fst snd].
  destruct (Z.eqb_spec (shead (execs (env st))) 0); [contradiction |].
  match goal with
  | |- exists st', process_loop _ _ _ _ ?st1 = _ /\ _ =>
      destruct (process_loop_endless (inode d) fuel None 0 st1 Hr)
        as (st' & Hrun & Hseq & Hlen & Hw)
  end.
  exists st'. split; [exact Hrun |].
  rewrite Hseq, Hlen, Hw. unfold forwarded. simpl.
  repeat split; lia.
Qed.

(** ** The block reader starts no process *)

Ltac np H :=
  unfold no_process in *;
  repeat first [rewrite !env_put_file_buffer | progress simpl];
  exact H.

Lemma restat_no_process (s : state) (i : nat) (read_size : Z)
    (b : file_buffer) (st : state) :
  no_process s st -> no_process s (result_state (restat i read_size b st)).
Proof.
  intros H. unfold restat, read_err, read_err2. simpl.
  destruct (shead (fstats (env st))) as [res buf2].
  destruct (res =? -1); [| destruct (negb _)]; np H.
Qed.

Lemma after_loop_no_process (s : state) (i : nat) (read_size bytes : Z)
    (b : file_buffer) (st : state) :
  no_process s st ->
  no_process s (result_state (after_loop i read_size bytes b st)).
Proof.
  intros H. unfold after_loop.
  destruct (negb (read_size =? bytes)); [apply restat_no_process; exact H |].
  destruct (_ && _); simpl; [| np H].
  destruct (_ =? -1); [unfold read_err, read_err2; np H |].
  destruct (negb _); simpl; [apply restat_no_process |]; np H.
Qed.

Lemma read_blocks_no_process (s : state) (n : nat) (i : nat) (read_size : Z) :
  forall (blocks bytes : Z) (st : state),
  no_process s st ->
  no_process s (result_state (read_blocks n i read_size blocks bytes st)).
Proof.
  induction n as [| n IH]; intros blocks bytes st H; simpl;
    (destruct (_ =? -1); [unfold read_err, read_err2; np H |]);
    (destruct (blocks >? 1);
     [destruct (_ <? _); [apply restat_no_process; np H |] |]);
    (destruct (blocks - 1 >? 0);
     [| apply after_loop_no_process; np H]);
    simpl; try (apply IH); np H.
Qed.

Lemma attempt_no_process (s : state) (i : nat) (st : state) :
  no_process s st -> no_process s (result_state (attempt i st)).
Proof.
  intros H. unfold attempt. simpl.
  destruct (_ =? -1); simpl.
  - unfold read_err2. np H.
  - apply read_blocks_no_process. np H.
Qed.

Lemma again_no_process (s : state) (fuel : nat) (i : nat) :
  forall st : state,
  no_process s st -> no_process s (outcome_state (again fuel i st)).
Proof.
  induction fuel as [| fuel IH]; intros st H; simpl; [exact H |].
  pose proof (attempt_no_process s i st H) as Ha.
  destruct (attempt i st); simpl in *; auto.
Qed.

Lemma reader_read_file_no_process (s : state) (fuel : nat) (d : dir_ent)
    (st : state) :
  no_process s st ->
  no_process s (outcome_state (reader_read_file fuel d st)).
Proof.
  intros H. unfold reader_read_file.
  destruct (read _); [exact H |].
  apply again_no_process. np H.
Qed.

Lemma read_entries_no_process (s : state) (fuel : nat)
    (entries : list dir_ent) :
  forall st : state,
  no_process s st -> no_process s (outcome_state (read_entries fuel entries st)).
Proof.
  induction entries as [| e l IH]; intros st H; simpl; [exact H |].
  pose proof (reader_read_file_no_process s fuel e st H) as He.
  destruct (reader_read_file fuel e st); simpl in *; auto.
Qed.

(** X10: in sorted mode the reader hands every entry of the priority
    lists to the block reader, whatever kind of file it names: however the
    run goes, no generator process is started and no child is waited
    for. *)
Theorem reader_sorted_starts_no_process (fuel : nat) (root : list dir_ent)
    (priority_list : nat -> list dir_ent) (st : state) :
  no_process st
    (outcome_state (reader fuel true root priority_list st)).
Proof.
  unfold reader. cbv [negb]. rewrite read_priorities_concat.
  apply read_entries_no_process. split; reflexivity.
Qed.

(** ** A read error in the middle of a file *)

Lemma reads_of_app (t1 t2 : list event) :
  reads_of (t1 ++ t2) = reads_of t1 ++ reads_of t2.
Proof.
  induction t1 as [| e t1 IH]; simpl; [reflexivity |].
  destruct e; simpl; rewrite IH; reflexivity.
Qed.

Lemma read_blocks_full (i : nat) (S : Z) (k : nat) :
  forall (n : nat) (blocks bytes : Z) (st : state),
  0 <= block_log ->
  full_blocks k st ->
  n = Z.to_nat (blocks - 1) ->
  k = 0%nat \/ (S <> 0 /\ Z.of_nat k < blocks) ->
  exists st1,
    read_blocks n i S blocks bytes st =
      read_blocks (n - k) i S (blocks - Z.of_nat k)
                  (bytes + Z.of_nat k * block_size) st1 /\
    forwarded st1 =
      forwarded st ++
      map (fun j => mk_buffer (seq st + Z.of_nat j) block_size S FALSE false
                              (i_noD (inodes st i)))
          (List.seq 0 k) /\
    to_main st1 = to_main st /\
    seq st1 = seq st + Z.of_nat k /\
    inodes st1 = inodes st /\
    (forall j, reads (env st1) j = reads (env st) (k + j)%nat) /\
    (forall j, cache_bufs (env st1) j = cache_bufs (env st) (k + j)%nat) /\
    fstats (env st1) = fstats (env st) /\
    reads_of (trace st1) =
      reads_of (trace st) ++
      map (fun j => (block_size, reads (env st) j)) (List.seq 0 k).
Proof.
  induction k as [| k IH]; intros n blocks bytes st Hlog Hfull Hn HS.
  - exists st. rewrite Nat.sub_0_r, Z.sub_0_r. simpl.
    rewrite Z.add_0_r, !app_nil_r. repeat split; try reflexivity; lia.
  - pose proof (block_size_pos Hlog) as HB.
    destruct HS as [HS | [HS0 Hk]]; [discriminate |].
    destruct n as [| n]; [lia |].
    assert (Hr0 : shead (reads (env st)) = block_size)
      by (apply (Hfull 0%nat); lia).
    remember (bytes + Z.of_nat (Datatypes.S k) * block_size) as bytes'
      eqn:Hbytes.
    remember (blocks - Z.of_nat (Datatypes.S k)) as blocks' eqn:Hblocks.
    rewrite Nat2Z.inj_succ in Hbytes, Hblocks.
    cbn [read_blocks]. simpl. rewrite Hr0.
    destruct (Z.eqb_spec block_size (-1)); [lia |].
    destruct (Z.gtb_spec blocks 1); [| lia].
    rewrite Z.ltb_irrefl.
    destruct (Z.gtb_spec (blocks - 1) 0); [| lia].
    match goal with
    | |- exists st1, read_blocks _ _ _ _ _ ?st0 = _ /\ _ =>
        destruct (IH n (blocks - 1) (bytes + block_size) st0)
          as (st1 & Hrun & Hfwd & Hmain & Hseq & Hino & Hreads & Hpool & Hfs
              & Hro)
    end.
    + exact Hlog.
    + intros j Hj. rewrite env_put_file_buffer. simpl. unfold stail.
      apply Hfull. lia.
    + lia.
    + right. split; [exact HS0 | lia].
    + exists st1. split.
      { rewrite Hrun. f_equal; lia. }
      rewrite Hfwd, Hmain, Hseq, Hino.
      rewrite forwarded_put_file_buffer_ok by reflexivity.
      rewrite seq_put_file_buffer, inodes_put_file_buffer.
      rewrite put_file_buffer_queue_put.
      unfold route, routed. cbn [error file_size fragment set_fragment
        set_size set_error set_noD set_sequence set_file_size negb].
      change (FALSE =? 0) with true. cbv iota. cbn [negb].
      destruct (Z.eqb_spec S 0) as [| _]; [contradiction |].
      unfold forwarded. simpl. rewrite !puts_app. simpl.
      rewrite ?app_nil_r, <- app_assoc. simpl.
      split.
      { f_equal. f_equal.
        - rewrite Z.add_0_r. reflexivity.
        - rewrite <- seq_shift, map_map. apply map_ext. intros j.
          f_equal. lia. }
      split; [reflexivity |]. split; [lia |]. split; [reflexivity |].
      split.
      { intros j. rewrite Hreads, env_put_file_buffer. reflexivity. }
      split.
      { intros j. rewrite Hpool, env_put_file_buffer. reflexivity. }
      split; [rewrite Hfs, env_put_file_buffer; reflexivity |].
      rewrite Hro, trace_put_file_buffer, env_put_file_buffer.
      simpl. repeat rewrite reads_of_app. simpl.
      rewrite ?app_nil_r, <- ?app_assoc. simpl.
      unfold shead in Hr0. rewrite Hr0.
      rewrite <- seq_shift, map_map. reflexivity.
Qed.

(** X11: a read error in the middle of a file.  When the first [k] reads
    of a regular file deliver full blocks and the next one, still within
    the file's blocks, fails, [reader_read_file] returns: the [k] blocks
    read are forwarded as ordinary blocks carrying the stated size, then
    one more buffer goes to the main queue, marked with an error and with
    the fragment flag off, under the next sequence number.  No stat is
    taken and the file is not tried again. *)
Theorem reader_read_file_read_error (fuel : nat) (d : dir_ent) (st : state)
    (k : nat) :
  let ino := inodes st (inode d) in
  let S := st_size (buf ino) in
  0 <= block_log ->
  read ino = false ->
  0 <= S ->
  (S + block_size - 1) / block_size <= INT_MAX ->
  shead (opens (env st)) <> -1 ->
  Z.of_nat k < block_count S ->
  full_blocks k st ->
  reads (env st) k = -1 ->
  exists b st',
    reader_read_file (Datatypes.S fuel) d st = Done st' /\
    forwarded st' =
      forwarded st ++
      map (fun j => mk_buffer (seq st + Z.of_nat j) block_size S FALSE false
                              (i_noD ino))
          (List.seq 0 k) ++ [b] /\
    to_main st' = to_main st ++ [b] /\
    b = mk_buffer (seq st + Z.of_nat k) (-1) S TRUE false (i_noD ino) /\
    seq st' = seq st + Z.of_nat k + 1 /\
    fstats (env st') = fstats (env st) /\
    buf (inodes st' (inode d)) = buf ino.
Proof.
  intros ino S Hlog Hread HS Hmax Hopen Hk Hfull Herr.
  destruct (ceil_bounds S Hlog HS) as (Hn0 & Hz & Hpos).
  pose proof (block_size_pos Hlog) as HB.
  unfold reader_read_file. fold ino. rewrite Hread.
  cbn [again]. unfold attempt. simpl.
  rewrite Nat.eqb_refl. cbn [buf set_read]. fold S.
  destruct (Z.eqb_spec (shead (opens (env st))) (-1)); [contradiction |].
  rewrite Z.shiftr_div_pow2 by assumption.
  rewrite <- block_size_pow2 by assumption.
  change (inodes st (inode d)) with ino.
  change (st_size (buf ino)) with S.
  rewrite to_int_small by (unfold INT_MAX in *; lia).
  set (nb := (S + block_size - 1) / block_size) in *.
  unfold block_count in Hk. fold nb in Hk.
  match goal with
  | |- exists b st', match read_blocks ?m _ _ _ _ ?st1 with _ => _ end = _ /\ _ =>
      destruct (read_blocks_full (inode d) S k m nb 0 st1)
        as (st2 & Hrun & Hfwd & Hmain & Hseq & Hino & Hreads & Hpool & Hfs
            & _)
  end.
  - exact Hlog.
  - intros j Hj. simpl. apply Hfull. exact Hj.
  - reflexivity.
  - destruct k as [| k]; [left; reflexivity | right].
    split; [| lia]. intros H0. rewrite (Hz H0) in Hk. lia.
  - rewrite Hrun. clear Hrun.
    simpl in Hfwd, Hmain, Hseq, Hino, Hreads, Hpool, Hfs.
    assert (Hr2 : shead (reads (env st2)) = -1).
    { unfold shead. rewrite Hreads, Nat.add_0_r. exact Herr. }
    assert (Hnod : i_noD (inodes st2 (inode d)) = i_noD ino).
    { rewrite Hino. simpl. rewrite Nat.eqb_refl. reflexivity. }
    assert (Hbuf : buf (inodes st2 (inode d)) = buf ino).
    { rewrite Hino. simpl. rewrite Nat.eqb_refl. reflexivity. }
    assert (Hfwd' : forwarded st2 =
              forwarded st ++
              map (fun j => mk_buffer (seq st + Z.of_nat j) block_size S
                                      FALSE false (i_noD ino))
                  (List.seq 0 k)).
    { rewrite Hfwd. unfold forwarded. simpl. f_equal. apply map_ext.
      intros j. rewrite Nat.eqb_refl. reflexivity. }
    clear Hfwd.
    destruct (Z.to_nat (nb - 1) - k)%nat; cbn [read_blocks]; simpl;
      rewrite Hr2; simpl; unfold read_err, read_err2;
      (eexists; eexists; split; [reflexivity |]);
      rewrite put_file_buffer_forwarded, put_file_buffer_queue_put;
      unfold forwarded in *; unfold route, routed; simpl;
      rewrite !puts_app, Hfwd', Hmain, Hseq, Hnod, Hfs, Hbuf; simpl;
      rewrite ?app_nil_r, <- ?app_assoc;
      repeat split; reflexivity.
Qed.

(** ** The count check and the probe at the end of an attempt *)

Lemma attempt_reaches_after_loop (i : nat) (st : state) (k : nat) :
  let S := st_size (buf (inodes st i)) in
  let last_read := reads (env st) k in
  let bytes := Z.of_nat k * block_size + last_read in
  0 <= block_log ->
  0 <= S ->
  (S + block_size - 1) / block_size <= INT_MAX ->
  shead (opens (env st)) <> -1 ->
  Z.of_nat k = block_count S - 1 ->
  full_blocks k st ->
  last_read <> -1 ->
  exists b st1,
    attempt i st = after_loop i S bytes b st1 /\
    reads_of (trace st1) =
      reads_of (trace st) ++
      map (fun j => (block_size, reads (env st) j))
          (List.seq 0 (Datatypes.S k)) /\
    length (forwarded st1) = (length (forwarded st) + k)%nat /\
    fstats (env st1) = fstats (env st) /\
    inodes st1 = inodes st /\
    shead (reads (env st1)) = reads (env st) (Datatypes.S k) /\
    sequence b = seq st + Z.of_nat k /\
    size b = last_read /\ file_size b = S /\ error b = 0.
Proof.
  intros S last_read bytes Hlog HS Hmax Hopen Hk Hfull Hlast.
  destruct (ceil_bounds S Hlog HS) as (Hn0 & Hz & Hpos).
  pose proof (block_size_pos Hlog) as HB.
  remember (map (fun j => (block_size, reads (env st) j))
              (List.seq 0 (Datatypes.S k))) as rs eqn:Hrs.
  rewrite seq_S, map_app in Hrs. cbn [map Nat.add] in Hrs.
  fold last_read in Hrs.
  unfold attempt. simpl. fold S.
  destruct (Z.eqb_spec (shead (opens (env st))) (-1)); [contradiction |].
  rewrite Z.shiftr_div_pow2 by assumption.
  rewrite <- block_size_pow2 by assumption.
  rewrite to_int_small by (unfold INT_MAX in *; lia).
  set (nb := (S + block_size - 1) / block_size) in *.
  unfold block_count in Hk. fold nb in Hk.
  match goal with
  | |- context [read_blocks ?m _ _ _ _ ?st0] =>
      destruct (read_blocks_full i S k m nb 0 st0)
        as (st2 & Hrun & Hfwd & Hmain & Hseq & Hino & Hreads & Hpool & Hfs
            & Hro)
  end.
  - exact Hlog.
  - intros j Hj. simpl. apply Hfull. exact Hj.
  - reflexivity.
  - destruct k as [| k]; [left; reflexivity | right].
    split; [| lia]. intros H0. rewrite (Hz H0) in Hk. lia.
  - rewrite Hrun. clear Hrun.
    simpl in Hfwd, Hmain, Hseq, Hino, Hreads, Hpool, Hfs, Hro.
    assert (Hr2 : shead (reads (env st2)) = last_read).
    { unfold shead. rewrite Hreads, Nat.add_0_r. reflexivity. }
    assert (Hb1 : nb - Z.of_nat k <= 1) by lia.
    remember (0 + Z.of_nat k * block_size) as bytes0 eqn:Hbytes0.
    destruct (Z.to_nat (nb - 1) - k)%nat; cbn [read_blocks]; simpl;
      rewrite Hr2;
      (destruct (Z.eqb_spec last_read (-1)); [contradiction |]);
      (destruct (Z.gtb_spec (nb - Z.of_nat k) 1); [lia |]);
      (destruct (Z.gtb_spec (nb - Z.of_nat k - 1) 0); [lia |]);
      (eexists; eexists; split;
       [replace bytes with (bytes0 + last_read)
          by (unfold bytes; lia); reflexivity |]);
      simpl; repeat rewrite reads_of_app; simpl;
      rewrite Hro, Hfs, Hino, Hseq, Hrs, app_nil_r, <- app_assoc;
      unfold forwarded in *; simpl; rewrite !puts_app, Hfwd; simpl;
      rewrite !app_nil_r, !length_app, length_map, length_seq;
      unfold shead, stail; rewrite Hreads;
      repeat split; try reflexivity; f_equal; lia.
Qed.

(** C6: an attempt of the Block Reader on a file of stated size [S] whose
    blocks before the last are read in full.  The loop issues one read of
    [block_size] bytes per block and no other, and leaves the last block's
    buffer unforwarded; the count it has accumulated is the bytes of the
    full blocks plus the answer of the last read.  If that count is not
    [S], the attempt goes to [restat].  If it is [S] and [S] is a nonzero
    multiple of the block size, exactly one more read, of 1 byte, is
    issued, and only its answer 0 (end of stream) lets the attempt finish
    with the buffer forwarded without an error: the answer -1 goes to
    [read_err], any other answer (data: the file grew) to [restat], and
    both forward the buffer marked with an error.  Otherwise no probe is
    issued and the attempt finishes with the buffer forwarded. *)
Theorem attempt_checks_count_and_probes (i : nat) (st : state) (k : nat) :
  let S := st_size (buf (inodes st i)) in
  let last_read := reads (env st) k in
  let bytes := Z.of_nat k * block_size + last_read in
  let probe := reads (env st) (Datatypes.S k) in
  0 <= block_log ->
  0 <= S ->
  (S + block_size - 1) / block_size <= INT_MAX ->
  shead (opens (env st)) <> -1 ->
  Z.of_nat k = block_count S - 1 ->
  full_blocks k st ->
  last_read <> -1 ->
  exists b st1,
    reads_of (trace st1) =
      reads_of (trace st) ++
      map (fun j => (block_size, reads (env st) j))
          (List.seq 0 (Datatypes.S k)) /\
    length (forwarded st1) = (length (forwarded st) + k)%nat /\
    fstats (env st1) = fstats (env st) /\
    inodes st1 = inodes st /\
    sequence b = seq st + Z.of_nat k /\
    size b = last_read /\ file_size b = S /\ error b = 0 /\
    (bytes <> S -> attempt i st = restat i S b st1) /\
    (bytes = S -> S <> 0 -> Z.rem S block_size = 0 ->
     let st2 := snd (read_bytes 1 st1) in
     reads_of (trace st2) = reads_of (trace st1) ++ [(1, probe)] /\
     (probe = 0 ->
      attempt i st =
      Finished (put_file_buffer
                  (set_fragment (is_fragment (inodes st i)) b) st2)) /\
     (probe = -1 -> attempt i st = Finished (read_err b st2)) /\
     (probe <> 0 -> probe <> -1 -> attempt i st = restat i S b st2) /\
     (probe <> 0 ->
      forall d, error (last (forwarded (result_state (attempt i st))) d)
                <> 0)) /\
    (bytes = S -> S = 0 \/ Z.rem S block_size <> 0 ->
     attempt i st =
     Finished (put_file_buffer
                 (set_fragment (is_fragment (inodes st i)) b) st1)).
Proof.
  intros S last_read bytes probe Hlog HS Hmax Hopen Hk Hfull Hlast.
  destruct (attempt_reaches_after_loop i st k Hlog HS Hmax Hopen Hk Hfull
              Hlast)
    as (b & st1 & Hatt & Hro & Hlen & Hfs & Hino & Hprobe & Hsq & Hsz &
        Hfsz & Herr).
  fold S in Hatt, Hfsz. fold last_read in Hatt, Hsz. fold bytes in Hatt.
  fold probe in Hprobe.
  exists b, st1. rewrite Hatt, <- Hino.
  destruct (after_loop_probe i S bytes b st1) as (P1 & P2 & P3).
  split; [exact Hro |]. split; [exact Hlen |]. split; [exact Hfs |].
  split; [reflexivity |]. split; [exact Hsq |]. split; [exact Hsz |].
  split; [exact Hfsz |]. split; [exact Herr |].
  split; [intros Hne; apply P1; congruence |].
  split; [| intros Heq Hor; apply P3; [congruence | exact Hor]].
  intros Heq Hnz Hrem.
  specialize (P2 (eq_sym Heq) Hnz Hrem).
  cbn zeta in P2 |- *.
  change (fst (read_bytes 1 st1)) with (shead (reads (env st1))) in P2.
  rewrite Hprobe in P2.
  destruct P2 as (T & A & B & C & D).
  split; [rewrite T, reads_of_app; reflexivity |].
  split; [exact A |]. split; [exact B |]. split; [exact C | exact D].
Qed.

(** ** The chunks of a generator, one buffer each *)

Lemma process_loop_step (i : nat) (fuel : nat) (prev : option file_buffer)
    (bytes : Z) (st : state) :
  reads (env st) 0%nat <> 0 ->
  reads (env st) 0%nat <> -1 ->
  Forall nonterminal (olist prev) ->
  exists st1,
    process_loop (Datatypes.S fuel) i prev bytes st =
      process_loop fuel i
        (Some (chunk_buffer (i_noD (inodes st i)) (seq st) (reads (env st))
                            0))
        (bytes + reads (env st) 0%nat) st1 /\
    forwarded st1 = forwarded st ++ olist prev /\
    to_main st1 = to_main st /\
    inodes st1 = inodes st /\
    waits (env st1) = waits (env st) /\
    seq st1 = seq st + 1 /\
    reads (env st1) = stail (reads (env st)) /\
    cache_bufs (env st1) = stail (cache_bufs (env st)).
Proof.
  intros Hnz Hne Hprev.
  simpl. unfold shead.
  destruct (Z.eqb_spec (reads (env st) 0%nat) (-1)); [contradiction |].
  destruct (Z.eqb_spec (reads (env st) 0%nat) 0); [contradiction |].
  eexists. split.
  - f_equal. f_equal. unfold chunk_buffer, set_fragment, set_error,
      set_file_size, set_size, set_noD, set_sequence. simpl.
    f_equal. lia.
  - destruct prev as [p |].
    + apply Forall_inv in Hprev.
      rewrite (put_file_buffer_nonterminal _ _ Hprev).
      unfold forwarded. simpl. rewrite !puts_app. simpl.
      rewrite !app_nil_r. repeat split.
    + unfold forwarded. simpl. rewrite !puts_app. simpl.
      rewrite !app_nil_r. repeat split.
Qed.

Lemma chunk_buffer_nonterminal (tagD first : Z) (s : stream Z) (j : nat) :
  nonterminal (chunk_buffer tagD first s j).
Proof. repeat split. Qed.

Lemma chunk_buffer_shift (tagD first : Z) (s : stream Z) (k : nat) :
  map (chunk_buffer tagD (first + 1) (stail s)) (List.seq 0 k) =
  map (chunk_buffer tagD first s) (List.seq 1 k).
Proof.
  rewrite <- seq_shift, map_map. apply map_ext. intros j.
  unfold chunk_buffer, stail. f_equal. lia.
Qed.

Lemma process_loop_data (i : nat) (k : nat) :
  forall (fuel : nat) (prev : option file_buffer) (bytes : Z) (st : state),
  data_chunks (Datatypes.S k) st ->
  Forall nonterminal (olist prev) ->
  exists st1,
    process_loop (Datatypes.S k + fuel) i prev bytes st =
      process_loop fuel i
        (Some (chunk_buffer (i_noD (inodes st i)) (seq st) (reads (env st))
                            k))
        (bytes + stream_sum (reads (env st)) (Datatypes.S k)) st1 /\
    forwarded st1 =
      forwarded st ++ olist prev ++
      map (chunk_buffer (i_noD (inodes st i)) (seq st) (reads (env st)))
          (List.seq 0 k) /\
    to_main st1 = to_main st /\
    inodes st1 = inodes st /\
    waits (env st1) = waits (env st) /\
    seq st1 = seq st + Z.of_nat (Datatypes.S k) /\
    (forall j, reads (env st1) j = reads (env st) (Datatypes.S k + j)%nat) /\
    (forall j, cache_bufs (env st1) j
               = cache_bufs (env st) (Datatypes.S k + j)%nat).
Proof.
  induction k as [| k IH]; intros fuel prev bytes st Hdata Hprev;
    destruct (Hdata 0%nat ltac:(lia)) as [Hnz Hne].
  - destruct (process_loop_step i fuel prev bytes st Hnz Hne Hprev)
      as (st0 & Hrun0 & Hfwd0 & Hmain0 & Hino0 & Hw0 & Hseq0 & Hr0 & Hc0).
    exists st0. split.
    + cbn [Nat.add]. rewrite Hrun0. cbn [stream_sum]. unfold shead.
      rewrite Z.add_0_r. reflexivity.
    + rewrite Hfwd0, Hr0, Hc0. simpl. rewrite app_nil_r.
      repeat split; assumption.
  - destruct (process_loop_step i (Datatypes.S k + fuel) prev bytes st
                Hnz Hne Hprev)
      as (st0 & Hrun0 & Hfwd0 & Hmain0 & Hino0 & Hw0 & Hseq0 & Hr0 & Hc0).
    destruct (IH fuel
                (Some (chunk_buffer (i_noD (inodes st i)) (seq st)
                         (reads (env st)) 0))
                (bytes + reads (env st) 0%nat) st0)
      as (st1 & Hrun & Hfwd & Hmain & Hino & Hw & Hseq & Hr & Hc).
    + intros j Hj. rewrite Hr0. unfold stail. apply Hdata. lia.
    + constructor; [apply chunk_buffer_nonterminal | constructor].
    + exists st1. split.
      { cbn [Nat.add] in Hrun0, Hrun |- *.
        rewrite Hrun0, Hrun, Hino0, Hseq0, Hr0. f_equal.
        - f_equal. unfold chunk_buffer, stail. f_equal. lia.
        - cbn [stream_sum]. unfold shead. lia. }
      rewrite Hfwd, Hfwd0, Hmain, Hmain0, Hino, Hino0, Hw, Hw0, Hseq, Hseq0.
      rewrite Hr0, chunk_buffer_shift.
      split.
      { rewrite <- !app_assoc. reflexivity. }
      repeat split; try lia.
      * intros j. rewrite Hr, Hr0. unfold stail. f_equal.
      * intros j. rewrite Hc, Hc0. unfold stail. f_equal.
Qed.

Lemma stream_sum_list (k : nat) :
  forall s : stream Z, stream_sum s k = sum_list (map s (List.seq 0 k)).
Proof.
  induction k as [| k IH]; intros s; [reflexivity |].
  cbn [stream_sum List.seq map sum_list fold_right].
  rewrite IH, <- seq_shift, map_map. reflexivity.
Qed.

(** X12: a read error in the middle of a generator's output.  When the
    generator has delivered [k + 1] chunks and the next read fails,
    [reader_read_process] returns: the first [k] chunks are forwarded as
    ordinary blocks, the buffer that met the error is not forwarded and its
    number is given back, and the buffer of chunk [k + 1] is forwarded in
    its place on the main queue, marked with an error.  The child is not
    waited for and no size is recorded in the inode.  The [int] counter is
    taken to have room for the [k + 2] numbers the call assigns. *)
Theorem reader_read_process_read_error (fuel k : nat) (d : dir_ent)
    (st : state) :
  let chunk :=
    chunk_buffer (i_noD (inodes st (inode d))) (seq st) (reads (env st)) in
  shead (execs (env st)) <> 0 ->
  data_chunks (Datatypes.S k) st ->
  reads (env st) (Datatypes.S k) = -1 ->
  (Datatypes.S k < fuel)%nat ->
  0 <= seq st ->
  seq st + Z.of_nat k + 2 <= INT_MAX ->
  exists st',
    reader_read_process fuel d st = Done st' /\
    forwarded st' =
      forwarded st ++ map chunk (List.seq 0 k) ++ [set_error TRUE (chunk k)] /\
    to_main st' = to_main st ++ [set_error TRUE (chunk k)] /\
    seq st' = seq st + Z.of_nat (Datatypes.S k) /\
    0 <= seq st' < INT_MAX /\
    inodes st' = inodes st /\
    waits (env st') = waits (env st) /\
    forall j, cache_bufs (env st') j
              = cache_bufs (env st) (Datatypes.S (Datatypes.S k) + j)%nat.
Proof.
  intros chunk Hexec Hdata Herr Hfuel Hseq0 Hmax.
  replace fuel with (Datatypes.S k + Datatypes.S (fuel - Datatypes.S k - 1))%nat
    by lia.
  unfold reader_read_process. cbn [pseudo_exec_file fst snd].
  destruct (Z.eqb_spec (shead (execs (env st))) 0); [contradiction |].
  match goal with
  | |- exists st', process_loop _ _ _ _ ?st0 = _ /\ _ =>
      destruct (process_loop_data (inode d) k
                  (Datatypes.S (fuel - Datatypes.S k - 1)) None 0 st0
                  Hdata (Forall_nil _))
        as (st1 & Hrun & Hfwd & Hmain & Hino & Hw & Hseq & Hr & Hc)
  end.
  rewrite Hrun. clear Hrun.
  simpl in Hfwd, Hmain, Hino, Hw, Hseq, Hr, Hc.
  assert (Hr1 : shead (reads (env st1)) = -1).
  { unfold shead. rewrite Hr, Nat.add_0_r. exact Herr. }
  cbn [process_loop]. simpl. rewrite Hr1. simpl.
  eexists. split; [reflexivity |].
  unfold read_err_process.
  rewrite put_file_buffer_forwarded, put_file_buffer_queue_put.
  unfold forwarded in *. unfold route, routed, cache_block_put, seq_decr.
  simpl. rewrite !puts_app, Hfwd, Hmain, Hseq, Hino, Hw. simpl.
  rewrite ?app_nil_r, <- ?app_assoc.
  repeat split; try reflexivity; try lia.
  intros j. unfold stail. rewrite Hc. f_equal. lia.
Qed.

(** X13: the chunks of a generator that ends well.  When the generator
    delivers [k + 1] chunks and then end of stream, and exits with status
    0, [reader_read_process] forwards one buffer a chunk, in order, under
    consecutive sequence numbers and with the inode's compression tag,
    each holding as many bytes as its read delivered; the size it records
    in the inode is the sum of the sizes of the buffers it forwarded.  The
    [int] counter is taken to have room for the [k + 2] numbers the call
    assigns, and the numbers forwarded lie in its range. *)
Theorem reader_read_process_sizes (fuel k : nat) (d : dir_ent) (st : state) :
  shead (execs (env st)) <> 0 ->
  stream_ends_after (Datatypes.S k) st ->
  wait_ok (shead (waits (env st))) ->
  (Datatypes.S k < fuel)%nat ->
  0 <= seq st ->
  seq st + Z.of_nat k + 2 <= INT_MAX ->
  exists st' bufs,
    reader_read_process fuel d st = Done st' /\
    forwarded st' = forwarded st ++ bufs /\
    map size bufs = map (reads (env st)) (List.seq 0 (Datatypes.S k)) /\
    map sequence bufs =
      map (fun j => seq st + Z.of_nat j) (List.seq 0 (Datatypes.S k)) /\
    Forall (fun b => noD b = i_noD (inodes st (inode d)) /\ error b = 0 /\
                     0 <= sequence b < INT_MAX)
           bufs /\
    sum_list (map size bufs) = st_size (buf (inodes st' (inode d))) /\
    seq st' = seq st + Z.of_nat (Datatypes.S k).
Proof.
  intros Hexec [Hdata Hend] Hok Hfuel Hseq0 Hmax.
  replace fuel with (Datatypes.S k + Datatypes.S (fuel - Datatypes.S k - 1))%nat
    by lia.
  unfold reader_read_process. cbn [pseudo_exec_file fst snd].
  destruct (Z.eqb_spec (shead (execs (env st))) 0); [contradiction |].
  match goal with
  | |- exists st' bufs, process_loop _ _ _ _ ?st0 = _ /\ _ =>
      destruct (process_loop_data (inode d) k
                  (Datatypes.S (fuel - Datatypes.S k - 1)) None 0 st0
                  Hdata (Forall_nil _))
        as (st1 & Hrun & Hfwd & Hmain & Hino & Hw & Hseq & Hr & Hc)
  end.
  rewrite Hrun. clear Hrun.
  cbn [env set_env reads seq inodes trace waits olist app] in Hfwd, Hmain,
    Hino, Hw, Hseq, Hr |- *.
  rewrite stream_sum_list.
  remember (List.seq 0 (Datatypes.S k)) as idx eqn:Hidx.
  remember (Z.of_nat (Datatypes.S k)) as zk eqn:Hzk.
  remember (sum_list (map (reads (env st)) idx)) as total eqn:Htotal.
  remember (chunk_buffer (i_noD (inodes st (inode d))) (seq st)
              (reads (env st))) as chunk eqn:Hchunk.
  assert (Hr1 : shead (reads (env st1)) = 0).
  { unfold shead. rewrite Hr, Nat.add_0_r. exact Hend. }
  assert (Herr : error (chunk k) = 0) by (rewrite Hchunk; reflexivity).
  cbn [process_loop]. simpl. rewrite Hr1. simpl.
  unfold process_finish. simpl. rewrite Hw.
  rewrite (wait_ok_test _ Hok).
  eexists.
  exists (map chunk (List.seq 0 k) ++
          [set_fragment
             (is_fragment (set_st_size total (inodes st (inode d))))
             (set_file_size total (chunk k))]).
  split; [reflexivity |].
  rewrite put_file_buffer_forwarded, inodes_put_file_buffer,
    seq_put_file_buffer.
  unfold forwarded in *. unfold routed, cache_block_put, seq_decr.
  simpl. rewrite !puts_app, Hfwd, Hseq, Hino, Nat.eqb_refl, !Z.add_0_r, Herr.
  simpl. rewrite !app_nil_r, <- !app_assoc.
  split; [reflexivity |].
  rewrite !map_app, !map_map. simpl.
  rewrite Htotal, Hidx, seq_S, !map_app. simpl.
  split.
  { f_equal; [| rewrite Hchunk; reflexivity].
    apply map_ext. intros j. rewrite Hchunk. reflexivity. }
  split.
  { f_equal; [| rewrite Hchunk; reflexivity].
    apply map_ext. intros j. rewrite Hchunk. reflexivity. }
  split.
  { apply Forall_app. split.
    - apply Forall_forall. intros b Hb.
      apply in_map_iff in Hb as (j & <- & Hj). apply in_seq in Hj.
      rewrite Hchunk. split; [reflexivity |]. split; [reflexivity |].
      simpl. lia.
    - constructor; [| constructor].
      rewrite Hchunk. split; [reflexivity |]. split; [reflexivity |].
      simpl. lia. }
  split; [| lia].
  f_equal. f_equal; [| rewrite Hchunk; reflexivity].
  apply map_ext. intros j. rewrite Hchunk. reflexivity.
Qed.

(** ** The bytes of an unchanging file *)

Lemma sum_list_app (l1 l2 : list Z) :
  sum_list (l1 ++ l2) = sum_list l1 + sum_list l2.
Proof.
  induction l1 as [| a l1 IH]; simpl; [reflexivity |].
  unfold sum_list in *. simpl. rewrite IH. lia.
Qed.

Lemma full_block_sizes (tagD S first : Z) (frag : bool) (total : nat)
    (n : nat) :
  0 < block_size ->
  Z.of_nat n * block_size <= S ->
  map size (map (block_buffer tagD S first frag total) (List.seq 0 n)) =
  repeat block_size n.
Proof.
  intros HB Hn. rewrite map_map.
  induction n as [| n IH]; [reflexivity |].
  rewrite seq_S, map_app, IH by nia.
  cbn [repeat]. rewrite repeat_cons. f_equal. simpl. f_equal.
  assert (Z.of_nat (Datatypes.S n) = Z.of_nat n + 1) by lia. nia.
Qed.

Lemma sum_list_repeat (x : Z) (n : nat) :
  sum_list (repeat x n) = Z.of_nat n * x.
Proof.
  induction n as [| n IH]; [reflexivity |].
  change (sum_list (repeat x (Datatypes.S n)))
    with (x + sum_list (repeat x n)).
  rewrite IH. lia.
Qed.

(** X14: the bytes of an unchanging file.  For a regular file that opens
    and reads as an unchanging file of its stated size, with a block count
    that fits the block counter, every buffer forwarded but the last holds
    a full block
    and has the fragment flag off, the last holds the rest, which is
    between 0 and a block, every buffer carries the inode's compression
    tag, and the sizes of the buffers add up to the stated size. *)
Theorem reader_read_file_sizes (fuel : nat) (d : dir_ent) (st : state) :
  let ino := inodes st (inode d) in
  let S := st_size (buf ino) in
  0 <= block_log ->
  read ino = false ->
  0 <= S ->
  (S + block_size - 1) / block_size <= INT_MAX ->
  shead (opens (env st)) <> -1 ->
  static_reads S 0 st ->
  exists st' pre last,
    reader_read_file (Datatypes.S fuel) d st = Done st' /\
    forwarded st' = forwarded st ++ pre ++ [last] /\
    Forall (fun b => size b = block_size /\ fragment b = false) pre /\
    size last = S - Z.of_nat (length pre) * block_size /\
    0 <= size last <= block_size /\
    Forall (fun b => noD b = i_noD ino) (pre ++ [last]) /\
    sum_list (map size (pre ++ [last])) = S.
Proof.
  intros ino S Hlog Hread HS Hmax Hopen Hr.
  destruct (reader_read_file_static fuel d st Hlog Hread HS Hmax Hopen Hr)
    as (st' & Hrun & Hfwd & _).
  destruct (ceil_bounds S Hlog HS) as (Hn0 & Hz & Hpos).
  pose proof (block_size_pos Hlog) as HB.
  fold ino in Hfwd. unfold file_buffers in Hfwd. fold S in Hfwd.
  unfold block_count in Hfwd.
  set (nb := (S + block_size - 1) / block_size) in *.
  assert (HN : exists m, Z.to_nat (Z.max 1 nb) = Datatypes.S m /\
                         Z.of_nat m * block_size <= S /\
                         S <= (Z.of_nat m + 1) * block_size).
  { exists (Nat.pred (Z.to_nat (Z.max 1 nb))). split; [lia |].
    destruct (Z.eq_dec S 0) as [H0 | H0].
    - rewrite (Hz H0). change (Z.to_nat (Z.max 1 0)) with 1%nat.
      cbn [Nat.pred Z.of_nat]. lia.
    - specialize (Hpos ltac:(lia)). assert (1 <= nb) by nia.
      rewrite Z.max_r by lia.
      replace (Z.of_nat (Nat.pred (Z.to_nat nb))) with (nb - 1) by lia.
      lia. }
  destruct HN as (m & HN & Hm1 & Hm2).
  rewrite HN, seq_S, map_app in Hfwd. simpl in Hfwd.
  set (f := block_buffer (i_noD ino) S (seq st) (is_fragment ino)
              (Datatypes.S m)) in *.
  assert (Hsizes : map size (map f (List.seq 0 m)) = repeat block_size m)
    by (apply full_block_sizes; [exact HB | exact Hm1]).
  assert (Hlen : length (map f (List.seq 0 m)) = m)
    by (rewrite length_map, length_seq; reflexivity).
  assert (Hlast : size (f m) = S - Z.of_nat m * block_size).
  { unfold f, block_buffer. simpl. lia. }
  exists st', (map f (List.seq 0 m)), (f m).
  split; [exact Hrun |]. split; [exact Hfwd |].
  split.
  { apply Forall_forall. intros b Hb.
    apply in_map_iff in Hb as (j & <- & Hj). apply in_seq in Hj.
    unfold f, block_buffer. simpl.
    destruct (Nat.eqb_spec j m); [lia |].
    split; [| reflexivity]. apply Z.min_l. nia. }
  rewrite Hlen. split; [exact Hlast |]. split; [lia |].
  split.
  { apply Forall_app. split.
    - apply Forall_forall. intros b Hb.
      apply in_map_iff in Hb as (j & <- & _). reflexivity.
    - constructor; [reflexivity | constructor]. }
  rewrite map_app, sum_list_app, Hsizes, sum_list_repeat.
  cbn [map]. rewrite Hlast. unfold sum_list. cbn [fold_right]. lia.
Qed.

(** ** A file that changed size once *)

Lemma restat_again_marked (i : nat) (read_size : Z) (b : file_buffer)
    (st st' : state) :
  restat i read_size b st = Again st' -> retry_marked st'.
Proof.
  unfold restat. simpl.
  destruct (shead (fstats (env st))) as [res buf2]; simpl.
  destruct (res =? -1); [discriminate |].
  destruct (negb (read_size =? st_size buf2)); [| discriminate].
  intros H. injection H as <-.
  unfold retry_marked.
  rewrite put_file_buffer_forwarded, put_file_buffer_queue_put.
  unfold route, routed. simpl.
  eexists. eexists. eexists. repeat split.
Qed.

Lemma after_loop_again_marked (i : nat) (read_size bytes : Z)
    (b : file_buffer) (st st' : state) :
  after_loop i read_size bytes b st = Again st' -> retry_marked st'.
Proof.
  unfold after_loop.
  destruct (negb (read_size =? bytes)); [apply restat_again_marked |].
  destruct (negb (read_size =? 0) && (Z.rem read_size block_size =? 0));
    [| discriminate].
  simpl. destruct (shead (reads (env st)) =? -1); [discriminate |].
  destruct (negb (shead (reads (env st)) =? 0)); [| discriminate].
  apply restat_again_marked.
Qed.

Lemma read_blocks_again_marked (n : nat) (i : nat) (read_size : Z) :
  forall (blocks bytes : Z) (st st' : state),
  read_blocks n i read_size blocks bytes st = Again st' -> retry_marked st'.
Proof.
  induction n as [| n IH]; intros blocks bytes st st'; simpl.
  - destruct (shead (reads (env st)) =? -1); [discriminate |].
    destruct (blocks >? 1).
    + destruct (shead (reads (env st)) <? block_size);
        [apply restat_again_marked |].
      destruct (blocks - 1 >? 0);
        [discriminate | apply after_loop_again_marked].
    + destruct (blocks - 1 >? 0);
        [discriminate | apply after_loop_again_marked].
  - destruct (shead (reads (env st)) =? -1); [discriminate |].
    destruct (blocks >? 1).
    + destruct (shead (reads (env st)) <? block_size);
        [apply restat_again_marked |].
      destruct (blocks - 1 >? 0); [apply IH | apply after_loop_again_marked].
    + destruct (blocks - 1 >? 0); [apply IH | apply after_loop_again_marked].
Qed.

Lemma attempt_again_marked (i : nat) (st st' : state) :
  attempt i st = Again st' -> retry_marked st'.
Proof.
  unfold attempt. simpl.
  destruct (shead (opens (env st)) =? -1); [discriminate |].
  apply read_blocks_again_marked.
Qed.

Lemma again_static (fuel : nat) (i : nat) (st : state) :
  let ino := inodes st i in
  let S := st_size (buf ino) in
  0 <= block_log ->
  0 <= S ->
  (S + block_size - 1) / block_size <= INT_MAX ->
  shead (opens (env st)) <> -1 ->
  static_reads S 0 st ->
  exists st',
    again (Datatypes.S fuel) i st = Done st' /\
    forwarded st' = forwarded st ++ file_buffers ino (seq st) /\
    seq st' = seq st + block_count S /\
    inodes st' = inodes st.
Proof.
  intros ino S Hlog HS Hmax Hopen Hr.
  destruct (ceil_bounds S Hlog HS) as (Hn0 & Hz & Hpos).
  pose proof (block_size_pos Hlog) as HB.
  cbn [again]. unfold attempt. simpl.
  destruct (Z.eqb_spec (shead (opens (env st))) (-1)); [contradiction |].
  rewrite Z.shiftr_div_pow2 by assumption.
  rewrite <- block_size_pow2 by assumption.
  change (inodes st i) with ino.
  change (st_size (buf ino)) with S.
  rewrite to_int_small by (unfold INT_MAX in *; lia).
  set (nb := (S + block_size - 1) / block_size) in *.
  match goal with
  | |- exists st', match read_blocks ?m _ _ _ _ ?st1 with _ => _ end = _ /\ _ =>
      destruct (read_blocks_static i S (Z.to_nat (Z.max 1 nb)) m
                  nb 0 0%nat st1) as (st' & Hrun & Hfwd & Hseq & Hino)
  end.
  - exact Hlog.
  - destruct (Z.eq_dec S 0) as [H0 | H0].
    + left. split; [exact H0 |]. rewrite (Hz H0). reflexivity.
    + right. split; [lia |]. rewrite Z2Nat.id by lia.
      specialize (Hpos ltac:(lia)).
      assert (1 <= nb) by nia. rewrite Z.max_r by lia. exact Hpos.
  - reflexivity.
  - rewrite Z2Nat.id by lia. reflexivity.
  - reflexivity.
  - exact Hr.
  - assert (Hlen : Datatypes.S (Z.to_nat (nb - 1)) = Z.to_nat (Z.max 1 nb)).
    { destruct (Z.eq_dec S 0) as [H0 | H0].
      - rewrite (Hz H0). reflexivity.
      - specialize (Hpos ltac:(lia)). assert (1 <= nb) by nia.
        rewrite Z.max_r by lia. lia. }
    rewrite Hlen in Hfwd, Hseq.
    exists st'. rewrite Hrun. split; [reflexivity |].
    rewrite Hfwd, Hseq, Hino.
    unfold file_buffers, block_count, forwarded.
    cbn [trace seq inodes set_env].
    rewrite Z.sub_0_r. fold ino S nb.
    rewrite Z2Nat.id by lia.
    repeat split.
Qed.

(** X15: a file that changed size once.  When the first attempt on a file
    ends in a retry, and from then on the file opens and reads as an
    unchanging file of the size the fresh stat reported, [reader_read_file]
    returns after the second attempt.  Downstream sees what the first
    attempt forwarded, ending in a buffer with [error = 2] on the main
    queue, followed by the complete run of buffers of the file at its new
    size, numbered on from there; the new size differs from the old. *)
Theorem reader_read_file_retry (fuel : nat) (d : dir_ent) (st st1 : state) :
  let i := inode d in
  let S1 := st_size (buf (inodes st1 i)) in
  0 <= block_log ->
  read (inodes st i) = false ->
  attempt i (update_inode i (set_read true) st) = Again st1 ->
  0 <= S1 ->
  (S1 + block_size - 1) / block_size <= INT_MAX ->
  shead (opens (env st1)) <> -1 ->
  static_reads S1 0 st1 ->
  exists st',
    reader_read_file (Datatypes.S (Datatypes.S fuel)) d st = Done st' /\
    retry_marked st1 /\
    S1 <> st_size (buf (inodes st i)) /\
    forwarded st' = forwarded st1 ++ file_buffers (inodes st1 i) (seq st1) /\
    seq st' = seq st1 + block_count S1 /\
    inodes st' = inodes st1.
Proof.
  intros i S1 Hlog Hread Hagain HS Hmax Hopen Hr.
  destruct (again_static fuel i st1 Hlog HS Hmax Hopen Hr)
    as (st' & Hrun & Hfwd & Hseq & Hino).
  exists st'. split.
  - unfold reader_read_file. fold i. rewrite Hread.
    change (again (Datatypes.S (Datatypes.S fuel)) i
              (update_inode i (set_read true) st))
      with (match attempt i (update_inode i (set_read true) st) with
            | Finished st' => Done st'
            | Again st' => again (Datatypes.S fuel) i st'
            | Fuel st' => OutOfFuel st'
            end).
    rewrite Hagain. exact Hrun.
  - split; [exact (attempt_again_marked _ _ _ Hagain) |].
    split.
    + pose proof (attempt_again _ _ _ Hagain) as Hne.
      simpl in Hne. rewrite Nat.eqb_refl in Hne. exact Hne.
    + split; [exact Hfwd |]. split; [exact Hseq | exact Hino].
Qed.

(** ** The inodes a reader writes *)

Ltac fr H :=
  unfold others_kept in *; intros j Hj;
  repeat first [rewrite inodes_put_file_buffer | progress simpl];
  repeat match goal with
         | |- context [Nat.eqb j ?x] =>
             destruct (Nat.eqb_spec j x); [contradiction |]
         end;
  apply H; exact Hj.

Lemma restat_others_kept (s : state) (i : nat) (read_size : Z)
    (b : file_buffer) (st : state) :
  others_kept i s st ->
  others_kept i s (result_state (restat i read_size b st)).
Proof.
  intros H. unfold restat, read_err, read_err2. simpl.
  destruct (shead (fstats (env st))) as [res buf2].
  destruct (res =? -1); [| destruct (negb _)]; fr H.
Qed.

Lemma after_loop_others_kept (s : state) (i : nat) (read_size bytes : Z)
    (b : file_buffer) (st : state) :
  others_kept i s st ->
  others_kept i s (result_state (after_loop i read_size bytes b st)).
Proof.
  intros H. unfold after_loop.
  destruct (negb (read_size =? bytes));
    [apply restat_others_kept; exact H |].
  destruct (_ && _); simpl; [| fr H].
  destruct (_ =? -1); [unfold read_err, read_err2; fr H |].
  destruct (negb _); simpl; [apply restat_others_kept |]; fr H.
Qed.

Lemma read_blocks_others_kept (s : state) (n : nat) (i : nat)
    (read_size : Z) :
  forall (blocks bytes : Z) (st : state),
  others_kept i s st ->
  others_kept i s (result_state (read_blocks n i read_size blocks bytes st)).
Proof.
  induction n as [| n IH]; intros blocks bytes st H; simpl;
    (destruct (_ =? -1); [unfold read_err, read_err2; fr H |]);
    (destruct (blocks >? 1);
     [destruct (_ <? _); [apply restat_others_kept; fr H |] |]);
    (destruct (blocks - 1 >? 0);
     [| apply after_loop_others_kept; fr H]);
    simpl; try (apply IH); fr H.
Qed.

Lemma attempt_others_kept (s : state) (i : nat) (st : state) :
  others_kept i s st -> others_kept i s (result_state (attempt i st)).
Proof.
  intros H. unfold attempt. simpl.
  destruct (_ =? -1); simpl.
  - unfold read_err2. fr H.
  - apply read_blocks_others_kept. fr H.
Qed.

Lemma again_others_kept (s : state) (fuel : nat) (i : nat) :
  forall st : state,
  others_kept i s st -> others_kept i s (outcome_state (again fuel i st)).
Proof.
  induction fuel as [| fuel IH]; intros st H; simpl; [exact H |].
  pose proof (attempt_others_kept s i st H) as Ha.
  destruct (attempt i st); simpl in *; auto.
Qed.

(** X16: reading one file writes no other file's inode.  Whatever the
    environment does and however the call ends, [reader_read_file] leaves
    every inode but the entry's own exactly as it was. *)
Theorem reader_read_file_writes_own_inode (fuel : nat) (d : dir_ent)
    (st : state) (j : nat) :
  j <> inode d ->
  inodes (outcome_state (reader_read_file fuel d st)) j = inodes st j.
Proof.
  intros Hj. unfold reader_read_file.
  destruct (read _); [reflexivity |].
  apply (again_others_kept st fuel (inode d)); [| exact Hj].
  intros j' Hj'. simpl.
  destruct (Nat.eqb_spec j' (inode d)); [contradiction | reflexivity].
Qed.

Lemma read_err_process_inodes (prev : option file_buffer) (b : file_buffer)
    (st : state) :
  inodes (read_err_process prev b st) = inodes st.
Proof.
  unfold read_err_process, seq_decr, cache_block_put.
  destruct prev; rewrite inodes_put_file_buffer; reflexivity.
Qed.

Lemma process_finish_inodes (i : nat) (prev : option file_buffer)
    (b : file_buffer) (bytes : Z) (st : state) :
  inodes (process_finish i prev b bytes st) =
  inodes (update_inode i (set_st_size bytes) st).
Proof.
  unfold process_finish. simpl.
  destruct (_ || _).
  - rewrite read_err_process_inodes. reflexivity.
  - destruct prev; unfold seq_decr, cache_block_put;
      rewrite inodes_put_file_buffer; reflexivity.
Qed.

Lemma process_loop_inodes (fuel : nat) (i : nat) :
  forall (prev : option file_buffer) (bytes : Z) (st : state),
  let st' := outcome_state (process_loop fuel i prev bytes st) in
  inodes st' = inodes st \/
  exists n, inodes st' = inodes (update_inode i (set_st_size n) st).
Proof.
  induction fuel as [| fuel IH]; intros prev bytes st; simpl;
    [left; reflexivity |].
  destruct (_ =? -1); [| destruct (_ =? 0)]; simpl.
  - left. rewrite read_err_process_inodes. reflexivity.
  - right. eexists. rewrite process_finish_inodes. reflexivity.
  - match goal with
    | |- context [process_loop fuel i ?p ?b ?st0] =>
        destruct (IH p b st0) as [H | [n H]]
    end.
    + left. rewrite H. destruct prev; rewrite ?inodes_put_file_buffer;
        reflexivity.
    + right. exists n. rewrite H. simpl.
      destruct prev; rewrite ?inodes_put_file_buffer; reflexivity.
Qed.

(** X17: what the process reader writes.  Whatever the environment does
    and however the call ends, [reader_read_process] leaves every inode
    but the entry's own exactly as it was, and of its own inode it writes
    at most the size: in particular it never sets the [read] flag. *)
Theorem reader_read_process_writes_size_only (fuel : nat) (d : dir_ent)
    (st : state) :
  let st' := outcome_state (reader_read_process fuel d st) in
  (forall j, j <> inode d -> inodes st' j = inodes st j) /\
  (inodes st' (inode d) = inodes st (inode d) \/
   exists n, inodes st' (inode d) = set_st_size n (inodes st (inode d))) /\
  read (inodes st' (inode d)) = read (inodes st (inode d)).
Proof.
  intros st'.
  assert (H : inodes st' = inodes st \/
              exists n, inodes st' =
                        inodes (update_inode (inode d) (set_st_size n) st)).
  { subst st'. unfold reader_read_process. simpl.
    destruct (_ =? 0); simpl.
    - left. rewrite ?read_err_process_inodes. reflexivity.
    - match goal with
      | |- context [process_loop fuel ?i ?p ?b ?st0] =>
          destruct (process_loop_inodes fuel i p b st0) as [H | [n H]]
      end.
      + left. exact H.
      + right. exists n. exact H. }
  destruct H as [H | [n H]]; rewrite H; simpl.
  - split; [reflexivity |]. split; [left; reflexivity | reflexivity].
  - rewrite Nat.eqb_refl. split.
    + intros j Hj. destruct (Nat.eqb_spec j (inode d));
        [contradiction | reflexivity].
    + split; [right; exists n; reflexivity | reflexivity].
Qed.

(** ** A file that keeps changing size *)

Lemma restat_again_env (i : nat) (read_size : Z) (b : file_buffer)
    (st st' : state) :
  restat i read_size b st = Again st' ->
  opens (env st') = opens (env st) /\
  fstats (env st') = stail (fstats (env st)).
Proof.
  unfold restat. simpl.
  destruct (shead (fstats (env st))) as [res buf2]; simpl.
  destruct (res =? -1); [discriminate |].
  destruct (negb (read_size =? st_size buf2)); [| discriminate].
  intros H. injection H as <-.
  rewrite env_put_file_buffer. split; reflexivity.
Qed.

Lemma after_loop_again_env (i : nat) (read_size bytes : Z)
    (b : file_buffer) (st st' : state) :
  after_loop i read_size bytes b st = Again st' ->
  opens (env st') = opens (env st) /\
  fstats (env st') = stail (fstats (env st)).
Proof.
  unfold after_loop.
  destruct (negb (read_size =? bytes)); [apply restat_again_env |].
  destruct (negb (read_size =? 0) && (Z.rem read_size block_size =? 0));
    [| discriminate].
  simpl. destruct (shead (reads (env st)) =? -1); [discriminate |].
  destruct (negb (shead (reads (env st)) =? 0)); [| discriminate].
  intros H. apply restat_again_env in H. exact H.
Qed.

Lemma read_blocks_again_env (n : nat) (i : nat) (read_size : Z) :
  forall (blocks bytes : Z) (st st' : state),
  read_blocks n i read_size blocks bytes st = Again st' ->
  opens (env st') = opens (env st) /\
  fstats (env st') = stail (fstats (env st)).
Proof.
  induction n as [| n IH]; intros blocks bytes st st'; simpl;
    (destruct (shead (reads (env st)) =? -1); [discriminate |]);
    (destruct (blocks >? 1);
     [destruct (shead (reads (env st)) <? block_size);
      [intros H; apply restat_again_env in H; exact H |] |]);
    (destruct (blocks - 1 >? 0);
     [| intros H; apply after_loop_again_env in H;
        rewrite ?env_put_file_buffer in H; exact H]);
    try discriminate;
    intros H; apply IH in H; rewrite ?env_put_file_buffer in H; exact H.
Qed.

Lemma attempt_again_env (i : nat) (st st' : state) :
  attempt i st = Again st' ->
  opens (env st') = stail (opens (env st)) /\
  fstats (env st') = stail (fstats (env st)).
Proof.
  unfold attempt. simpl.
  destruct (shead (opens (env st)) =? -1); [discriminate |].
  intros H. apply read_blocks_again_env in H. exact H.
Qed.

Lemma again_out_of_fuel (fuel : nat) (i : nat) :
  forall st st' : state,
  again fuel i st = OutOfFuel st' ->
  (forall n, opens (env st') n = opens (env st) (fuel + n)%nat) /\
  (forall n, fstats (env st') n = fstats (env st) (fuel + n)%nat) /\
  ((0 < fuel)%nat -> retry_marked st').
Proof.
  induction fuel as [| fuel IH]; intros st st' H.
  - injection H as <-. repeat split; intros; [lia].
  - cbn [again] in H. destruct (attempt i st) as [s1 | s1 | s1] eqn:Ha.
    + discriminate.
    + destruct (attempt_again_env _ _ _ Ha) as [Ho Hf].
      destruct (IH _ _ H) as (IHo & IHf & IHm).
      split; [| split].
      * intros n. rewrite IHo, Ho. reflexivity.
      * intros n. rewrite IHf, Hf. reflexivity.
      * intros _. destruct fuel as [| fuel].
        -- injection H as <-. exact (attempt_again_marked _ _ _ Ha).
        -- apply IHm. lia.
    + exfalso. exact (attempt_not_fuel _ _ _ Ha).
Qed.

(** X18: [reader_read_file] goes on only as long as the file keeps
    changing size.  If the call has not returned after [fuel] attempts,
    then the file had not been read before, the call has opened it [fuel]
    times and taken [fuel] fresh stats, and the last buffer it forwarded is
    a retry mark ([error = 2]) on the main queue. *)
Theorem reader_read_file_unfinished (fuel : nat) (d : dir_ent)
    (st st' : state) :
  (0 < fuel)%nat ->
  reader_read_file fuel d st = OutOfFuel st' ->
  (forall n, opens (env st') n = opens (env st) (fuel + n)%nat) /\
  (forall n, fstats (env st') n = fstats (env st) (fuel + n)%nat) /\
  retry_marked st' /\
  read (inodes st (inode d)) = false.
Proof.
  intros Hfuel Hrun. unfold reader_read_file in Hrun.
  destruct (read (inodes st (inode d))) eqn:Hread; [discriminate |].
  destruct (again_out_of_fuel _ _ _ _ Hrun) as (Ho & Hf & Hm).
  split; [exact Ho |]. split; [exact Hf |].
  split; [exact (Hm Hfuel) | reflexivity].
Qed.

End Reader.

(** * The properties on the sample inputs *)

(** The sample file answers its reads as an unchanging file does. *)
Lemma static_file_world_reads (S block_log : Z) :
  static_reads block_log S 0 (static_file_state S (block_size block_log)).
Proof.
  intros j Hj. simpl in *. rewrite Z.max_r by lia. reflexivity.
Qed.

(** The sample generator delivers its chunks and then end of stream. *)
Lemma generator_stream_ends (chunks : list Z) (exit : wait_status) :
  Forall (fun c => c <> 0 /\ c <> -1) chunks ->
  stream_ends_after (length chunks) (generator_state chunks exit).
Proof.
  intros H. split; simpl.
  - intros j Hj. rewrite Forall_forall in H. apply H. apply nth_In. exact Hj.
  - apply nth_overflow. lia.
Qed.

(** C4 as first stated fails: with block size 1024 and matching tags, a
    file of 500 bytes whose [no_fragments] flag is set meets every
    condition the claim lists, yet [is_fragment] answers no and the one
    buffer forwarded for it, its terminal buffer, has the fragment flag
    off. *)
Lemma no_fragments_blocks_eligibility :
  let ino := unfragmented_file in
  let st := initial_state (fun _ => ino) (static_file_world 500 1024) in
  (i_noF ino = 0 /\ st_size (buf ino) <> 0 /\
   st_size (buf ino) < block_size 10) /\
  is_fragment 10 0 ino = false /\
  exists st' b,
    reader_read_file 10 0 1 (DirEnt 0 []) st = Done st' /\
    forwarded st' = [b] /\
    error b = 0 /\ file_size b = 500 /\ fragment b = false.
Proof.
  intros ino st. subst ino st.
  split; [repeat split; try discriminate |].
  split; [reflexivity |].
  eexists. eexists. split; [vm_compute; reflexivity |].
  repeat split.
Qed.

(** C4 as amended, with block size 1024 on a file of 500 bytes: eligible,
    and its one buffer is flagged. *)
Lemma fragment_eligibility_witness :
  0 <= 10 /\
  (is_fragment 10 0 (regular_file 500) = true <->
   i_noF (regular_file 500) = 0 /\
   no_fragments (regular_file 500) = false /\
   st_size (buf (regular_file 500)) <> 0 /\
   (st_size (buf (regular_file 500)) < block_size 10 \/
    (always_use_fragments (regular_file 500) = true /\
     st_size (buf (regular_file 500)) mod block_size 10 <> 0))) /\
  (let st := static_file_state 500 (block_size 10) in
   exists st' pre last,
     reader_read_file 10 0 1 (DirEnt 0 []) st = Done st' /\
     forwarded st' = forwarded st ++ pre ++ [last] /\
     fragment last = is_fragment 10 0 (regular_file 500) /\
     Forall (fun b => fragment b = false) pre).
Proof.
  assert (Hlog : 0 <= 10) by lia.
  split; [exact Hlog |]. split.
  - exact (proj1 (fragment_eligibility 10 0 Hlog) (regular_file 500)).
  - intros st.
    apply (proj1 (proj2 (fragment_eligibility 10 0 Hlog)) 0%nat
             (DirEnt 0 []) st).
    + reflexivity.
    + simpl; lia.
    + vm_compute; discriminate.
    + vm_compute; discriminate.
    + apply (static_file_world_reads 500 10).
Defined.

(** C5: the code at the failing input.  A file of 2^44 bytes that opens,
    reads without error and does not change has 2^32 blocks of 4096 bytes,
    and C5 gives it 2^32 buffers.  The block count is narrowed to the
    [int] variable [blocks], which holds 0: the loop goes round once, the
    byte count does not match, the fresh stat reports the same size, and
    the one buffer forwarded is marked with an error. *)
Lemma huge_file_one_error_buffer :
  let st := static_file_state (2 ^ 44) (block_size 12) in
  read (inodes st 0%nat) = false /\
  shead (opens (env st)) <> -1 /\
  static_reads 12 (2 ^ 44) 0 st /\
  Z.max 1 ((2 ^ 44 + block_size 12 - 1) / block_size 12) = 4294967296 /\
  exists st',
    reader_read_file 12 0 1 (DirEnt 0 []) st = Done st' /\
    map error (forwarded st') = [TRUE].
Proof.
  intros st. split; [reflexivity |]. split; [discriminate |].
  split; [apply (static_file_world_reads (2 ^ 44) 12) |].
  split; [reflexivity |].
  subst st. eexists. split; vm_compute; reflexivity.
Qed.

(** X19 on an unchanging file of 2500 bytes read in blocks of 1024: three
    buffers. *)
Lemma reader_read_file_buffer_count_witness :
  let st := static_file_state 2500 1024 in
  let d := DirEnt 0 [] in
  0 <= 10 /\
  read (inodes st (inode d)) = false /\
  (2500 + block_size 10 - 1) / block_size 10 <= INT_MAX /\
  shead (opens (env st)) <> -1 /\
  static_reads 10 2500 0 st /\
  exists st' bufs,
    reader_read_file 10 0 1 d st = Done st' /\
    forwarded st' = forwarded st ++ bufs /\
    Z.of_nat (length bufs) = 3.
Proof.
  intros st d.
  assert (H0 : 0 <= 10) by lia.
  assert (H1 : read (inodes st (inode d)) = false) by reflexivity.
  assert (H2 : 0 <= st_size (buf (inodes st (inode d)))) by (simpl; lia).
  assert (H3 : (st_size (buf (inodes st (inode d))) + block_size 10 - 1)
               / block_size 10 <= INT_MAX) by (vm_compute; discriminate).
  assert (H4 : shead (opens (env st)) <> -1) by (vm_compute; discriminate).
  assert (H5 : static_reads 10 (st_size (buf (inodes st (inode d)))) 0 st)
    by apply (static_file_world_reads 2500 10).
  split; [exact H0 |]. split; [exact H1 |]. split; [exact H3 |].
  split; [exact H4 |]. split; [exact H5 |].
  destruct (reader_read_file_buffer_count 10 0 0 d st H0 H1 H2 H3 H4 H5)
    as (st' & bufs & Hrun & Hfwd & Hlen & _).
  exists st', bufs. split; [exact Hrun |]. split; [exact Hfwd |]. exact Hlen.
Defined.

(** C3 as first stated fails: of the two buffers of an unchanging file of
    2048 bytes read in blocks of 1024, the first, which is not the last
    one, carries [file_size = 2048], not -1. *)
Lemma early_block_carries_file_size :
  let st := static_file_state 2048 1024 in
  static_reads 10 2048 0 st /\
  exists st' b0 b1,
    reader_read_file 10 0 1 (DirEnt 0 []) st = Done st' /\
    forwarded st' = [b0; b1] /\
    error b0 = 0 /\ error b1 = 0 /\
    file_size b0 = 2048 /\ file_size b0 <> -1.
Proof.
  intros st. split; [apply (static_file_world_reads 2048 10) |].
  subst st. eexists. eexists. eexists. split; [vm_compute; reflexivity |].
  split; [vm_compute; reflexivity |]. simpl.
  repeat split; discriminate.
Qed.

(** C3 as amended, on an unchanging file of 2500 bytes and on a generator
    that delivers 1024, 1024 and 300 bytes. *)
Lemma file_size_of_forwarded_buffers_witness :
  (let st := static_file_state 2500 1024 in
   exists st' bufs,
     reader_read_file 10 0 1 (DirEnt 0 []) st = Done st' /\
     forwarded st' = forwarded st ++ bufs /\
     bufs <> [] /\
     Forall (fun b => file_size b = 2500) bufs) /\
  (let st := generator_state [1024; 1024; 300] (mk_wait 0 true 0) in
   exists st' pre last,
     reader_read_process 10 0 4 (DirEnt 0 []) st = Done st' /\
     forwarded st' = forwarded st ++ pre ++ [last] /\
     Forall (fun b => file_size b = -1) pre /\
     length pre = 2%nat /\
     file_size last = 2348 /\
     st_size (buf (inodes st' 0%nat)) = 2348).
Proof.
  split.
  - intros st.
    apply (proj1 (file_size_of_forwarded_buffers 10 0) 0%nat (DirEnt 0 []) st).
    + lia.
    + reflexivity.
    + simpl; lia.
    + vm_compute; discriminate.
    + vm_compute; discriminate.
    + apply (static_file_world_reads 2500 10).
  - intros st.
    apply (proj1 (proj2 (file_size_of_forwarded_buffers 10 0)) 4%nat 3%nat
             (DirEnt 0 []) st).
    + vm_compute; discriminate.
    + apply (generator_stream_ends [1024; 1024; 300]).
      repeat constructor; discriminate.
    + repeat split; vm_compute; discriminate.
    + lia.
Defined.

(** C8 as first stated fails: after the process reader has handled a
    generator that exits with status 1, the inode's [read] flag is still
    off, and a second entry that refers to the same inode runs the
    generator again and forwards a second error buffer. *)
Lemma process_reader_leaves_read_flag :
  let st := generator_state [] (mk_wait 0 true 1) in
  let d := DirEnt 0 [] in
  shead (execs (env st)) <> 0 /\
  exists st',
    reader_read_process 12 0 1 d st = Done st' /\
    map error (forwarded st') = [TRUE] /\
    read (inodes st' 0%nat) = false /\
    exists st'',
      reader_scan 12 0 is_pseudo_process 1 [d; d] st = Done st'' /\
      map error (forwarded st'') = [TRUE; TRUE].
Proof.
  intros st d. split; [discriminate |].
  subst st d. eexists. split; [vm_compute; reflexivity |].
  split; [reflexivity |]. split; [reflexivity |].
  eexists. split; vm_compute; reflexivity.
Qed.

(** C8 as amended, on a generator that delivers two chunks and exits with
    status 1. *)
Lemma reader_read_process_failed_exit_witness :
  let st := generator_state [1024; 1024] (mk_wait 0 true 1) in
  let d := DirEnt 0 [] in
  shead (execs (env st)) <> 0 /\
  stream_ends_after 2 st /\
  ~ wait_ok (shead (waits (env st))) /\
  exists st' pre last,
    reader_read_process 10 0 3 d st = Done st' /\
    forwarded st' = forwarded st ++ pre ++ [last] /\
    Forall (fun b => error b = 0) pre /\
    error last = TRUE /\
    to_main st' = to_main st ++ [last] /\
    read (inodes st' (inode d)) = read (inodes st (inode d)).
Proof.
  intros st d.
  assert (H1 : shead (execs (env st)) <> 0) by (vm_compute; discriminate).
  assert (H2 : stream_ends_after 2 st).
  { apply (generator_stream_ends [1024; 1024]).
    repeat constructor; discriminate. }
  assert (H3 : ~ wait_ok (shead (waits (env st)))).
  { intros (_ & _ & H). vm_compute in H. discriminate. }
  assert (H4 : (2 < 3)%nat) by lia.
  split; [exact H1 |]. split; [exact H2 |]. split; [exact H3 |].
  exact (reader_read_process_failed_exit 10 0 3 2 d st H1 H2 H3 H4).
Defined.

(** C9 on a symbolic link. *)
Lemma reader_scan_skips_other_modes_witness :
  let st := initial_state (fun _ => symlink) (static_file_world 7 1024) in
  let d := DirEnt 0 [] in
  is_pseudo_process (inodes st (inode d)) = false /\
  Z.land (st_mode (buf (inodes st (inode d)))) S_IFMT <> S_IFREG /\
  Z.land (st_mode (buf (inodes st (inode d)))) S_IFMT <> S_IFDIR /\
  scan_entry 10 0 is_pseudo_process 1 d st = Done st /\
  reader_scan 10 0 is_pseudo_process 1 [d; DirEnt 0 []] st =
  reader_scan 10 0 is_pseudo_process 1 [DirEnt 0 []] st.
Proof.
  intros st d.
  assert (H1 : is_pseudo_process (inodes st (inode d)) = false) by reflexivity.
  assert (H2 : Z.land (st_mode (buf (inodes st (inode d)))) S_IFMT <> S_IFREG)
    by (vm_compute; discriminate).
  assert (H3 : Z.land (st_mode (buf (inodes st (inode d)))) S_IFMT <> S_IFDIR)
    by (vm_compute; discriminate).
  split; [exact H1 |]. split; [exact H2 |]. split; [exact H3 |].
  exact (reader_scan_skips_other_modes 10 0 is_pseudo_process 1 d
           [DirEnt 0 []] st H1 H2 H3).
Defined.

(** C10 on a generator that delivers nothing and exits with status 0. *)
Lemma reader_read_process_empty_witness :
  let st := generator_state [] (mk_wait 0 true 0) in
  let d := DirEnt 0 [] in
  shead (execs (env st)) <> 0 /\
  shead (reads (env st)) = 0 /\
  wait_ok (shead (waits (env st))) /\
  exists b st',
    reader_read_process 12 0 1 d st = Done st' /\
    forwarded st' = forwarded st ++ [b] /\
    to_main st' = to_main st ++ [b] /\
    to_process_frag st' = to_process_frag st /\
    to_deflate st' = to_deflate st /\
    sequence b = seq st /\ size b = 0 /\ file_size b = 0 /\
    error b = 0 /\ fragment b = false /\
    st_size (buf (inodes st' (inode d))) = 0 /\
    seq st' = seq st + 1.
Proof.
  intros st d.
  assert (H1 : shead (execs (env st)) <> 0) by (vm_compute; discriminate).
  assert (H2 : shead (reads (env st)) = 0) by reflexivity.
  assert (H3 : wait_ok (shead (waits (env st))))
    by (repeat split; vm_compute; discriminate).
  split; [exact H1 |]. split; [exact H2 |]. split; [exact H3 |].
  exact (reader_read_process_empty 12 0 0 d st H1 H2 H3).
Defined.

(** A file stated at 1024 bytes that has grown to 2048: the block is read,
    the 1-byte probe answers 1, the fresh stat differs, the buffer is
    forwarded with [error = 2], and the second attempt reads the two
    blocks and sees end of stream at its probe. *)
Example grown_file_is_retried :
  let st := scripted_file_state 1024 [1024; 1; 1024; 1024; 0] 2048 in
  exists st',
    reader_read_file 10 0 2 (DirEnt 0 []) st = Done st' /\
    map (fun b => (sequence b, file_size b, error b)) (forwarded st') =
      [(0, 1024, 2); (1, 2048, 0); (2, 2048, 0)] /\
    st_size (buf (inodes st' 0%nat)) = 2048 /\
    trace st' =
      [Assign 0; Read 1024 1024; Read 1 1;
       Put To_main (mk_buffer 0 1024 1024 2 false 0);
       Assign 1; Read 1024 1024;
       Put To_deflate (mk_buffer 1 1024 2048 0 false 0);
       Assign 2; Read 1024 1024; Read 1 0;
       Put To_deflate (mk_buffer 2 1024 2048 0 false 0)].
Proof.
  intros st. subst st. eexists. split; [vm_compute; reflexivity |].
  repeat split.
Qed.

(** A short read on a file whose fresh stat reports the size just tried is
    a hard failure, without a retry. *)
Example short_read_same_size_fails :
  let st := scripted_file_state 1024 [500] 1024 in
  exists st',
    reader_read_file 10 0 1 (DirEnt 0 []) st = Done st' /\
    to_main st' = [mk_buffer 0 500 1024 TRUE false 0] /\
    forwarded st' = to_main st'.
Proof.
  intros st. subst st. eexists. split; [vm_compute; reflexivity |].
  repeat split.
Qed.

(** C2 on the stale buffer, whose error field is nonzero: the error
    rule. *)
Lemma put_file_buffer_routes_witness :
  let st := static_file_state 0 1024 in
  error stale_buffer <> 0 /\
  to_main (put_file_buffer stale_buffer st) =
    to_main st ++ [set_fragment false stale_buffer] /\
  to_process_frag (put_file_buffer stale_buffer st) = to_process_frag st /\
  to_deflate (put_file_buffer stale_buffer st) = to_deflate st.
Proof.
  intros st.
  assert (H : error stale_buffer <> 0) by (vm_compute; discriminate).
  split; [exact H |].
  exact (proj1 (put_file_buffer_routes stale_buffer st) H).
Defined.

(** C6 on a file of 2048 bytes read in two blocks of 1024 whose probe
    reports end of stream: the count matches, one read of 1 byte follows
    the two block reads, and the attempt finishes. *)
Lemma attempt_checks_count_and_probes_witness :
  let st := scripted_file_state 2048 [1024; 1024; 0] 2048 in
  0 <= 10 /\
  0 <= 2048 /\
  (2048 + block_size 10 - 1) / block_size 10 <= INT_MAX /\
  shead (opens (env st)) <> -1 /\
  Z.of_nat 1 = block_count 10 2048 - 1 /\
  full_blocks 10 1 st /\
  reads (env st) 1%nat <> -1 /\
  exists b st1,
    reads_of (trace st1) = [(1024, 1024); (1024, 1024)] /\
    size b = 1024 /\ file_size b = 2048 /\ error b = 0 /\
    reads_of (trace (snd (read_bytes 1 st1))) =
      reads_of (trace st1) ++ [(1, 0)] /\
    attempt 10 0 0 st =
    Finished (put_file_buffer
                (set_fragment (is_fragment 10 0 (inodes st 0%nat)) b)
                (snd (read_bytes 1 st1))).
Proof.
  intros st.
  assert (H0 : 0 <= 10) by lia.
  assert (H1 : 0 <= st_size (buf (inodes st 0%nat))) by (simpl; lia).
  assert (H2 : (st_size (buf (inodes st 0%nat)) + block_size 10 - 1)
               / block_size 10 <= INT_MAX) by (vm_compute; discriminate).
  assert (H3 : shead (opens (env st)) <> -1) by (vm_compute; discriminate).
  assert (H4 : Z.of_nat 1 = block_count 10 (st_size (buf (inodes st 0%nat))) - 1)
    by reflexivity.
  assert (H5 : full_blocks 10 1 st).
  { intros j Hj. destruct j as [| j]; [reflexivity | lia]. }
  assert (H6 : reads (env st) 1%nat <> -1) by (vm_compute; discriminate).
  split; [exact H0 |]. split; [lia |]. split; [exact H2 |].
  split; [exact H3 |]. split; [exact H4 |]. split; [exact H5 |].
  split; [exact H6 |].
  destruct (attempt_checks_count_and_probes 10 0 0 st 1 H0 H1 H2 H3 H4 H5 H6)
    as (b & st1 & Hro & _ & _ & _ & _ & Hsz & Hfsz & Herr & _ & Hprobe & _).
  exists b, st1.
  destruct (Hprobe eq_refl ltac:(discriminate) eq_refl) as (Ht & Hfin & _).
  split; [exact Hro |]. split; [exact Hsz |]. split; [exact Hfsz |].
  split; [exact Herr |]. split; [exact Ht |]. exact (Hfin eq_refl).
Defined.

(** C7 on a file stated at 1024 bytes whose fresh stat reports 2048. *)
Lemma restat_retries_only_on_new_size_witness :
  let st := scripted_file_state 1024 [] 2048 in
  let b := mk_buffer 0 500 1024 0 false 0 in
  fst (fst (fstat st)) <> -1 /\
  st_size (snd (fst (fstat st))) <> 1024 /\
  restat 0 1024 b st =
    Again (put_file_buffer (set_error 2 b)
             (update_inode 0 (set_buf (snd (fst (fstat st))))
                (snd (fstat st)))).
Proof.
  intros st b.
  assert (H1 : fst (fst (fstat st)) <> -1) by (vm_compute; discriminate).
  assert (H2 : st_size (snd (fst (fstat st))) <> 1024)
    by (vm_compute; discriminate).
  split; [exact H1 |]. split; [exact H2 |].
  exact (proj1 (proj1 (proj2
           (restat_retries_only_on_new_size 10 0 0%nat 1024 b st)) H1 H2)).
Defined.

(** The walk of the sample tree: three buffers for the file, the symbolic
    link passed over, one buffer for the generator (the buffer that met
    the end of its stream is released and its number 4 given back), and
    nothing for the second name of the file. *)
Example sample_tree_walk :
  exists st',
    reader 10 0 is_pseudo_process 2 false sample_tree (fun _ => [])
           (initial_state sample_inodes sample_world) = Done st' /\
    map (fun b => (sequence b, size b, file_size b, error b, fragment b))
        (to_deflate st') =
      [(0, 1024, 2500, 0, false); (1, 1024, 2500, 0, false);
       (2, 452, 2500, 0, false)] /\
    map (fun b => (sequence b, size b, file_size b, error b, fragment b))
        (to_process_frag st') = [(3, 300, 300, 0, true)] /\
    to_main st' = [] /\
    seq st' = 4 /\
    trace st' =
      [Assign 0; Read 1024 1024;
       Put To_deflate (mk_buffer 0 1024 2500 0 false 0);
       Assign 1; Read 1024 1024;
       Put To_deflate (mk_buffer 1 1024 2500 0 false 0);
       Assign 2; Read 1024 452;
       Put To_deflate (mk_buffer 2 452 2500 0 false 0);
       Assign 3; Read 1024 300;
       Assign 4; Read 1024 0; Release (mk_buffer 4 0 (-1) 0 false 0);
       Put To_process_frag (mk_buffer 3 300 300 0 true 0)].
Proof.
  eexists. split; [vm_compute; reflexivity |]. repeat split.
Qed.

(** * The further properties on the sample inputs *)



(** X4 on a file of 2500 bytes and a second name of it. *)
Lemma reader_read_file_once_witness :
  let st := static_file_state 2500 1024 in
  let d := DirEnt 0 [] in
  let d' := DirEnt 0 [DirEnt 1 []] in
  let st' := outcome_state (reader_read_file 10 0 1 d st) in
  reader_read_file 10 0 1 d st = Done st' /\
  inode d' = inode d /\
  read (inodes st' (inode d)) = true /\
  reader_read_file 10 0 7 d' st' = Done st'.
Proof.
  intros st d d' st'. subst st d d' st'.
  assert (H1 : reader_read_file 10 0 1 (DirEnt 0 [])
                 (static_file_state 2500 1024)
               = Done (outcome_state
                   (reader_read_file 10 0 1 (DirEnt 0 [])
                      (static_file_state 2500 1024))))
    by (vm_compute; reflexivity).
  assert (H2 : inode (DirEnt 0 [DirEnt 1 []]) = inode (DirEnt 0 []))
    by reflexivity.
  split; [exact H1 |]. split; [exact H2 |].
  exact (reader_read_file_once 10 0 1 7 (DirEnt 0 [])
           (DirEnt 0 [DirEnt 1 []]) _ _ H1 H2).
Defined.

(** X5 on a file that cannot be opened. *)
Lemma reader_read_file_open_failure_witness :
  let st := unopenable_file_state in
  let d := DirEnt 0 [] in
  read (inodes st (inode d)) = false /\
  shead (opens (env st)) = -1 /\
  exists b st',
    reader_read_file 10 0 1 d st = Done st' /\
    forwarded st' = forwarded st ++ [b] /\
    to_main st' = to_main st ++ [b] /\
    to_process_frag st' = to_process_frag st /\
    to_deflate st' = to_deflate st /\
    b = set_fragment false
          (set_error TRUE
             (set_sequence (seq st) (shead (cache_bufs (env st))))) /\
    seq st' = seq st + 1 /\
    read (inodes st' (inode d)) = true /\
    buf (inodes st' (inode d)) = buf (inodes st (inode d)) /\
    reads (env st') = reads (env st) /\
    fstats (env st') = fstats (env st).
Proof.
  intros st d.
  assert (H1 : read (inodes st (inode d)) = false) by reflexivity.
  assert (H2 : shead (opens (env st)) = -1) by reflexivity.
  split; [exact H1 |]. split; [exact H2 |].
  exact (reader_read_file_open_failure 10 0 0 d st H1 H2).
Defined.

(** X6 on a generator that cannot be started. *)
Lemma reader_read_process_spawn_failure_witness :
  let st := failed_spawn_state in
  let d := DirEnt 0 [] in
  shead (execs (env st)) = 0 /\
  exists b st',
    reader_read_process 10 0 3 d st = Done st' /\
    forwarded st' = forwarded st ++ [b] /\
    to_main st' = to_main st ++ [b] /\
    to_process_frag st' = to_process_frag st /\
    to_deflate st' = to_deflate st /\
    b = set_fragment false
          (set_error TRUE
             (set_sequence (seq st) (shead (cache_bufs (env st))))) /\
    seq st' = seq st + 1 /\
    inodes st' = inodes st /\
    reads (env st') = reads (env st) /\
    waits (env st') = waits (env st).
Proof.
  intros st d.
  assert (H1 : shead (execs (env st)) = 0) by reflexivity.
  split; [exact H1 |].
  exact (reader_read_process_spawn_failure 10 0 3 d st H1).
Defined.

(** X7 on the sample tree, whose root entry is a directory. *)
Lemma reader_scan_descends_witness :
  let st := initial_state sample_inodes sample_world in
  let children := [DirEnt 1 []; DirEnt 2 []; DirEnt 3 []; DirEnt 1 []] in
  root_entry (inodes st 0%nat) = false /\
  is_pseudo_process (inodes st 0%nat) = false /\
  Z.land (st_mode (buf (inodes st 0%nat))) S_IFMT = S_IFDIR /\
  reader_scan 10 0 is_pseudo_process 2 (DirEnt 0 children :: []) st =
  reader_scan 10 0 is_pseudo_process 2 (children ++ []) st.
Proof.
  intros st children.
  assert (H1 : root_entry (inodes st 0%nat) = false) by reflexivity.
  assert (H2 : is_pseudo_process (inodes st 0%nat) = false) by reflexivity.
  assert (H3 : Z.land (st_mode (buf (inodes st 0%nat))) S_IFMT = S_IFDIR)
    by reflexivity.
  split; [exact H1 |]. split; [exact H2 |]. split; [exact H3 |].
  exact (reader_scan_descends 10 0 is_pseudo_process 2 0 children [] st
           H1 H2 H3).
Defined.

(** X9 on the generator that never ends, followed for five turns. *)
Lemma reader_read_process_endless_witness :
  let st := endless_generator_state in
  let d := DirEnt 0 [] in
  shead (execs (env st)) <> 0 /\
  (forall j, reads (env st) j <> 0 /\ reads (env st) j <> -1) /\
  0 <= seq st /\
  seq st + Z.of_nat 5 <= INT_MAX /\
  exists st',
    reader_read_process 10 0 5 d st = OutOfFuel st' /\
    seq st' = seq st + Z.of_nat 5 /\
    0 <= seq st' <= INT_MAX /\
    length (forwarded st') = (length (forwarded st) + (5 - 1))%nat /\
    waits (env st') = waits (env st).
Proof.
  intros st d.
  assert (H1 : shead (execs (env st)) <> 0) by (vm_compute; discriminate).
  assert (H2 : forall j, reads (env st) j <> 0 /\ reads (env st) j <> -1)
    by (intros j; split; vm_compute; discriminate).
  assert (H3 : 0 <= seq st) by (vm_compute; discriminate).
  assert (H4 : seq st + Z.of_nat 5 <= INT_MAX) by (vm_compute; discriminate).
  split; [exact H1 |]. split; [exact H2 |]. split; [exact H3 |].
  split; [exact H4 |].
  exact (reader_read_process_endless 10 0 5 d st H1 H2 H3 H4).
Defined.

(** X11 on a file of 2500 bytes whose second read fails. *)
Lemma reader_read_file_read_error_witness :
  let st := scripted_file_state 2500 [1024; -1] 2500 in
  let d := DirEnt 0 [] in
  0 <= 10 /\
  read (inodes st (inode d)) = false /\
  0 <= 2500 /\
  (2500 + block_size 10 - 1) / block_size 10 <= INT_MAX /\
  shead (opens (env st)) <> -1 /\
  Z.of_nat 1 < block_count 10 2500 /\
  full_blocks 10 1 st /\
  reads (env st) 1%nat = -1 /\
  exists b st',
    reader_read_file 10 0 1 d st = Done st' /\
    forwarded st' =
      forwarded st ++
      map (fun j => mk_buffer (seq st + Z.of_nat j) (block_size 10) 2500
                              FALSE false 0)
          (List.seq 0 1) ++ [b] /\
    to_main st' = to_main st ++ [b] /\
    b = mk_buffer (seq st + Z.of_nat 1) (-1) 2500 TRUE false 0 /\
    seq st' = seq st + Z.of_nat 1 + 1 /\
    fstats (env st') = fstats (env st) /\
    buf (inodes st' (inode d)) = buf (inodes st (inode d)).
Proof.
  intros st d.
  assert (H0 : 0 <= 10) by lia.
  assert (H1 : read (inodes st (inode d)) = false) by reflexivity.
  assert (H2 : 0 <= st_size (buf (inodes st (inode d)))) by (simpl; lia).
  assert (H3 : (st_size (buf (inodes st (inode d))) + block_size 10 - 1)
               / block_size 10 <= INT_MAX) by (vm_compute; discriminate).
  assert (H4 : shead (opens (env st)) <> -1) by (vm_compute; discriminate).
  assert (H5 : Z.of_nat 1 < block_count 10 (st_size (buf (inodes st (inode d)))))
    by (vm_compute; reflexivity).
  assert (H6 : full_blocks 10 1 st).
  { intros j Hj. destruct j as [| j]; [reflexivity | lia]. }
  assert (H7 : reads (env st) 1%nat = -1) by reflexivity.
  split; [exact H0 |]. split; [exact H1 |]. split; [lia |].
  split; [exact H3 |]. split; [exact H4 |]. split; [exact H5 |].
  split; [exact H6 |]. split; [exact H7 |].
  exact (reader_read_file_read_error 10 0 0 d st 1 H0 H1 H2 H3 H4 H5 H6 H7).
Defined.

(** X12 on a generator whose third read fails. *)
Lemma reader_read_process_read_error_witness :
  let st := generator_state [300; 200; -1] (mk_wait 0 true 0) in
  let d := DirEnt 0 [] in
  let chunk := chunk_buffer 0 0 (reads (env st)) in
  shead (execs (env st)) <> 0 /\
  data_chunks 2 st /\
  reads (env st) 2%nat = -1 /\
  (2 < 5)%nat /\
  0 <= seq st /\
  seq st + Z.of_nat 1 + 2 <= INT_MAX /\
  exists st',
    reader_read_process 10 0 5 d st = Done st' /\
    forwarded st' =
      forwarded st ++ map chunk (List.seq 0 1) ++ [set_error TRUE (chunk 1%nat)] /\
    to_main st' = to_main st ++ [set_error TRUE (chunk 1%nat)] /\
    seq st' = seq st + Z.of_nat 2 /\
    0 <= seq st' < INT_MAX /\
    inodes st' = inodes st /\
    waits (env st') = waits (env st) /\
    forall j, cache_bufs (env st') j = cache_bufs (env st) (3 + j)%nat.
Proof.
  intros st d chunk.
  assert (H1 : shead (execs (env st)) <> 0) by (vm_compute; discriminate).
  assert (H2 : data_chunks 2 st).
  { intros j Hj. destruct j as [| [| j]];
      [split; vm_compute; discriminate
      | split; vm_compute; discriminate | lia]. }
  assert (H3 : reads (env st) 2%nat = -1) by reflexivity.
  assert (H4 : (2 < 5)%nat) by lia.
  assert (H5 : 0 <= seq st) by (vm_compute; discriminate).
  assert (H6 : seq st + Z.of_nat 1 + 2 <= INT_MAX)
    by (vm_compute; discriminate).
  split; [exact H1 |]. split; [exact H2 |]. split; [exact H3 |].
  split; [exact H4 |]. split; [exact H5 |]. split; [exact H6 |].
  exact (reader_read_process_read_error 10 0 5 1 d st H1 H2 H3 H4 H5 H6).
Defined.

(** X13 on a generator that delivers 300 and 200 bytes and exits well. *)
Lemma reader_read_process_sizes_witness :
  let st := generator_state [300; 200] (mk_wait 0 true 0) in
  let d := DirEnt 0 [] in
  shead (execs (env st)) <> 0 /\
  stream_ends_after 2 st /\
  wait_ok (shead (waits (env st))) /\
  (2 < 5)%nat /\
  0 <= seq st /\
  seq st + Z.of_nat 1 + 2 <= INT_MAX /\
  exists st' bufs,
    reader_read_process 10 0 5 d st = Done st' /\
    forwarded st' = forwarded st ++ bufs /\
    map size bufs = map (reads (env st)) (List.seq 0 2) /\
    map sequence bufs = map (fun j => seq st + Z.of_nat j) (List.seq 0 2) /\
    Forall (fun b => noD b = i_noD (inodes st (inode d)) /\ error b = 0 /\
                     0 <= sequence b < INT_MAX)
           bufs /\
    sum_list (map size bufs) = st_size (buf (inodes st' (inode d))) /\
    seq st' = seq st + Z.of_nat 2.
Proof.
  intros st d.
  assert (H1 : shead (execs (env st)) <> 0) by (vm_compute; discriminate).
  assert (H2 : stream_ends_after 2 st).
  { split; [| reflexivity].
    intros j Hj. destruct j as [| [| j]];
      [split; vm_compute; discriminate
      | split; vm_compute; discriminate | lia]. }
  assert (H3 : wait_ok (shead (waits (env st))))
    by (repeat split; vm_compute; discriminate).
  assert (H4 : (2 < 5)%nat) by lia.
  assert (H5 : 0 <= seq st) by (vm_compute; discriminate).
  assert (H6 : seq st + Z.of_nat 1 + 2 <= INT_MAX)
    by (vm_compute; discriminate).
  split; [exact H1 |]. split; [exact H2 |]. split; [exact H3 |].
  split; [exact H4 |]. split; [exact H5 |]. split; [exact H6 |].
  exact (reader_read_process_sizes 10 0 5 1 d st H1 H2 H3 H4 H5 H6).
Defined.

(** X14 on an unchanging file of 2500 bytes. *)
Lemma reader_read_file_sizes_witness :
  let st := static_file_state 2500 1024 in
  let d := DirEnt 0 [] in
  0 <= 10 /\
  read (inodes st (inode d)) = false /\
  0 <= 2500 /\
  (2500 + block_size 10 - 1) / block_size 10 <= INT_MAX /\
  shead (opens (env st)) <> -1 /\
  static_reads 10 2500 0 st /\
  exists st' pre last,
    reader_read_file 10 0 1 d st = Done st' /\
    forwarded st' = forwarded st ++ pre ++ [last] /\
    Forall (fun b => size b = block_size 10 /\ fragment b = false) pre /\
    size last = 2500 - Z.of_nat (length pre) * block_size 10 /\
    0 <= size last <= block_size 10 /\
    Forall (fun b => noD b = 0) (pre ++ [last]) /\
    sum_list (map size (pre ++ [last])) = 2500.
Proof.
  intros st d.
  assert (H0 : 0 <= 10) by lia.
  assert (H1 : read (inodes st (inode d)) = false) by reflexivity.
  assert (H2 : 0 <= st_size (buf (inodes st (inode d)))) by (simpl; lia).
  assert (H3 : (st_size (buf (inodes st (inode d))) + block_size 10 - 1)
               / block_size 10 <= INT_MAX) by (vm_compute; discriminate).
  assert (H4 : shead (opens (env st)) <> -1) by (vm_compute; discriminate).
  assert (H5 : static_reads 10 (st_size (buf (inodes st (inode d)))) 0 st)
    by apply (static_file_world_reads 2500 10).
  split; [exact H0 |]. split; [exact H1 |]. split; [lia |].
  split; [exact H3 |]. split; [exact H4 |]. split; [exact H5 |].
  exact (reader_read_file_sizes 10 0 0 d st H0 H1 H2 H3 H4 H5).
Defined.

(** X16 on a file of 2500 bytes and the inode next to it. *)
Lemma reader_read_file_writes_own_inode_witness :
  let st := static_file_state 2500 1024 in
  let d := DirEnt 0 [] in
  1%nat <> inode d /\
  inodes (outcome_state (reader_read_file 10 0 1 d st)) 1%nat
  = inodes st 1%nat.
Proof.
  intros st d.
  assert (H1 : 1%nat <> inode d) by discriminate.
  split; [exact H1 |].
  exact (reader_read_file_writes_own_inode 10 0 1 d st 1 H1).
Defined.

(** X15 on a file stated at 1024 bytes that has grown to 2048: the probe
    read after the first block finds data, the fresh stat reports 2048,
    and the second attempt reads two blocks. *)
Lemma reader_read_file_retry_witness :
  let st := scripted_file_state 1024 [1024; 1; 1024; 1024; 0] 2048 in
  let d := DirEnt 0 [] in
  let st1 := result_state
               (attempt 10 0 0 (update_inode 0 (set_read true) st)) in
  0 <= 10 /\
  read (inodes st 0%nat) = false /\
  attempt 10 0 0 (update_inode 0 (set_read true) st) = Again st1 /\
  0 <= 2048 /\
  (2048 + block_size 10 - 1) / block_size 10 <= INT_MAX /\
  shead (opens (env st1)) <> -1 /\
  static_reads 10 2048 0 st1 /\
  exists st',
    reader_read_file 10 0 2 d st = Done st' /\
    retry_marked st1 /\
    2048 <> 1024 /\
    forwarded st' =
      forwarded st1 ++ file_buffers 10 0 (inodes st1 0%nat) (seq st1) /\
    seq st' = seq st1 + block_count 10 2048 /\
    inodes st' = inodes st1.
Proof.
  intros st d st1.
  assert (H0 : 0 <= 10) by lia.
  assert (H1 : read (inodes st (inode d)) = false) by reflexivity.
  assert (H2 : attempt 10 0 (inode d)
                 (update_inode (inode d) (set_read true) st) = Again st1)
    by (subst st d st1; vm_compute; reflexivity).
  assert (H3 : 0 <= st_size (buf (inodes st1 (inode d))))
    by (subst st d st1; vm_compute; discriminate).
  assert (H4 : (st_size (buf (inodes st1 (inode d))) + block_size 10 - 1)
               / block_size 10 <= INT_MAX)
    by (subst st d st1; vm_compute; discriminate).
  assert (H5 : shead (opens (env st1)) <> -1)
    by (subst st d st1; vm_compute; discriminate).
  assert (H6 : static_reads 10 (st_size (buf (inodes st1 (inode d)))) 0 st1).
  { intros j Hj.
    change (st_size (buf (inodes st1 (inode d)))) with 2048 in *.
    change (block_size 10) with 1024 in *.
    destruct j as [| [| [| j]]]; [reflexivity | reflexivity | reflexivity |].
    lia. }
  split; [exact H0 |]. split; [exact H1 |]. split; [exact H2 |].
  split; [lia |]. split; [exact H4 |]. split; [exact H5 |].
  split; [exact H6 |].
  exact (reader_read_file_retry 10 0 0 d st st1 H0 H1 H2 H3 H4 H5 H6).
Defined.

(** X18 on the file whose size flickers, followed for three attempts. *)
Lemma reader_read_file_unfinished_witness :
  let st := flickering_file_state in
  let d := DirEnt 0 [] in
  let st' := outcome_state (reader_read_file 10 0 3 d st) in
  (0 < 3)%nat /\
  reader_read_file 10 0 3 d st = OutOfFuel st' /\
  (forall n, opens (env st') n = opens (env st) (3 + n)%nat) /\
  (forall n, fstats (env st') n = fstats (env st) (3 + n)%nat) /\
  retry_marked st' /\
  read (inodes st (inode d)) = false.
Proof.
  intros st d st'.
  assert (H1 : (0 < 3)%nat) by lia.
  assert (H2 : reader_read_file 10 0 3 d st = OutOfFuel st')
    by (subst st d st'; vm_compute; reflexivity).
  split; [exact H1 |]. split; [exact H2 |].
  exact (reader_read_file_unfinished 10 0 3 d st st' H1 H2).
Defined.
